(** * kitty-doom: the terminal I/O pipeline, embedded and verified

    The development follows the parts of the program, each a module that
    first embeds the code and then states and proves its properties:
    - [Palette]: src/palette.c and src/arch/neon-palette.h, the indexed to
      RGB24 colour lookup, in its scalar and its NEON form;
    - [Base64]: the encoding [base64_encode_auto] is documented to
      produce, used where a concrete encoder is needed;
    - [Render]: src/render.c, the Kitty graphics protocol encoder;
    - [Input]: src/input.c, the escape-sequence parser with its held-key
      bitmap, pending-release list and SGR mouse decoder, and the queries
      of the main thread;
    - [Sound]: src/sound.c, the audio callback.

    Bytes are [Byte.byte]; C arrays are lists read with stdpp's lookup and
    written with its insert; machine integers are [Z] (or [nat] for sizes
    that are lengths of allocated objects) with wrap-around written out
    where the source can reach it. *)

From Stdlib Require Import Decimal DecimalFacts DecimalPos DecimalZ.
From Stdlib Require Import ZArith Lia Strings.Byte String Ascii DecimalString.
From stdpp Require Import base list.

#[global] Instance byte_inhabited : Inhabited byte := populate x00.

#[global] Instance byte_eq_decision : EqDecision byte := Byte.byte_eq_dec.

(** [int] arithmetic as the compiled code performs it: two's complement,
    32 bits. The standard leaves signed overflow undefined; statements
    that depend on an [int] keep it in the range where the operation is
    defined. *)
Definition INT_MAX : Z := 2147483647.
Definition INT_MIN : Z := -2147483648.
Definition wrap_int (z : Z) : Z := (z + 2 ^ 31) mod 2 ^ 32 - 2 ^ 31.

Lemma wrap_int_id z : (INT_MIN <= z <= INT_MAX)%Z -> wrap_int z = z.
Proof.
  unfold wrap_int, INT_MIN, INT_MAX. intros H.
  rewrite Z.mod_small by lia. lia.
Qed.

(** A counted C loop [for (i = a; i < a + n; i++) s = body(i, s)]. *)
Definition for_range {S : Type} (a n : nat) (body : nat -> S -> S) (s : S) : S :=
  fold_left (fun acc i => body i acc) (seq a n) s.

Lemma for_range_0 {S : Type} a (body : nat -> S -> S) s :
  for_range a 0 body s = s.
Proof. reflexivity. Qed.

Lemma for_range_S {S : Type} a n (body : nat -> S -> S) s :
  for_range a (Datatypes.S n) body s = for_range (Datatypes.S a) n body (body a s).
Proof. reflexivity. Qed.

Lemma for_range_snoc {S : Type} a n (body : nat -> S -> S) s :
  for_range a (Datatypes.S n) body s = body (a + n) (for_range a n body s).
Proof.
  unfold for_range. rewrite seq_S, fold_left_app. reflexivity.
Qed.

Lemma for_range_add {S : Type} a n m (body : nat -> S -> S) s :
  for_range a (n + m) body s = for_range (a + n) m body (for_range a n body s).
Proof.
  unfold for_range. rewrite seq_app, fold_left_app. reflexivity.
Qed.

Lemma for_range_ext {S : Type} a n (f g : nat -> S -> S) s :
  (forall i t, a <= i < a + n -> f i t = g i t) ->
  for_range a n f s = for_range a n g s.
Proof.
  revert a s. induction n as [|n IH]; intros a s H; [reflexivity|].
  rewrite !for_range_S, H by lia. apply IH. intros; apply H; lia.
Qed.

(* ================================================================== *)
(** * Palette conversion (src/palette.c, src/arch/neon-palette.h)      *)
(* ================================================================== *)

Module Palette.

(** The three static 256-entry channel arrays and their flag
    ([palette_r_scalar] ... [palette_initialized_scalar], and the same
    four objects with suffix [_neon]). *)
Record palette_cache := {
  palette_r : list byte;
  palette_g : list byte;
  palette_b : list byte;
  palette_initialized : bool
}.

(** Static storage starts zeroed. *)
Definition cache_static : palette_cache :=
  {| palette_r := replicate 256 x00; palette_g := replicate 256 x00;
     palette_b := replicate 256 x00; palette_initialized := false |}.

Definition idx_of (b : byte) : nat := N.to_nat (Byte.to_N b).

(** The body of the initialisation loop, the same in both builds:
    [r[i] = palette[i*3+0]; g[i] = palette[i*3+1]; b[i] = palette[i*3+2]]. *)
Definition init_body (palette : list byte) (i : nat) (c : palette_cache)
  : palette_cache :=
  {| palette_r := <[i := palette !!! (i * 3 + 0)]> (palette_r c);
     palette_g := <[i := palette !!! (i * 3 + 1)]> (palette_g c);
     palette_b := <[i := palette !!! (i * 3 + 2)]> (palette_b c);
     palette_initialized := palette_initialized c |}.

Definition raise_flag (c : palette_cache) : palette_cache :=
  {| palette_r := palette_r c; palette_g := palette_g c;
     palette_b := palette_b c; palette_initialized := true |}.

(** [palette_init_scalar]: split the packed palette into the three
    channel arrays and raise the flag. *)
Definition palette_init_scalar (palette : list byte) (c : palette_cache)
  : palette_cache :=
  raise_flag (for_range 0 256 (init_body palette) c).

(** [palette_init_neon] has the same body over the [_neon] arrays. *)
Definition palette_init_neon (palette : list byte) (c : palette_cache)
  : palette_cache :=
  raise_flag (for_range 0 256 (init_body palette) c).

(** One pixel of the per-pixel loop: three stores at [i*3 .. i*3+2]. *)
Definition store_pixel (c : palette_cache) (indexed : list byte)
    (i : nat) (rgb24 : list byte) : list byte :=
  let idx := idx_of (indexed !!! i) in
  <[i * 3 + 2 := palette_b c !!! idx]>
    (<[i * 3 + 1 := palette_g c !!! idx]>
      (<[i * 3 + 0 := palette_r c !!! idx]> rgb24)).

(** [palette_to_rgb24_scalar] *)
Definition palette_to_rgb24_scalar (c : palette_cache)
    (indexed rgb24 : list byte) (npixels : nat) : list byte :=
  for_range 0 npixels (store_pixel c indexed) rgb24.

(** NEON intrinsics used by the batched path. [uint8x8_t] is eight lanes. *)
Definition vld1_u8 (a : list byte) : list byte := take 8 a.

(** [vst3_u8 (ptr, {v0, v1, v2})]: the three-way interleaved store of eight
    lanes, 24 bytes from [ptr]. *)
Definition vst3_u8 (ptr : nat) (v0 v1 v2 : list byte) (mem : list byte)
  : list byte :=
  for_range 0 8 (fun l m =>
    <[ptr + 3 * l + 2 := v2 !!! l]>
      (<[ptr + 3 * l + 1 := v1 !!! l]>
        (<[ptr + 3 * l + 0 := v0 !!! l]> m))) mem.

(** The gather of one batch into the hoisted stack arrays
    [r_vals], [g_vals], [b_vals]. *)
Definition gather8 (c : palette_cache) (indexed : list byte) (i : nat)
    (vals : list byte * list byte * list byte)
  : list byte * list byte * list byte :=
  for_range 0 8 (fun j '(r_vals, g_vals, b_vals) =>
    let idx := idx_of (indexed !!! (i + j)) in
    (<[j := palette_r c !!! idx]> r_vals,
     <[j := palette_g c !!! idx]> g_vals,
     <[j := palette_b c !!! idx]> b_vals)) vals.

(** [palette_to_rgb24_neon_impl]: batches of eight, then the scalar tail.
    The batch loop runs for [i = 0, 8, ..., simd_pixels - 8]; the stack
    arrays are carried from one batch to the next as in the source. *)
Definition palette_to_rgb24_neon_impl (c : palette_cache)
    (indexed rgb24 : list byte) (npixels : nat) : list byte :=
  let simd_pixels := (npixels / 8) * 8 in
  let vals0 := (replicate 8 x00, replicate 8 x00, replicate 8 x00) in
  let '(_, rgb24) :=
    for_range 0 (simd_pixels / 8) (fun k '(vals, rgb24) =>
      let i := k * 8 in
      let '(r_vals, g_vals, b_vals) := gather8 c indexed i vals in
      let r := vld1_u8 r_vals in
      let g := vld1_u8 g_vals in
      let b := vld1_u8 b_vals in
      ((r_vals, g_vals, b_vals), vst3_u8 (i * 3) r g b rgb24))
      (vals0, rgb24) in
  for_range simd_pixels (npixels - simd_pixels) (store_pixel c indexed) rgb24.

(** The build target: NEON on ARM, the scalar loop elsewhere. *)
Inductive target := NEON | Scalar.

(** [palette_to_rgb24]: initialise the cache of the compiled-in path on
    first use, then convert. Returns the cache and the output buffer. *)
Definition palette_to_rgb24 (t : target) (c : palette_cache)
    (indexed rgb24 palette : list byte) (npixels : nat)
  : palette_cache * list byte :=
  match t with
  | NEON =>
      let c := if palette_initialized c then c else palette_init_neon palette c in
      (c, palette_to_rgb24_neon_impl c indexed rgb24 npixels)
  | Scalar =>
      let c := if palette_initialized c then c else palette_init_scalar palette c in
      (c, palette_to_rgb24_scalar c indexed rgb24 npixels)
  end.

(** The cache holds the split of [palette]. *)
Definition cache_of (palette : list byte) (c : palette_cache) : Prop :=
  forall i, i < 256 ->
    palette_r c !! i = Some (palette !!! (i * 3 + 0)) /\
    palette_g c !! i = Some (palette !!! (i * 3 + 1)) /\
    palette_b c !! i = Some (palette !!! (i * 3 + 2)).

(** The three arrays have their declared size. *)
Definition cache_sized (c : palette_cache) : Prop :=
  length (palette_r c) = 256 /\ length (palette_g c) = 256 /\
  length (palette_b c) = 256.


(** ** The cache after initialisation *)

Lemma init_loop_inv palette c n :
  cache_sized c -> n <= 256 ->
  let c' := for_range 0 n (init_body palette) c in
  cache_sized c' /\
  forall i, i < n ->
    palette_r c' !! i = Some (palette !!! (i * 3 + 0)) /\
    palette_g c' !! i = Some (palette !!! (i * 3 + 1)) /\
    palette_b c' !! i = Some (palette !!! (i * 3 + 2)).
Proof.
  intros Hs. induction n as [|n IH]; intros Hn; cbn zeta.
  - rewrite for_range_0. split; [exact Hs | intros; lia].
  - rewrite for_range_snoc. cbn [Nat.add].
    destruct IH as [(Lr & Lg & Lb) IH]; [lia|].
    set (c' := for_range 0 n (init_body palette) c) in *.
    split.
    + unfold cache_sized, init_body; cbn. rewrite !length_insert. auto.
    + intros i Hi. unfold init_body; cbn.
      destruct (decide (i = n)) as [->|Hne].
      * rewrite !list_lookup_insert_eq by lia. auto.
      * rewrite !list_lookup_insert_ne by lia. apply IH. lia.
Qed.

Lemma palette_init_scalar_spec palette c :
  cache_sized c ->
  cache_sized (palette_init_scalar palette c) /\
  cache_of palette (palette_init_scalar palette c).
Proof.
  intros Hs. pose proof (init_loop_inv palette c 256 Hs (le_n _)) as [H1 H2].
  unfold palette_init_scalar.
  generalize dependent (for_range 0 256 (init_body palette) c).
  intros c' H1 H2. split; [exact H1 | exact H2].
Qed.

Lemma palette_init_neon_spec palette c :
  cache_sized c ->
  cache_sized (palette_init_neon palette c) /\
  cache_of palette (palette_init_neon palette c).
Proof. exact (palette_init_scalar_spec palette c). Qed.

(** ** The per-pixel loop *)

Lemma store_pixel_length c indexed i buf :
  length (store_pixel c indexed i buf) = length buf.
Proof. unfold store_pixel. rewrite !length_insert. reflexivity. Qed.

Lemma store_pixel_other c indexed i buf j :
  j < i * 3 \/ i * 3 + 3 <= j ->
  store_pixel c indexed i buf !! j = buf !! j.
Proof.
  intros H. unfold store_pixel. rewrite !list_lookup_insert_ne by lia.
  reflexivity.
Qed.

Lemma store_pixel_here c indexed i buf :
  i * 3 + 3 <= length buf ->
  let idx := idx_of (indexed !!! i) in
  store_pixel c indexed i buf !! (i * 3 + 0) = Some (palette_r c !!! idx) /\
  store_pixel c indexed i buf !! (i * 3 + 1) = Some (palette_g c !!! idx) /\
  store_pixel c indexed i buf !! (i * 3 + 2) = Some (palette_b c !!! idx).
Proof.
  intros H idx. unfold store_pixel. fold idx. repeat split.
  - rewrite !list_lookup_insert_ne by lia.
    rewrite list_lookup_insert_eq by lia. reflexivity.
  - rewrite list_lookup_insert_ne by lia.
    rewrite list_lookup_insert_eq by (rewrite length_insert; lia). reflexivity.
  - rewrite list_lookup_insert_eq by (rewrite !length_insert; lia). reflexivity.
Qed.

Lemma pixel_loop_length c indexed a n buf :
  length (for_range a n (store_pixel c indexed) buf) = length buf.
Proof.
  induction n as [|n IH]; [reflexivity|].
  rewrite for_range_snoc, store_pixel_length. exact IH.
Qed.

Lemma pixel_loop_other c indexed a n buf j :
  j < a * 3 \/ (a + n) * 3 <= j ->
  for_range a n (store_pixel c indexed) buf !! j = buf !! j.
Proof.
  induction n as [|n IH]; intros H; [reflexivity|].
  rewrite for_range_snoc, store_pixel_other by lia. apply IH. lia.
Qed.

Lemma pixel_loop_here c indexed a n buf i :
  (a + n) * 3 <= length buf -> a <= i < a + n ->
  let out := for_range a n (store_pixel c indexed) buf in
  let idx := idx_of (indexed !!! i) in
  out !! (i * 3 + 0) = Some (palette_r c !!! idx) /\
  out !! (i * 3 + 1) = Some (palette_g c !!! idx) /\
  out !! (i * 3 + 2) = Some (palette_b c !!! idx).
Proof.
  induction n as [|n IH]; intros Hlen Hi; [lia|]. cbn zeta.
  rewrite for_range_snoc.
  destruct (decide (i = a + n)) as [->|Hne].
  - apply store_pixel_here. rewrite pixel_loop_length. lia.
  - rewrite !store_pixel_other by lia. apply IH; lia.
Qed.


(** ** One NEON batch is eight iterations of the per-pixel loop *)

Definition vals_sized (vals : list byte * list byte * list byte) : Prop :=
  length vals.1.1 = 8 /\ length vals.1.2 = 8 /\ length vals.2 = 8.

Definition batch (c : palette_cache) (indexed : list byte) (k : nat)
    (st : (list byte * list byte * list byte) * list byte) :=
  let '(vals, rgb24) := st in
  let i := k * 8 in
  let '(r_vals, g_vals, b_vals) := gather8 c indexed i vals in
  let r := vld1_u8 r_vals in
  let g := vld1_u8 g_vals in
  let b := vld1_u8 b_vals in
  ((r_vals, g_vals, b_vals), vst3_u8 (i * 3) r g b rgb24).

Ltac list8 l :=
  let H := fresh in
  intros H;
  do 8 (destruct l as [|? l]; [discriminate H|]);
  destruct l; [clear H | discriminate H].

Lemma batch_spec c indexed k vals rgb24 :
  vals_sized vals ->
  vals_sized (batch c indexed k (vals, rgb24)).1 /\
  (batch c indexed k (vals, rgb24)).2 =
    for_range (k * 8) 8 (store_pixel c indexed) rgb24.
Proof.
  destruct vals as [[rv gv] bv]. intros (Hr & Hg & Hb). cbn in Hr, Hg, Hb.
  revert Hr; list8 rv. revert Hg; list8 gv. revert Hb; list8 bv.
  unfold batch, gather8, vst3_u8, vld1_u8, for_range, store_pixel.
  generalize (k * 8). intros i.
  cbn [seq fold_left fst snd take insert list_insert lookup_total
       list_lookup_total].
  split; [repeat split | repeat (f_equal; try lia)].
Qed.


Lemma batches_spec c indexed q vals rgb24 :
  vals_sized vals ->
  let st := for_range 0 q (batch c indexed) (vals, rgb24) in
  vals_sized st.1 /\
  st.2 = for_range 0 (q * 8) (store_pixel c indexed) rgb24.
Proof.
  intros Hv. induction q as [|q [IH1 IH2]]; cbn zeta.
  - rewrite for_range_0. split; [exact Hv | reflexivity].
  - rewrite for_range_snoc. cbn [Nat.add].
    destruct (for_range 0 q (batch c indexed) (vals, rgb24)) as [vals' buf'].
    cbn [fst snd] in IH1, IH2.
    destruct (batch_spec c indexed q vals' buf' IH1) as [B1 B2].
    split; [exact B1|]. rewrite B2, IH2.
    replace (S q * 8) with (q * 8 + 8) by lia.
    rewrite for_range_add. reflexivity.
Qed.

Lemma neon_impl_unfold c indexed rgb24 npixels :
  palette_to_rgb24_neon_impl c indexed rgb24 npixels =
  for_range (npixels / 8 * 8) (npixels - npixels / 8 * 8)
    (store_pixel c indexed)
    (for_range 0 (npixels / 8 * 8 / 8) (batch c indexed)
       (replicate 8 x00, replicate 8 x00, replicate 8 x00, rgb24)).2.
Proof.
  unfold palette_to_rgb24_neon_impl.
  change (fun k '(vals, rgb24) => _) with (batch c indexed).
  destruct (for_range 0 _ (batch c indexed) _). reflexivity.
Qed.

(** The batched NEON path and the per-pixel path are the same function. *)
Lemma neon_impl_scalar c indexed rgb24 npixels :
  palette_to_rgb24_neon_impl c indexed rgb24 npixels =
  palette_to_rgb24_scalar c indexed rgb24 npixels.
Proof.
  rewrite neon_impl_unfold. unfold palette_to_rgb24_scalar.
  pose proof (Nat.div_mod_eq npixels 8) as Hdm.
  pose proof (Nat.mod_upper_bound npixels 8 ltac:(lia)) as Hlt.
  rewrite Nat.div_mul by lia.
  destruct (batches_spec c indexed (npixels / 8)
              (replicate 8 x00, replicate 8 x00, replicate 8 x00) rgb24)
    as [_ ->]; [repeat split|].
  replace npixels with (npixels / 8 * 8 + (npixels - npixels / 8 * 8)) at 5
    by lia.
  rewrite for_range_add. reflexivity.
Qed.

Lemma idx_of_bound b : idx_of b < 256.
Proof. unfold idx_of. pose proof (Byte.to_N_bounded b). lia. Qed.

Lemma cache_after_init t palette c :
  cache_sized c -> (palette_initialized c = true -> cache_of palette c) ->
  forall indexed rgb24 npixels,
  cache_of palette (palette_to_rgb24 t c indexed rgb24 palette npixels).1.
Proof.
  intros Hs Hc indexed rgb24 npixels.
  destruct t; cbn; destruct (palette_initialized c); auto.
  - apply palette_init_neon_spec, Hs.
  - apply palette_init_scalar_spec, Hs.
Qed.

(** C1. For a 768-byte palette, an index buffer and an output buffer large
    enough for [npixels] pixels, and a cache that is either still
    uninitialised or holds the split of that same palette,
    [palette_to_rgb24] writes exactly the first [3 * npixels] output bytes,
    with [output[3i+k] = palette[3 * input[i] + k]] for every pixel [i] and
    channel [k]; the rest of the buffer is untouched, the length is kept
    (so a buffer of [3 * npixels] bytes is the whole output, for
    [npixels = 0] and for lengths that are no multiple of eight too), and
    the NEON build and the scalar build produce the same bytes. *)
Theorem palette_to_rgb24_correct :
  forall (t : target) (c : palette_cache)
         (indexed rgb24 palette : list byte) (npixels : nat),
    length palette = 768 ->
    cache_sized c ->
    (palette_initialized c = true -> cache_of palette c) ->
    npixels <= length indexed ->
    3 * npixels <= length rgb24 ->
    let out := (palette_to_rgb24 t c indexed rgb24 palette npixels).2 in
    length out = length rgb24 /\
    length (take (3 * npixels) out) = 3 * npixels /\
    (forall i k b, i < npixels -> k < 3 -> indexed !! i = Some b ->
       out !! (3 * i + k) = palette !! (3 * idx_of b + k)) /\
    (forall j, 3 * npixels <= j -> out !! j = rgb24 !! j) /\
    (palette_to_rgb24 NEON c indexed rgb24 palette npixels).2 =
    (palette_to_rgb24 Scalar c indexed rgb24 palette npixels).2.
Proof.
  intros t c indexed rgb24 palette npixels Hpal Hs Hc Hin Hout out.
  assert (Hco : cache_of palette
                  (palette_to_rgb24 t c indexed rgb24 palette npixels).1)
    by (apply cache_after_init; assumption).
  assert (Hout_eq : out = palette_to_rgb24_scalar
            (palette_to_rgb24 t c indexed rgb24 palette npixels).1
            indexed rgb24 npixels).
  { subst out. destruct t; cbn [palette_to_rgb24 fst snd].
    - apply neon_impl_scalar.
    - reflexivity. }
  set (c' := (palette_to_rgb24 t c indexed rgb24 palette npixels).1) in *.
  assert (Hlen : length out = length rgb24).
  { rewrite Hout_eq. apply pixel_loop_length. }
  repeat split.
  - exact Hlen.
  - rewrite length_take. lia.
  - intros i k b Hi Hk Hb.
    rewrite Hout_eq. unfold palette_to_rgb24_scalar.
    destruct (pixel_loop_here c' indexed 0 npixels rgb24 i) as (R & G & B);
      [lia | lia |].
    rewrite (list_lookup_total_correct _ _ _ Hb) in R, G, B.
    destruct (Hco (idx_of b) (idx_of_bound b)) as (Pr & Pg & Pb).
    rewrite (list_lookup_total_correct _ _ _ Pr) in R.
    rewrite (list_lookup_total_correct _ _ _ Pg) in G.
    rewrite (list_lookup_total_correct _ _ _ Pb) in B.
    pose proof (idx_of_bound b) as Hb256.
    assert (Hk3 : k = 0 \/ k = 1 \/ k = 2) by lia.
    destruct Hk3 as [-> | [-> | ->]].
    + replace (3 * i + 0) with (i * 3 + 0) by lia. rewrite R.
      replace (3 * idx_of b + 0) with (idx_of b * 3 + 0) by lia.
      symmetry. apply list_lookup_lookup_total_lt. lia.
    + replace (3 * i + 1) with (i * 3 + 1) by lia. rewrite G.
      replace (3 * idx_of b + 1) with (idx_of b * 3 + 1) by lia.
      symmetry. apply list_lookup_lookup_total_lt. lia.
    + replace (3 * i + 2) with (i * 3 + 2) by lia. rewrite B.
      replace (3 * idx_of b + 2) with (idx_of b * 3 + 2) by lia.
      symmetry. apply list_lookup_lookup_total_lt. lia.
  - intros j Hj. rewrite Hout_eq. unfold palette_to_rgb24_scalar.
    apply pixel_loop_other. lia.
  - cbn [palette_to_rgb24 snd].
    destruct (palette_initialized c); apply neon_impl_scalar.
Qed.

(** A palette and a ten-pixel frame (ten is no multiple of eight). *)
Definition sample_palette : list byte :=
  map (fun i => default x00 (Byte.of_N (N.of_nat ((i * 7 + 3) mod 256))))
      (seq 0 768).

Definition sample_indexed : list byte :=
  [x00; x01; xff; x80; x07; x2a; x10; xfe; x03; x99].

Lemma palette_to_rgb24_correct_witness :
  let out := (palette_to_rgb24 NEON cache_static sample_indexed
                (replicate 30 x00) sample_palette 10).2 in
  length out = 30 /\
  length (take (3 * 10) out) = 3 * 10 /\
  (forall i k b, i < 10 -> k < 3 -> sample_indexed !! i = Some b ->
     out !! (3 * i + k) = sample_palette !! (3 * idx_of b + k)) /\
  (forall j, 3 * 10 <= j -> out !! j = replicate 30 x00 !! j) /\
  (palette_to_rgb24 NEON cache_static sample_indexed
     (replicate 30 x00) sample_palette 10).2 =
  (palette_to_rgb24 Scalar cache_static sample_indexed
     (replicate 30 x00) sample_palette 10).2.
Proof.
  apply (palette_to_rgb24_correct NEON cache_static sample_indexed
           (replicate 30 x00) sample_palette 10).
  - reflexivity.
  - repeat split.
  - discriminate.
  - simpl. lia.
  - simpl. lia.
Defined.

(** ** The palette is read once *)

(** What the per-pixel loop writes when the cache holds the split of
    [palette]. *)
Lemma converted_with_cache palette c indexed rgb24 npixels i k b :
  length palette = 768 -> cache_of palette c ->
  3 * npixels <= length rgb24 ->
  i < npixels -> k < 3 -> indexed !! i = Some b ->
  palette_to_rgb24_scalar c indexed rgb24 npixels !! (3 * i + k) =
  palette !! (3 * idx_of b + k).
Proof.
  intros Hpal Hco Hout Hi Hk Hb. unfold palette_to_rgb24_scalar.
  destruct (pixel_loop_here c indexed 0 npixels rgb24 i) as (R & G & B);
    [lia | lia |].
  rewrite (list_lookup_total_correct _ _ _ Hb) in R, G, B.
  pose proof (idx_of_bound b) as Hb256.
  destruct (Hco (idx_of b) Hb256) as (Pr & Pg & Pb).
  rewrite (list_lookup_total_correct _ _ _ Pr) in R.
  rewrite (list_lookup_total_correct _ _ _ Pg) in G.
  rewrite (list_lookup_total_correct _ _ _ Pb) in B.
  assert (Hk3 : k = 0 \/ k = 1 \/ k = 2) by lia.
  destruct Hk3 as [-> | [-> | ->]].
  - replace (3 * i + 0) with (i * 3 + 0) by lia. rewrite R.
    replace (3 * idx_of b + 0) with (idx_of b * 3 + 0) by lia.
    symmetry. apply list_lookup_lookup_total_lt. lia.
  - replace (3 * i + 1) with (i * 3 + 1) by lia. rewrite G.
    replace (3 * idx_of b + 1) with (idx_of b * 3 + 1) by lia.
    symmetry. apply list_lookup_lookup_total_lt. lia.
  - replace (3 * i + 2) with (i * 3 + 2) by lia. rewrite B.
    replace (3 * idx_of b + 2) with (idx_of b * 3 + 2) by lia.
    symmetry. apply list_lookup_lookup_total_lt. lia.
Qed.

(** Both builds run the per-pixel loop on the cache the call leaves. *)
Lemma palette_to_rgb24_scalar_loop t c indexed rgb24 palette npixels :
  (palette_to_rgb24 t c indexed rgb24 palette npixels).2 =
  palette_to_rgb24_scalar
    (palette_to_rgb24 t c indexed rgb24 palette npixels).1
    indexed rgb24 npixels.
Proof.
  destruct t; cbn [palette_to_rgb24 fst snd];
    [apply neon_impl_scalar | reflexivity].
Qed.

Lemma cache_static_sized : cache_sized cache_static.
Proof. repeat split. Qed.

Lemma palette_to_rgb24_flag t c indexed rgb24 palette npixels :
  palette_initialized
    (palette_to_rgb24 t c indexed rgb24 palette npixels).1 = true.
Proof.
  destruct t; cbn [palette_to_rgb24 fst];
    destruct (palette_initialized c) eqn:E; auto.
Qed.

Lemma palette_to_rgb24_keeps_cache t c indexed rgb24 palette npixels :
  palette_initialized c = true ->
  (palette_to_rgb24 t c indexed rgb24 palette npixels).1 = c.
Proof.
  intros E. destruct t; cbn [palette_to_rgb24 fst]; rewrite E; reflexivity.
Qed.

(** X1. The palette argument is read by the first call only. After a
    first call with the palette [first], a later call with another
    palette changes nothing in the cache and converts its pixels with the
    colours of [first]: output byte [3i+k] is [first[3 * input[i] + k]],
    whatever palette the later call is given. *)
Theorem palette_change_is_ignored (t : target)
    (indexed1 rgb1 first : list byte) (npixels1 : nat)
    (indexed rgb24 later : list byte) (npixels : nat) :
  length first = 768 ->
  npixels1 <= length indexed1 -> 3 * npixels1 <= length rgb1 ->
  npixels <= length indexed -> 3 * npixels <= length rgb24 ->
  let c1 := (palette_to_rgb24 t cache_static indexed1 rgb1 first
               npixels1).1 in
  let r := palette_to_rgb24 t c1 indexed rgb24 later npixels in
  r.1 = c1 /\
  (forall i k b, i < npixels -> k < 3 -> indexed !! i = Some b ->
     r.2 !! (3 * i + k) = first !! (3 * idx_of b + k)) /\
  r.2 = (palette_to_rgb24 t c1 indexed rgb24 first npixels).2.
Proof.
  intros Hpal _ _ _ Hout c1 r.
  assert (Hf : palette_initialized c1 = true)
    by apply palette_to_rgb24_flag.
  assert (Hco : cache_of first c1).
  { apply cache_after_init; [apply cache_static_sized | discriminate]. }
  assert (Hk : r.1 = c1) by (apply palette_to_rgb24_keeps_cache, Hf).
  split; [exact Hk|]. split.
  - intros i k b Hi Hk3 Hb. subst r.
    rewrite palette_to_rgb24_scalar_loop, Hk.
    apply converted_with_cache; assumption.
  - subst r. rewrite !palette_to_rgb24_scalar_loop.
    rewrite !palette_to_rgb24_keeps_cache by exact Hf. reflexivity.
Qed.

(** A second palette, the first one reversed. *)
Lemma palette_change_is_ignored_witness :
  let c1 := (palette_to_rgb24 Scalar cache_static sample_indexed
               (replicate 30 x00) sample_palette 10).1 in
  let r := palette_to_rgb24 Scalar c1 sample_indexed (replicate 30 x00)
             (rev sample_palette) 10 in
  r.1 = c1 /\
  (forall i k b, i < 10 -> k < 3 -> sample_indexed !! i = Some b ->
     r.2 !! (3 * i + k) = sample_palette !! (3 * idx_of b + k)) /\
  r.2 = (palette_to_rgb24 Scalar c1 sample_indexed (replicate 30 x00)
           sample_palette 10).2.
Proof.
  apply (palette_change_is_ignored Scalar sample_indexed (replicate 30 x00)
           sample_palette 10 sample_indexed (replicate 30 x00)
           (rev sample_palette) 10).
  - reflexivity.
  - simpl. lia.
  - simpl. lia.
  - simpl. lia.
  - simpl. lia.
Defined.

(** ** The reference loop of the benchmark (tests/bench-palette.c) *)

(** [palette_to_rgb24_scalar_ref]: the conversion straight from the
    packed palette, with no cache. *)
Definition palette_to_rgb24_scalar_ref (indexed rgb24 palette : list byte)
    (npixels : nat) : list byte :=
  for_range 0 npixels (fun i rgb24 =>
    let idx := idx_of (indexed !!! i) in
    <[i * 3 + 2 := palette !!! (idx * 3 + 2)]>
      (<[i * 3 + 1 := palette !!! (idx * 3 + 1)]>
        (<[i * 3 + 0 := palette !!! (idx * 3 + 0)]> rgb24))) rgb24.

Lemma scalar_ref_loop palette c indexed a n buf :
  cache_of palette c ->
  for_range a n (fun i rgb24 =>
    let idx := idx_of (indexed !!! i) in
    <[i * 3 + 2 := palette !!! (idx * 3 + 2)]>
      (<[i * 3 + 1 := palette !!! (idx * 3 + 1)]>
        (<[i * 3 + 0 := palette !!! (idx * 3 + 0)]> rgb24))) buf =
  for_range a n (store_pixel c indexed) buf.
Proof.
  intros Hco. apply for_range_ext. intros i t _. unfold store_pixel.
  cbv zeta.
  destruct (Hco (idx_of (indexed !!! i)) (idx_of_bound _)) as (R & G & B).
  rewrite (list_lookup_total_correct _ _ _ R).
  rewrite (list_lookup_total_correct _ _ _ G).
  rewrite (list_lookup_total_correct _ _ _ B). reflexivity.
Qed.

(** X2. The check the benchmark makes before it measures never fails on a
    first call: for every 768-byte palette, every index buffer and every
    pixel count, in both builds, [palette_to_rgb24] starting from the
    zeroed static cache and the reference loop
    [palette_to_rgb24_scalar_ref], writing to two buffers of their own,
    leave the same first [3 * npixels] bytes, the ones [memcmp]
    compares. *)
Theorem palette_to_rgb24_matches_reference (t : target)
    (indexed palette rgb24_simd rgb24_ref : list byte) (npixels : nat) :
  length palette = 768 -> npixels <= length indexed ->
  3 * npixels <= length rgb24_simd -> 3 * npixels <= length rgb24_ref ->
  take (3 * npixels)
    (palette_to_rgb24 t cache_static indexed rgb24_simd palette npixels).2 =
  take (3 * npixels)
    (palette_to_rgb24_scalar_ref indexed rgb24_ref palette npixels).
Proof.
  intros _ _ H1 H2.
  set (c := (palette_to_rgb24 t cache_static indexed rgb24_simd palette
               npixels).1).
  assert (Hc : cache_of palette c).
  { apply cache_after_init; [apply cache_static_sized | discriminate]. }
  rewrite palette_to_rgb24_scalar_loop. fold c.
  unfold palette_to_rgb24_scalar_ref, palette_to_rgb24_scalar.
  rewrite (scalar_ref_loop palette c indexed 0 npixels _ Hc).
  apply list_eq. intros j.
  destruct (decide (j < 3 * npixels)) as [Hj|Hj].
  - rewrite !lookup_take_lt by exact Hj.
    assert (Hi : j = (j / 3) * 3 + j mod 3).
    { pose proof (Nat.div_mod_eq j 3). lia. }
    pose proof (Nat.mod_upper_bound j 3 ltac:(lia)) as Hm.
    assert (Hq : j / 3 < npixels).
    { apply Nat.Div0.div_lt_upper_bound. lia. }
    destruct (pixel_loop_here c indexed 0 npixels rgb24_simd (j / 3))
      as (R1 & G1 & B1); [lia | lia |].
    destruct (pixel_loop_here c indexed 0 npixels rgb24_ref (j / 3))
      as (R2 & G2 & B2); [lia | lia |].
    rewrite Hi.
    assert (Hk3 : j mod 3 = 0 \/ j mod 3 = 1 \/ j mod 3 = 2) by lia.
    destruct Hk3 as [-> | [-> | ->]]; congruence.
  - rewrite !lookup_take_ge by lia. reflexivity.
Qed.

(** The benchmark's buffers in small: a zeroed and a non-zeroed output
    buffer. *)
Lemma palette_to_rgb24_matches_reference_witness :
  take (3 * 10)
    (palette_to_rgb24 NEON cache_static sample_indexed (replicate 30 x00)
       sample_palette 10).2 =
  take (3 * 10)
    (palette_to_rgb24_scalar_ref sample_indexed (replicate 32 xff)
       sample_palette 10).
Proof.
  apply (palette_to_rgb24_matches_reference NEON sample_indexed
           sample_palette (replicate 30 x00) (replicate 32 xff) 10).
  - reflexivity.
  - simpl. lia.
  - simpl. lia.
  - simpl. lia.
Defined.

End Palette.

(* ================================================================== *)
(** * Base64 (base64.h, not among the sources)                         *)
(* ================================================================== *)

Module Base64.

Definition alphabet : list byte :=
  list_byte_of_string
    "ABCDEFGHIJKLMNOPQRSTUVWXYZabcdefghijklmnopqrstuvwxyz0123456789+/".

Definition sextet (n : N) : byte := alphabet !!! N.to_nat (n mod 64)%N.

Definition pad : byte := "="%byte.

(** One full group of three bytes, and the padded last group of two or
    of one. *)
Definition group3 (a b c : byte) : list byte :=
  let n := (Byte.to_N a * 65536 + Byte.to_N b * 256 + Byte.to_N c)%N in
  [sextet (n / 262144); sextet (n / 4096); sextet (n / 64); sextet n].

Definition group2 (a b : byte) : list byte :=
  let n := (Byte.to_N a * 65536 + Byte.to_N b * 256)%N in
  [sextet (n / 262144); sextet (n / 4096); sextet (n / 64); pad].

Definition group1 (a : byte) : list byte :=
  let n := (Byte.to_N a * 65536)%N in
  [sextet (n / 262144); sextet (n / 4096); pad; pad].

(** Modelled from the spec: [base64_encode_auto] of base64.h, which the
    renderer calls and whose definition is missing. The spec says the
    pixel payload is base64-encoded; this is the standard encoding of
    RFC 4648, with padding. *)
Fixpoint base64_encode (src : list byte) : list byte :=
  match src with
  | [] => []
  | [a] => group1 a
  | [a; b] => group2 a b
  | a :: b :: c :: rest => group3 a b c ++ base64_encode rest
  end.

Example base64_encode_Man :
  base64_encode (list_byte_of_string "Man") = list_byte_of_string "TWFu".
Proof. reflexivity. Qed.

Example base64_encode_light_w :
  base64_encode (list_byte_of_string "light w") =
  list_byte_of_string "bGlnaHQgdw==".
Proof. reflexivity. Qed.

Lemma base64_encode_length_3 k : forall src,
  length src = 3 * k -> length (base64_encode src) = 4 * k.
Proof.
  induction k as [|k IH]; intros src H.
  - destruct src; [reflexivity | discriminate].
  - destruct src as [|a [|b [|c rest]]]; cbn in H; try lia.
    cbn [base64_encode]. rewrite length_app, (IH rest) by lia.
    cbn [group3 length]. lia.
Qed.

End Base64.

(* ================================================================== *)
(** * Protocol encoder (src/render.c)                                  *)
(* ================================================================== *)

Module Render.

Definition WIDTH : nat := 320.
Definition HEIGHT : nat := 200.

Definition ESC : byte := x1b.
Definition bytes (s : string) : list byte := list_byte_of_string s.

(** The conversions [%d] and [%ld] of printf. *)
Definition fmt_d (z : Z) : list byte :=
  bytes (DecimalString.NilZero.string_of_int (Z.to_int z)).


(** [struct renderer]. [protocol_buffer] is the pointed-to block, and
    [encoded_buffer] the flexible array member at the end of the struct. *)
Record renderer := {
  screen_rows : Z;
  screen_cols : Z;
  kitty_id : Z;
  frame_number : Z;
  encoded_buffer_size : nat;
  protocol_buffer : list byte;
  protocol_buffer_size : nat;
  encoded_buffer : list byte
}.

(** [renderer_create], on the path where both allocations succeed. The
    value of [rand()] comes from the environment, and so does the string
    [base64_get_impl_name ()] returns (base64.h is not among the sources
    at hand); fresh memory is shown zeroed. Returns the renderer, the
    bytes printed to stdout and the line printed to stderr. *)
Definition renderer_create (screen_rows screen_cols : Z) (rand : Z)
    (impl_name : list byte) : renderer * (list byte * list byte) :=
  let bitmap_size := WIDTH * HEIGHT * 3 in
  let encoded_buffer_size := 4 * ((bitmap_size + 2) / 3) + 1 in
  let protocol_buffer_size := 280 * 1024 in
  ({| screen_rows := screen_rows;
      screen_cols := screen_cols;
      kitty_id := rand;
      frame_number := 0;
      encoded_buffer_size := encoded_buffer_size;
      protocol_buffer := replicate protocol_buffer_size x00;
      protocol_buffer_size := protocol_buffer_size;
      encoded_buffer := replicate encoded_buffer_size x00 |},
   ([ESC] ++ bytes "]21;Kitty DOOM" ++ [ESC] ++ bytes "\" ++
    [ESC] ++ bytes "[2J" ++ [ESC] ++ bytes "[H",
    bytes "Base64 implementation: " ++ impl_name ++ [x0a])).

(** The messages printed to stderr when a frame is abandoned. *)
Inductive render_error :=
| ErrSnprintf (frame : Z) (offset : nat)
| ErrHeaderOverflow (need : Z) (avail : nat)
| ErrPayloadOverflow (need size : nat)
| ErrTrailerOverflow
| ErrAnimSnprintf
| ErrAnimOverflow (need : Z) (avail : nat)
| ErrNewlineOverflow.

(** A write of [data] at [off]; [None] when it would leave the block. *)
Definition store (buf : list byte) (off : nat) (data : list byte)
  : option (list byte) :=
  if decide (off + length data <= length buf)
  then Some (take off buf ++ data ++ drop (off + length data) buf)
  else None.

(** A read of [n] bytes at [off]; [None] when it would leave the block. *)
Definition load (buf : list byte) (off n : nat) : option (list byte) :=
  if decide (off + n <= length buf) then Some (take n (drop off buf))
  else None.

(** [snprintf (buf + off, rem, ...)] for a format whose expansion is [s]:
    at most [rem - 1] bytes of [s] and a terminating NUL are written,
    nothing at all when [rem] is 0; the result is the full length of [s]. *)
Definition snprintf (buf : list byte) (off rem : nat) (s : list byte)
  : option (list byte) * Z :=
  (match rem with
   | 0 => Some buf
   | S m => store buf off (take m s ++ [x00])
   end, Z.of_nat (length s)).

Definition flag (more_chunks : bool) : Z := if more_chunks then 1 else 0.

(** The four header formats of the chunk loop and the animate command. *)
Definition header_create (r : renderer) (more_chunks : bool) : list byte :=
  [ESC] ++ bytes "_Ga=T,i=" ++ fmt_d (kitty_id r) ++
  bytes ",f=24,s=" ++ fmt_d (Z.of_nat WIDTH) ++
  bytes ",v=" ++ fmt_d (Z.of_nat HEIGHT) ++
  bytes ",q=2,c=" ++ fmt_d (screen_cols r) ++
  bytes ",r=" ++ fmt_d (screen_rows r) ++
  bytes ",m=" ++ fmt_d (flag more_chunks) ++ bytes ";".

Definition header_update (r : renderer) (more_chunks : bool) : list byte :=
  [ESC] ++ bytes "_Ga=f,r=1,i=" ++ fmt_d (kitty_id r) ++
  bytes ",f=24,x=0,y=0,s=" ++ fmt_d (Z.of_nat WIDTH) ++
  bytes ",v=" ++ fmt_d (Z.of_nat HEIGHT) ++
  bytes ",m=" ++ fmt_d (flag more_chunks) ++ bytes ";".

Definition header_cont_create (more_chunks : bool) : list byte :=
  [ESC] ++ bytes "_Gm=" ++ fmt_d (flag more_chunks) ++ bytes ";".

Definition header_cont_update (more_chunks : bool) : list byte :=
  [ESC] ++ bytes "_Ga=f,r=1,m=" ++ fmt_d (flag more_chunks) ++ bytes ";".

Definition animate_command (r : renderer) : list byte :=
  [ESC] ++ bytes "_Ga=a,c=1,i=" ++ fmt_d (kitty_id r) ++ bytes ";" ++
  [ESC] ++ bytes "\".

Definition trailer : list byte := [ESC] ++ bytes "\".
Definition newline : list byte := [x0d; x0a].
Definition cursor_home : list byte := [ESC] ++ bytes "[H".

Definition chunk_size : nat := 4096.

(** The header the loop formats for the chunk at [encoded_offset]. *)
Definition header_at (r : renderer) (encoded_offset : nat)
    (more_chunks : bool) : list byte :=
  if encoded_offset =? 0 then
    if (frame_number r =? 0)%Z then header_create r more_chunks
    else header_update r more_chunks
  else
    if (frame_number r =? 0)%Z then header_cont_create more_chunks
    else header_cont_update more_chunks.

(** How a stretch of the function ends: it goes on with the buffer and
    its fill level, or abandons the frame with a message, or touches
    memory outside a block ([Fault]), or the loop model runs dry. *)
Inductive progress :=
| Next (buf : list byte) (buf_offset : nat)
| Drop (e : render_error) (buf : list byte)
| Fault
| OutOfFuel.

(** One pass through the body of the chunk loop. On [Next], the new
    [encoded_offset] is the old one plus [this_size]. *)
Definition chunk_body (r : renderer) (encoded_size : nat)
    (buf : list byte) (encoded_offset buf_offset : nat) : progress :=
  let more_chunks := encoded_offset + chunk_size <? encoded_size in
  let this_size :=
    if more_chunks then chunk_size else encoded_size - encoded_offset in
  let rem := protocol_buffer_size r - buf_offset in
  let '(written, header_len) :=
    snprintf buf buf_offset rem (header_at r encoded_offset more_chunks) in
  match written with
  | None => Fault
  | Some buf =>
    if (header_len <? 0)%Z then
      Drop (ErrSnprintf (frame_number r) encoded_offset) buf
    else if (Z.of_nat rem <=? header_len)%Z then
      Drop (ErrHeaderOverflow header_len rem) buf
    else
      let buf_offset := buf_offset + Z.to_nat header_len in
      if protocol_buffer_size r <? buf_offset + this_size then
        Drop (ErrPayloadOverflow (buf_offset + this_size)
                (protocol_buffer_size r)) buf
      else
        match load (encoded_buffer r) encoded_offset this_size with
        | None => Fault
        | Some payload =>
          match store buf buf_offset payload with
          | None => Fault
          | Some buf =>
            let buf_offset := buf_offset + this_size in
            if protocol_buffer_size r <? buf_offset + 2 then
              Drop ErrTrailerOverflow buf
            else
              match store buf buf_offset trailer with
              | None => Fault
              | Some buf => Next buf (buf_offset + 2)
              end
          end
        end
  end.

Definition this_size_at (encoded_size encoded_offset : nat) : nat :=
  if encoded_offset + chunk_size <? encoded_size then chunk_size
  else encoded_size - encoded_offset.

(** [for (encoded_offset = 0; encoded_offset < encoded_size;) { ... }] *)
Fixpoint chunk_loop (fuel : nat) (r : renderer) (encoded_size : nat)
    (buf : list byte) (encoded_offset buf_offset : nat) : progress :=
  match fuel with
  | 0 => OutOfFuel
  | S fuel =>
    if encoded_offset <? encoded_size then
      match chunk_body r encoded_size buf encoded_offset buf_offset with
      | Next buf buf_offset =>
          chunk_loop fuel r encoded_size buf
            (encoded_offset + this_size_at encoded_size encoded_offset)
            buf_offset
      | stop => stop
      end
    else Next buf buf_offset
  end.

(** The animate command appended to every frame after the first. *)
Definition append_animate (r : renderer) (buf : list byte)
    (buf_offset : nat) : progress :=
  if (0 <? frame_number r)%Z then
    let rem := protocol_buffer_size r - buf_offset in
    let '(written, anim_len) := snprintf buf buf_offset rem (animate_command r) in
    match written with
    | None => Fault
    | Some buf =>
      if (anim_len <? 0)%Z then Drop ErrAnimSnprintf buf
      else if (Z.of_nat rem <=? anim_len)%Z then
        Drop (ErrAnimOverflow anim_len rem) buf
      else Next buf (buf_offset + Z.to_nat anim_len)
    end
  else Next buf buf_offset.

(** The newline appended to the first frame. *)
Definition append_newline (r : renderer) (buf : list byte)
    (buf_offset : nat) : progress :=
  if (frame_number r =? 0)%Z then
    if protocol_buffer_size r <? buf_offset + 2 then
      Drop ErrNewlineOverflow buf
    else
      match store buf buf_offset newline with
      | None => Fault
      | Some buf => Next buf (buf_offset + 2)
      end
  else Next buf buf_offset.

Definition and_then (p : progress) (k : list byte -> nat -> progress)
  : progress :=
  match p with
  | Next buf off => k buf off
  | stop => stop
  end.

(** What one call leaves behind: the renderer, the bytes it wrote to
    stdout, and the messages it wrote to stderr. *)
Inductive outcome :=
| Returned (r : renderer) (out : list byte) (errs : list render_error)
| Crashed
| Unfinished.

(** [r] with new contents of its two buffers and a new frame counter;
    nothing else in the struct is ever assigned. *)
Definition update (r : renderer) (eb buf : list byte) (n : Z) : renderer :=
  {| screen_rows := screen_rows r;
     screen_cols := screen_cols r;
     kitty_id := kitty_id r;
     frame_number := n;
     encoded_buffer_size := encoded_buffer_size r;
     protocol_buffer := buf;
     protocol_buffer_size := protocol_buffer_size r;
     encoded_buffer := eb |}.

(** The bytes printed ahead of the encoding, on the first frame only. *)
Definition home (r : renderer) : list byte :=
  if (frame_number r =? 0)%Z then cursor_home else [].

(** ** Stores and loads inside a block *)

Lemma store_Some buf off data :
  off + length data <= length buf ->
  store buf off data =
  Some (take off buf ++ data ++ drop (off + length data) buf).
Proof. intros H. unfold store. rewrite decide_True by exact H. reflexivity. Qed.

Lemma store_None buf off data :
  length buf < off + length data -> store buf off data = None.
Proof. intros H. unfold store. rewrite decide_False by lia. reflexivity. Qed.

Lemma store_inv buf off data buf' :
  store buf off data = Some buf' ->
  off + length data <= length buf /\
  buf' = take off buf ++ data ++ drop (off + length data) buf.
Proof.
  unfold store. destruct (decide _) as [H|H]; [|discriminate].
  intros [= <-]. auto.
Qed.

Lemma store_length buf off data buf' :
  store buf off data = Some buf' -> length buf' = length buf.
Proof.
  intros H. apply store_inv in H as [Hle ->].
  rewrite !length_app, length_take, length_drop. lia.
Qed.

Lemma store_take buf off data buf' k :
  store buf off data = Some buf' -> k <= length data ->
  take (off + k) buf' = take off buf ++ take k data.
Proof.
  intros H Hk. apply store_inv in H as [Hle ->].
  rewrite take_app_add' by (rewrite length_take; lia).
  rewrite take_app_le by exact Hk. reflexivity.
Qed.

Lemma store_take_before buf off data buf' k :
  store buf off data = Some buf' -> k <= off ->
  take k buf' = take k buf.
Proof.
  intros H Hk. apply store_inv in H as [Hle ->].
  rewrite take_app_le by (rewrite length_take; lia).
  rewrite take_take. f_equal. lia.
Qed.

Lemma load_Some buf off n :
  off + n <= length buf -> load buf off n = Some (take n (drop off buf)).
Proof. intros H. unfold load. rewrite decide_True by exact H. reflexivity. Qed.

(** ** [snprintf] stays inside the [rem] bytes it is given *)

Lemma snprintf_fits buf off rem s :
  off + rem <= length buf -> length s < rem ->
  exists buf', (snprintf buf off rem s).1 = Some buf' /\
    length buf' = length buf /\
    take (off + length s) buf' = take off buf ++ s.
Proof.
  intros Hrem Hs. unfold snprintf. destruct rem as [|m]; [lia|]. cbn [fst].
  rewrite (take_ge s m) by lia.
  assert (Hlen : length (s ++ [x00]) = length s + 1).
  { rewrite length_app. cbn. lia. }
  destruct (store buf off (s ++ [x00])) as [buf'|] eqn:E.
  - exists buf'. split; [reflexivity|]. split.
    + eapply store_length; eauto.
    + rewrite (store_take _ _ _ _ (length s) E) by lia.
      rewrite take_app_length. reflexivity.
  - rewrite store_Some in E by lia. discriminate.
Qed.

Lemma snprintf_truncates buf off rem s :
  off + rem <= length buf ->
  exists buf', (snprintf buf off rem s).1 = Some buf' /\
    length buf' = length buf /\ take off buf' = take off buf.
Proof.
  intros Hrem. unfold snprintf. destruct rem as [|m]; cbn [fst].
  - eauto.
  - assert (Hlen : length (take m s ++ [x00]) <= S m).
    { rewrite length_app, length_take. cbn. lia. }
    destruct (store buf off (take m s ++ [x00])) as [buf'|] eqn:E.
    + exists buf'. split; [reflexivity|]. split.
      * eapply store_length; eauto.
      * eapply store_take_before; eauto.
    + rewrite store_Some in E by lia. discriminate.
Qed.

Lemma snprintf_result buf off rem s :
  (snprintf buf off rem s).2 = Z.of_nat (length s).
Proof. reflexivity. Qed.

(** ** One chunk on the wire *)

(** The bytes of the chunk that starts at [encoded_offset]: header,
    payload, trailer. *)
Definition chunk_frame (r : renderer) (encoded_size encoded_offset : nat)
  : list byte :=
  header_at r encoded_offset (encoded_offset + chunk_size <? encoded_size) ++
  take (this_size_at encoded_size encoded_offset)
       (drop encoded_offset (encoded_buffer r)) ++
  trailer.

Lemma chunk_frame_length r n eo :
  eo + this_size_at n eo <= length (encoded_buffer r) ->
  length (chunk_frame r n eo) =
  length (header_at r eo (eo + chunk_size <? n)) + this_size_at n eo + 2.
Proof.
  intros H. unfold chunk_frame.
  rewrite !length_app, length_take, length_drop. cbn. lia.
Qed.

Lemma chunk_body_fits r n buf eo off :
  length buf = protocol_buffer_size r ->
  eo + this_size_at n eo <= length (encoded_buffer r) ->
  off + length (chunk_frame r n eo) <= protocol_buffer_size r ->
  exists buf',
    chunk_body r n buf eo off =
      Next buf' (off + length (chunk_frame r n eo)) /\
    length buf' = length buf /\
    take (off + length (chunk_frame r n eo)) buf' =
      take off buf ++ chunk_frame r n eo.
Proof.
  intros Hbuf Henc Hfit.
  rewrite chunk_frame_length in * by exact Henc.
  unfold chunk_body, chunk_frame. fold (this_size_at n eo).
  set (h := header_at r eo (eo + chunk_size <? n)) in *.
  set (ts := this_size_at n eo) in *.
  destruct (snprintf_fits buf off (protocol_buffer_size r - off) h)
    as (b1 & E1 & L1 & T1); [lia | lia |].
  destruct (snprintf buf off (protocol_buffer_size r - off) h)
    as [w hl] eqn:E. cbn [fst] in E1. subst w.
  pose proof (snprintf_result buf off (protocol_buffer_size r - off) h) as Hhl.
  rewrite E in Hhl. cbn [snd] in Hhl. subst hl. clear E.
  destruct (Z.ltb_spec (Z.of_nat (length h)) 0); [lia|].
  destruct (Z.leb_spec (Z.of_nat (protocol_buffer_size r - off))
              (Z.of_nat (length h))); [lia|].
  rewrite Nat2Z.id.
  destruct (Nat.ltb_spec (protocol_buffer_size r) (off + length h + ts));
    [lia|].
  rewrite load_Some by exact Henc.
  set (payload := take ts (drop eo (encoded_buffer r))).
  assert (Lp : length payload = ts).
  { unfold payload. rewrite length_take, length_drop. lia. }
  destruct (store b1 (off + length h) payload) as [b2|] eqn:E2;
    [| rewrite store_Some in E2 by lia; discriminate].
  pose proof (store_length _ _ _ _ E2) as L2.
  pose proof (store_take _ _ _ _ (length payload) E2 (le_n _)) as T2.
  rewrite (take_ge payload) in T2 by lia. rewrite T1, Lp in T2.
  destruct (Nat.ltb_spec (protocol_buffer_size r) (off + length h + ts + 2));
    [lia|].
  destruct (store b2 (off + length h + ts) trailer) as [b3|] eqn:E3;
    [| rewrite store_Some in E3 by (cbn; lia); discriminate].
  pose proof (store_length _ _ _ _ E3) as L3.
  pose proof (store_take _ _ _ _ 2 E3 (le_n _)) as T3.
  rewrite T2 in T3. change (take 2 trailer) with trailer in T3.
  exists b3. split; [|split].
  - f_equal. lia.
  - lia.
  - replace (off + (length h + ts + 2)) with (off + length h + ts + 2) by lia.
    rewrite T3, <- !app_assoc. reflexivity.
Qed.

Lemma chunk_body_drops r n buf eo off :
  length buf = protocol_buffer_size r ->
  off <= protocol_buffer_size r ->
  eo + this_size_at n eo <= length (encoded_buffer r) ->
  protocol_buffer_size r < off + length (chunk_frame r n eo) ->
  exists e buf',
    chunk_body r n buf eo off = Drop e buf' /\ length buf' = length buf.
Proof.
  intros Hbuf Hoff Henc Hbig.
  rewrite chunk_frame_length in * by exact Henc.
  unfold chunk_body. fold (this_size_at n eo).
  set (h := header_at r eo (eo + chunk_size <? n)) in *.
  set (ts := this_size_at n eo) in *.
  destruct (snprintf_truncates buf off (protocol_buffer_size r - off) h)
    as (b1 & E1 & L1 & T1); [lia|].
  destruct (snprintf buf off (protocol_buffer_size r - off) h)
    as [w hl] eqn:E. cbn [fst] in E1. subst w.
  pose proof (snprintf_result buf off (protocol_buffer_size r - off) h) as Hhl.
  rewrite E in Hhl. cbn [snd] in Hhl. subst hl. clear E.
  destruct (Z.ltb_spec (Z.of_nat (length h)) 0); [lia|].
  destruct (Z.leb_spec (Z.of_nat (protocol_buffer_size r - off))
              (Z.of_nat (length h))); [eauto|].
  rewrite Nat2Z.id.
  destruct (Nat.ltb_spec (protocol_buffer_size r) (off + length h + ts));
    [eauto|].
  rewrite load_Some by exact Henc.
  set (payload := take ts (drop eo (encoded_buffer r))).
  assert (Lp : length payload = ts).
  { unfold payload. rewrite length_take, length_drop. lia. }
  destruct (store b1 (off + length h) payload) as [b2|] eqn:E2;
    [| rewrite store_Some in E2 by lia; discriminate].
  pose proof (store_length _ _ _ _ E2) as L2.
  destruct (Nat.ltb_spec (protocol_buffer_size r) (off + length h + ts + 2));
    [|lia].
  exists ErrTrailerOverflow, b2. split; [reflexivity | lia].
Qed.

(** ** The chunk loop *)

(** The number of passes of the loop over [encoded_size] bytes. *)
Definition nchunks (encoded_size : nat) : nat :=
  (encoded_size + (chunk_size - 1)) / chunk_size.

Lemma nchunks_lt n i : i < nchunks n <-> i * chunk_size < n.
Proof.
  unfold nchunks, chunk_size.
  pose proof (Nat.div_mod_eq (n + (4096 - 1)) 4096) as E.
  pose proof (Nat.mod_upper_bound (n + (4096 - 1)) 4096 ltac:(lia)) as U.
  split; intros H; nia.
Qed.

Lemma this_size_more n eo :
  eo + chunk_size < n -> this_size_at n eo = chunk_size.
Proof.
  intros H. unfold this_size_at.
  destruct (Nat.ltb_spec (eo + chunk_size) n); [reflexivity | lia].
Qed.

Lemma this_size_last n eo :
  n <= eo + chunk_size -> this_size_at n eo = n - eo.
Proof.
  intros H. unfold this_size_at.
  destruct (Nat.ltb_spec (eo + chunk_size) n); [lia | reflexivity].
Qed.

Lemma this_size_bounds n eo :
  eo < n -> 0 < this_size_at n eo <= chunk_size /\ eo + this_size_at n eo <= n.
Proof.
  intros H. unfold this_size_at, chunk_size.
  destruct (Nat.ltb_spec (eo + 4096) n); lia.
Qed.

Lemma next_offset n i :
  i < nchunks n ->
  i * chunk_size + this_size_at n (i * chunk_size) =
  Nat.min (S i * chunk_size) n.
Proof.
  intros H. apply nchunks_lt in H. unfold this_size_at.
  destruct (Nat.ltb_spec (i * chunk_size + chunk_size) n); lia.
Qed.

(** The chunks [i .. i + k - 1], one after the other. *)
Definition frames (r : renderer) (n i k : nat) : list byte :=
  concat (map (fun j => chunk_frame r n (j * chunk_size)) (seq i k)).

Lemma frames_S r n i k :
  frames r n i (S k) = chunk_frame r n (i * chunk_size) ++ frames r n (S i) k.
Proof. reflexivity. Qed.

Lemma chunk_loop_spec r n :
  n <= length (encoded_buffer r) ->
  forall k i fuel buf off,
    i + k = nchunks n -> k < fuel ->
    length buf = protocol_buffer_size r ->
    off <= protocol_buffer_size r ->
    (off + length (frames r n i k) <= protocol_buffer_size r ->
     exists buf',
       chunk_loop fuel r n buf (Nat.min (i * chunk_size) n) off =
         Next buf' (off + length (frames r n i k)) /\
       length buf' = length buf /\
       take (off + length (frames r n i k)) buf' =
         take off buf ++ frames r n i k) /\
    (protocol_buffer_size r < off + length (frames r n i k) ->
     exists e buf',
       chunk_loop fuel r n buf (Nat.min (i * chunk_size) n) off =
         Drop e buf' /\
       length buf' = length buf).
Proof.
  intros Henc. induction k as [|k IH]; intros i fuel buf off Hik Hfuel Hbuf Hoff.
  - assert (Hge : n <= i * chunk_size).
    { destruct (Nat.le_gt_cases n (i * chunk_size)) as [|Hlt]; [assumption|].
      apply nchunks_lt in Hlt. lia. }
    destruct fuel as [|fuel]; [lia|]. cbn [chunk_loop].
    rewrite Nat.min_r by exact Hge.
    destruct (Nat.ltb_spec n n); [lia|].
    unfold frames; cbn [seq map concat length]. split; [|lia].
    intros _. exists buf. rewrite Nat.add_0_r, app_nil_r. auto.
  - assert (Hi : i < nchunks n) by lia.
    pose proof (proj1 (nchunks_lt n i) Hi) as Hlt.
    destruct fuel as [|fuel]; [lia|]. cbn [chunk_loop].
    rewrite Nat.min_l by lia.
    destruct (Nat.ltb_spec (i * chunk_size) n); [|lia].
    pose proof (this_size_bounds n (i * chunk_size) Hlt) as [_ Hts].
    rewrite frames_S, length_app.
    set (C := chunk_frame r n (i * chunk_size)).
    destruct (Nat.le_gt_cases (off + length C) (protocol_buffer_size r))
      as [Hfit|Hbig].
    + destruct (chunk_body_fits r n buf (i * chunk_size) off)
        as (b1 & E1 & L1 & T1); [assumption | lia | assumption |].
      fold C in E1, T1. rewrite E1, next_offset by exact Hi.
      destruct (IH (S i) fuel b1 (off + length C)) as [IHfit IHdrop];
        [lia | lia | lia | lia |].
      split; intros H1.
      * destruct IHfit as (b2 & E2 & L2 & T2); [lia|].
        exists b2. rewrite E2. split; [f_equal; lia|]. split; [lia|].
        replace (off + (length C + length (frames r n (S i) k)))
          with (off + length C + length (frames r n (S i) k)) by lia.
        rewrite T2, T1, <- app_assoc. reflexivity.
      * destruct IHdrop as (e & b2 & E2 & L2); [lia|].
        exists e, b2. rewrite E2. split; [reflexivity | lia].
    + destruct (chunk_body_drops r n buf (i * chunk_size) off)
        as (e & b1 & E1 & L1); [assumption | assumption | lia | assumption |].
      rewrite E1. split; intros H1; [lia|]. eauto.
Qed.

(** ** After the loop: animate command and newline *)

Lemma append_animate_spec r buf off :
  length buf = protocol_buffer_size r -> off <= protocol_buffer_size r ->
  let a := if (0 <? frame_number r)%Z then animate_command r else [] in
  let nul := if (0 <? frame_number r)%Z then 1 else 0 in
  (off + length a + nul <= protocol_buffer_size r ->
   exists buf', append_animate r buf off = Next buf' (off + length a) /\
     length buf' = length buf /\
     take (off + length a) buf' = take off buf ++ a) /\
  (protocol_buffer_size r < off + length a + nul ->
   exists e buf', append_animate r buf off = Drop e buf' /\
     length buf' = length buf).
Proof.
  intros Hbuf Hoff. unfold append_animate.
  destruct (0 <? frame_number r)%Z; cbn zeta.
  - set (a := animate_command r).
    pose proof (snprintf_result buf off (protocol_buffer_size r - off) a) as R.
    split; intros H.
    + destruct (snprintf_fits buf off (protocol_buffer_size r - off) a)
        as (b1 & E1 & L1 & T1); [lia | lia |].
      destruct (snprintf buf off (protocol_buffer_size r - off) a)
        as [w al]. cbn [fst snd] in E1, R. subst w al.
      destruct (Z.ltb_spec (Z.of_nat (length a)) 0); [lia|].
      destruct (Z.leb_spec (Z.of_nat (protocol_buffer_size r - off))
                  (Z.of_nat (length a))); [lia|].
      rewrite Nat2Z.id. eauto.
    + destruct (snprintf_truncates buf off (protocol_buffer_size r - off) a)
        as (b1 & E1 & L1 & T1); [lia|].
      destruct (snprintf buf off (protocol_buffer_size r - off) a)
        as [w al]. cbn [fst snd] in E1, R. subst w al.
      destruct (Z.ltb_spec (Z.of_nat (length a)) 0); [lia|].
      destruct (Z.leb_spec (Z.of_nat (protocol_buffer_size r - off))
                  (Z.of_nat (length a))); [eauto | lia].
  - split; intros H; [|cbn in H; lia].
    exists buf. cbn [length]. rewrite Nat.add_0_r, app_nil_r. auto.
Qed.

Lemma append_newline_spec r buf off :
  length buf = protocol_buffer_size r -> off <= protocol_buffer_size r ->
  let nl := if (frame_number r =? 0)%Z then newline else [] in
  (off + length nl <= protocol_buffer_size r ->
   exists buf', append_newline r buf off = Next buf' (off + length nl) /\
     length buf' = length buf /\
     take (off + length nl) buf' = take off buf ++ nl) /\
  (protocol_buffer_size r < off + length nl ->
   exists e buf', append_newline r buf off = Drop e buf' /\
     length buf' = length buf).
Proof.
  intros Hbuf Hoff. unfold append_newline.
  destruct (frame_number r =? 0)%Z; cbn zeta.
  - change (length newline) with 2. split; intros H.
    + destruct (Nat.ltb_spec (protocol_buffer_size r) (off + 2)); [lia|].
      destruct (store buf off newline) as [b1|] eqn:E;
        [| rewrite store_Some in E by (cbn; lia); discriminate].
      exists b1. split; [reflexivity|]. split.
      * eapply store_length; eauto.
      * rewrite (store_take _ _ _ _ 2 E) by (cbn; lia). reflexivity.
    + destruct (Nat.ltb_spec (protocol_buffer_size r) (off + 2)); [|lia].
      eauto.
  - split; intros H; [|cbn in H; lia].
    exists buf. cbn [length]. rewrite Nat.add_0_r, app_nil_r. auto.
Qed.

(** ** The frame on the wire *)

(** The [i]-th piece of the encoded payload: [chunk_size] bytes, fewer
    only at the end of the payload. *)
Definition payload_chunk (enc : list byte) (i : nat) : list byte :=
  take chunk_size (drop (i * chunk_size) enc).

(** The [i]-th chunk on the wire: header with its continuation flag,
    payload piece, escape terminator. *)
Definition wire_chunk (r : renderer) (enc : list byte) (i : nat) : list byte :=
  header_at r (i * chunk_size) (S i <? nchunks (length enc)) ++
  payload_chunk enc i ++ trailer.

Definition wire_body (r : renderer) (enc : list byte) : list byte :=
  concat (map (wire_chunk r enc) (seq 0 (nchunks (length enc)))).

Definition wire_tail (r : renderer) : list byte :=
  (if (0 <? frame_number r)%Z then animate_command r else []) ++
  (if (frame_number r =? 0)%Z then newline else []).

(** Everything the batched write sends for one frame. *)
Definition wire_bytes (r : renderer) (enc : list byte) : list byte :=
  wire_body r enc ++ wire_tail r.

(** The room the encoding asks of the protocol buffer: the bytes of the
    frame, and one more for the NUL that [snprintf] puts after the animate
    command. *)
Definition wire_need (r : renderer) (enc : list byte) : nat :=
  length (wire_bytes r enc) +
  (if (0 <? frame_number r)%Z then 1 else 0).

Lemma more_flag n i :
  (i * chunk_size + chunk_size <? n) = (S i <? nchunks n).
Proof.
  destruct (Nat.ltb_spec (S i) (nchunks n)) as [H|H].
  - apply nchunks_lt in H. apply Nat.ltb_lt. lia.
  - apply Nat.ltb_ge.
    destruct (Nat.le_gt_cases n (i * chunk_size + chunk_size)) as [|Hlt];
      [assumption|].
    assert (S i < nchunks n) by (apply nchunks_lt; lia). lia.
Qed.

Lemma chunk_frame_wire r r1 enc eb i :
  take (length enc) eb = enc ->
  r1 = update r eb (protocol_buffer r) (frame_number r) ->
  i < nchunks (length enc) ->
  chunk_frame r1 (length enc) (i * chunk_size) = wire_chunk r enc i.
Proof.
  intros Htake -> Hi. unfold chunk_frame, wire_chunk, payload_chunk.
  rewrite more_flag. cbn [encoded_buffer update].
  change (header_at (update r eb (protocol_buffer r) (frame_number r)))
    with (header_at r).
  f_equal. f_equal.
  pose proof (proj1 (nchunks_lt _ _) Hi) as Hlt.
  pose proof (this_size_bounds _ _ Hlt) as [[Hpos Hle] Hn].
  set (ts := this_size_at (length enc) (i * chunk_size)) in *.
  set (eo := i * chunk_size) in *.
  assert (E : take ts (drop eo eb) =
              take ts (drop eo (take (length enc) eb))).
  { rewrite !take_drop_commute, take_take. do 2 f_equal. lia. }
  rewrite E, Htake.
  destruct (Nat.le_gt_cases (length enc) (eo + chunk_size)) as [Hlast|Hmore].
  - rewrite !take_ge; [reflexivity | |];
      rewrite length_drop; [lia|].
    subst ts. rewrite this_size_last by exact Hlast. lia.
  - subst ts. rewrite this_size_more by exact Hmore. reflexivity.
Qed.

Lemma frames_wire r r1 enc eb :
  take (length enc) eb = enc ->
  r1 = update r eb (protocol_buffer r) (frame_number r) ->
  frames r1 (length enc) 0 (nchunks (length enc)) = wire_body r enc.
Proof.
  intros Htake Hr1. unfold frames, wire_body. f_equal.
  apply map_ext_in. intros i Hi. apply in_seq in Hi.
  eapply chunk_frame_wire; eauto. lia.
Qed.

(** ** The payload pieces *)

Lemma payload_chunk_length enc i :
  length (payload_chunk enc i) =
  Nat.min chunk_size (length enc - i * chunk_size).
Proof. unfold payload_chunk. rewrite length_take, length_drop. reflexivity. Qed.

Lemma payload_chunk_full enc i :
  S i < nchunks (length enc) -> length (payload_chunk enc i) = chunk_size.
Proof.
  intros H. apply nchunks_lt in H. rewrite payload_chunk_length. lia.
Qed.

Lemma payload_chunk_last enc i :
  S i = nchunks (length enc) ->
  0 < length (payload_chunk enc i) <= chunk_size.
Proof.
  intros H. assert (Hi : i < nchunks (length enc)) by lia.
  apply nchunks_lt in Hi. rewrite payload_chunk_length.
  unfold chunk_size in *. lia.
Qed.

Lemma payload_chunk_bounds enc i :
  payload_chunk enc i =
  take (Nat.min chunk_size (length enc - i * chunk_size))
       (drop (i * chunk_size) enc).
Proof.
  unfold payload_chunk.
  destruct (Nat.le_gt_cases chunk_size (length enc - i * chunk_size)).
  - rewrite Nat.min_l by assumption. reflexivity.
  - rewrite Nat.min_r by lia. rewrite !take_ge; [reflexivity | |];
      rewrite length_drop; lia.
Qed.

Lemma chunks_concat k : forall l : list byte,
  length l <= k * chunk_size ->
  concat (map (payload_chunk l) (seq 0 k)) = l.
Proof.
  induction k as [|k IH]; intros l Hl.
  - destruct l; [reflexivity | cbn in Hl; lia].
  - cbn [seq map concat]. rewrite <- seq_shift, map_map.
    assert (H0 : payload_chunk l 0 = take chunk_size l) by reflexivity.
    assert (Hrest : map (fun i => payload_chunk l (S i)) (seq 0 k) =
                    map (payload_chunk (drop chunk_size l)) (seq 0 k)).
    { apply map_ext. intros i. unfold payload_chunk.
      rewrite drop_drop. first [reflexivity | do 2 f_equal; lia]. }
    rewrite H0, Hrest, IH by (rewrite length_drop; lia).
    apply take_drop.
Qed.

Lemma payload_chunks_concat enc :
  concat (map (payload_chunk enc) (seq 0 (nchunks (length enc)))) = enc.
Proof.
  apply chunks_concat.
  destruct (Nat.le_gt_cases (length enc) (nchunks (length enc) * chunk_size))
    as [|H]; [assumption|].
  apply nchunks_lt in H. lia.
Qed.

(** Every header is a start marker, its keys, and then the continuation
    flag [m=1] or [m=0] and the semicolon that opens the payload. *)
Lemma header_flag r eo :
  exists keys, forall more,
    header_at r eo more =
    [ESC] ++ bytes "_G" ++ keys ++ bytes "m=" ++
    bytes (if more then "1" else "0") ++ bytes ";".
Proof.
  unfold header_at.
  destruct (eo =? 0); destruct (frame_number r =? 0)%Z.
  - exists (bytes "a=T,i=" ++ fmt_d (kitty_id r) ++
            bytes ",f=24,s=" ++ fmt_d (Z.of_nat WIDTH) ++
            bytes ",v=" ++ fmt_d (Z.of_nat HEIGHT) ++
            bytes ",q=2,c=" ++ fmt_d (screen_cols r) ++
            bytes ",r=" ++ fmt_d (screen_rows r) ++ bytes ",").
    intros more. unfold header_create.
    replace (fmt_d (flag more)) with (bytes (if more then "1" else "0"))
      by (destruct more; reflexivity).
    rewrite <- !app_assoc. reflexivity.
  - exists (bytes "a=f,r=1,i=" ++ fmt_d (kitty_id r) ++
            bytes ",f=24,x=0,y=0,s=" ++ fmt_d (Z.of_nat WIDTH) ++
            bytes ",v=" ++ fmt_d (Z.of_nat HEIGHT) ++ bytes ",").
    intros more. unfold header_update.
    replace (fmt_d (flag more)) with (bytes (if more then "1" else "0"))
      by (destruct more; reflexivity).
    rewrite <- !app_assoc. reflexivity.
  - exists []. intros more. unfold header_cont_create.
    replace (fmt_d (flag more)) with (bytes (if more then "1" else "0"))
      by (destruct more; reflexivity).
    reflexivity.
  - exists (bytes "a=f,r=1,"). intros more. unfold header_cont_update.
    replace (fmt_d (flag more)) with (bytes (if more then "1" else "0"))
      by (destruct more; reflexivity).
    reflexivity.
Qed.

Lemma nchunks_le n : nchunks n <= n.
Proof.
  destruct (Nat.le_gt_cases (nchunks n) n) as [|H]; [assumption|].
  apply nchunks_lt in H. unfold chunk_size in H. lia.
Qed.

Lemma wire_tail_length r :
  length (wire_tail r) =
  length (if (0 <? frame_number r)%Z then animate_command r else []) +
  length (if (frame_number r =? 0)%Z then newline else []).
Proof. unfold wire_tail. apply length_app. Qed.

(** ** The room a frame needs *)

Lemma bytes_length s : length (bytes s) = String.length s.
Proof.
  unfold bytes, list_byte_of_string.
  induction s as [|a s IH]; cbn; [reflexivity|]. rewrite length_map in *.
  cbn. f_equal. rewrite <- IH. reflexivity.
Qed.

Lemma double_digits d :
  nb_digits (Little.double d) <= S (nb_digits d) /\
  nb_digits (Little.succ_double d) <= S (nb_digits d).
Proof.
  induction d as [|d [IH1 IH2]|d [IH1 IH2]|d [IH1 IH2]|d [IH1 IH2]
                  |d [IH1 IH2]|d [IH1 IH2]|d [IH1 IH2]|d [IH1 IH2]
                  |d [IH1 IH2]|d [IH1 IH2]]; cbn; lia.
Qed.

Lemma to_little_uint_digits p :
  nb_digits (Pos.to_little_uint p) <= Pos.size_nat p.
Proof.
  induction p as [p IH|p IH|]; cbn; [| |lia].
  - pose proof (double_digits (Pos.to_little_uint p)). lia.
  - pose proof (double_digits (Pos.to_little_uint p)). lia.
Qed.

Lemma string_of_uint_length d :
  String.length (NilEmpty.string_of_uint d) = nb_digits d.
Proof. induction d; cbn; congruence. Qed.

Lemma nilzero_length d :
  String.length (NilZero.string_of_uint d) <= S (nb_digits d).
Proof.
  destruct d; cbn [NilZero.string_of_uint];
    try (rewrite string_of_uint_length; lia).
  cbn. lia.
Qed.

Lemma size_nat_int p : (Z.pos p <= 2 ^ 31)%Z -> Pos.size_nat p <= 32.
Proof.
  intros H.
  destruct (Pos.eq_dec p (2 ^ 31)%positive) as [->|Hne]; [vm_compute; lia|].
  transitivity (Pos.size_nat (2 ^ 31)%positive); [|vm_compute; lia].
  apply Pos.size_nat_monotone. lia.
Qed.

(** [%d] of an [int] prints at most 34 characters. *)
Lemma fmt_d_length z :
  (INT_MIN <= z <= INT_MAX)%Z -> length (fmt_d z) <= 34.
Proof.
  unfold INT_MIN, INT_MAX, fmt_d. intros Hz. rewrite bytes_length.
  destruct z as [|p|p]; cbn [Z.to_int NilZero.string_of_int].
  - cbn. lia.
  - pose proof (nilzero_length (Pos.to_uint p)) as H1.
    unfold Pos.to_uint in *. rewrite nb_digits_rev in H1.
    pose proof (to_little_uint_digits p). pose proof (size_nat_int p). lia.
  - pose proof (nilzero_length (Pos.to_uint p)) as H1.
    unfold Pos.to_uint in *. rewrite nb_digits_rev in H1.
    pose proof (to_little_uint_digits p). pose proof (size_nat_int p).
    cbn [String.length]. lia.
Qed.

Definition int_range (z : Z) : Prop := (INT_MIN <= z <= INT_MAX)%Z.

(** A renderer as [renderer_create] makes it and [renderer_render_frame]
    keeps it. *)
Definition created (r : renderer) : Prop :=
  int_range (kitty_id r) /\ int_range (screen_cols r) /\
  int_range (screen_rows r) /\
  protocol_buffer_size r = 280 * 1024 /\
  length (protocol_buffer r) = protocol_buffer_size r /\
  length (encoded_buffer r) = 4 * ((WIDTH * HEIGHT * 3 + 2) / 3) + 1.

Lemma header_at_length r eo more :
  int_range (kitty_id r) -> int_range (screen_cols r) ->
  int_range (screen_rows r) ->
  length (header_at r eo more) <= 160.
Proof.
  intros Hi Hc Hr.
  pose proof (fmt_d_length _ Hi). pose proof (fmt_d_length _ Hc).
  pose proof (fmt_d_length _ Hr).
  assert (Hf : length (fmt_d (flag more)) = 1) by (destruct more; reflexivity).
  assert (Hw : length (fmt_d (Z.of_nat WIDTH)) = 3) by reflexivity.
  assert (Hh : length (fmt_d (Z.of_nat HEIGHT)) = 3) by reflexivity.
  unfold header_at, header_create, header_update, header_cont_create,
    header_cont_update.
  destruct (eo =? 0); destruct (frame_number r =? 0)%Z;
    rewrite !length_app, ?bytes_length, ?Hf, ?Hw, ?Hh;
    cbn [length String.length]; lia.
Qed.

Lemma wire_chunks_length r enc l :
  int_range (kitty_id r) -> int_range (screen_cols r) ->
  int_range (screen_rows r) ->
  length (concat (map (wire_chunk r enc) l)) <=
  length (concat (map (payload_chunk enc) l)) + length l * 162.
Proof.
  intros Hi Hc Hr. induction l as [|i l IH]; [cbn; lia|].
  cbn [map concat length]. rewrite !length_app. unfold wire_chunk at 1.
  rewrite !length_app.
  pose proof (header_at_length r (i * chunk_size)
                (S i <? nchunks (length enc)) Hi Hc Hr).
  change (length trailer) with 2. lia.
Qed.

Lemma wire_need_bound r enc :
  int_range (kitty_id r) -> int_range (screen_cols r) ->
  int_range (screen_rows r) ->
  wire_need r enc <= length enc + nchunks (length enc) * 162 + 53.
Proof.
  intros Hi Hc Hr. unfold wire_need, wire_bytes, wire_body.
  rewrite length_app, wire_tail_length.
  pose proof (wire_chunks_length r enc (seq 0 (nchunks (length enc)))
                Hi Hc Hr) as H1.
  rewrite payload_chunks_concat, length_seq in H1.
  pose proof (fmt_d_length _ Hi).
  assert (Ha : length (animate_command r) <= 50).
  { unfold animate_command. rewrite !length_app, !bytes_length.
    cbn [length String.length]. lia. }
  destruct (0 <? frame_number r)%Z, (frame_number r =? 0)%Z;
    cbn [length newline]; lia.
Qed.

Lemma created_fits r enc :
  created r -> length enc <= 4 * (WIDTH * HEIGHT) ->
  wire_need r enc <= protocol_buffer_size r.
Proof.
  intros (Hi & Hc & Hr & Hsz & _) Hn.
  pose proof (wire_need_bound r enc Hi Hc Hr) as H1.
  assert (Hk : nchunks (length enc) <= 63).
  { destruct (Nat.le_gt_cases (nchunks (length enc)) 63) as [|H];
      [assumption|].
    apply nchunks_lt in H. unfold chunk_size, WIDTH, HEIGHT in *. lia. }
  rewrite Hsz. unfold WIDTH, HEIGHT in *. lia.
Qed.

(** The renderer [r] as it stands before its frame [n]: only the four
    scalars matter to what a frame sends. *)
Definition at_frame (r : renderer) (n : nat) : renderer :=
  update r (encoded_buffer r) (protocol_buffer r) (Z.of_nat n).

Lemma wire_of_scalars r r0 n enc :
  kitty_id r = kitty_id r0 -> screen_cols r = screen_cols r0 ->
  screen_rows r = screen_rows r0 -> frame_number r = Z.of_nat n ->
  home r = home (at_frame r0 n) /\
  wire_bytes r enc = wire_bytes (at_frame r0 n) enc.
Proof.
  destruct r. cbn [kitty_id screen_cols screen_rows frame_number].
  intros -> -> -> ->. split; reflexivity.
Qed.

Section Encoder.

(** [base64_encode_auto] (base64.h) is called, not defined, in the
    sources at hand: it is a parameter here, the function from the source
    bytes to the encoded bytes it stores in the destination. *)
Variable base64_encode_auto : list byte -> list byte.

(** [renderer_render_frame], for non-null [r] and [rgb24_frame] (the
    guard at its entry returns at once for a null pointer). stdout takes
    every byte handed to it. *)
Definition renderer_render_frame (r : renderer) (rgb24_frame : list byte)
  : outcome :=
  let bitmap_size := WIDTH * HEIGHT * 3 in
  match load rgb24_frame 0 bitmap_size with
  | None => Crashed
  | Some src =>
    let encoded := base64_encode_auto src in
    let encoded_size := length encoded in
    match store (encoded_buffer r) 0 encoded with
    | None => Crashed
    | Some eb =>
      match store eb encoded_size [x00] with
      | None => Crashed
      | Some eb =>
        let r1 := update r eb (protocol_buffer r) (frame_number r) in
        match
          and_then
            (and_then
               (chunk_loop (S encoded_size) r1 encoded_size
                  (protocol_buffer r) 0 0)
               (append_animate r1))
            (append_newline r1)
        with
        | Next buf buf_offset =>
            Returned (update r eb buf (wrap_int (frame_number r + 1)))
                     (home r ++ take buf_offset buf) []
        | Drop e buf =>
            Returned (update r eb buf (frame_number r)) (home r) [e]
        | Fault => Crashed
        | OutOfFuel => Unfinished
        end
      end
    end
  end.

(** The payload the call encodes. *)
Definition encoded_of (rgb24_frame : list byte) : list byte :=
  base64_encode_auto (take (WIDTH * HEIGHT * 3) rgb24_frame).

(** The renderer's blocks have their recorded sizes, the frame is whole,
    and the encoded payload with its NUL fits the encode buffer. *)
Definition well_sized (r : renderer) (rgb24_frame : list byte) : Prop :=
  WIDTH * HEIGHT * 3 <= length rgb24_frame /\
  length (encoded_of rgb24_frame) < length (encoded_buffer r) /\
  length (protocol_buffer r) = protocol_buffer_size r.

(** A whole frame whose encoding has at most four bytes for every three
    of the bitmap. *)
Definition frame_ok (f : list byte) : Prop :=
  WIDTH * HEIGHT * 3 <= length f /\
  length (encoded_of f) <= 4 * (WIDTH * HEIGHT).

Lemma render_frame_spec r frame :
  well_sized r frame ->
  let enc := encoded_of frame in
  exists eb,
    length eb = length (encoded_buffer r) /\
    take (length enc) eb = enc /\
    (wire_need r enc <= protocol_buffer_size r ->
     exists buf,
       renderer_render_frame r frame =
         Returned (update r eb buf (wrap_int (frame_number r + 1)))
                  (home r ++ wire_bytes r enc) [] /\
       length buf = protocol_buffer_size r /\
       take (length (wire_bytes r enc)) buf = wire_bytes r enc) /\
    (protocol_buffer_size r < wire_need r enc ->
     exists e buf,
       renderer_render_frame r frame =
         Returned (update r eb buf (frame_number r)) (home r) [e] /\
       length buf = protocol_buffer_size r).
Proof.
  intros (Hframe & Henc & Hbuf) enc.
  unfold renderer_render_frame.
  rewrite load_Some by (cbn [Nat.add]; exact Hframe).
  rewrite drop_0. fold (encoded_of frame). fold enc.
  fold enc in Henc.
  destruct (store (encoded_buffer r) 0 enc) as [eb1|] eqn:E1;
    [| rewrite store_Some in E1 by (cbn [Nat.add]; lia); discriminate].
  pose proof (store_length _ _ _ _ E1) as L1.
  pose proof (store_take _ _ _ _ (length enc) E1 (le_n _)) as T1.
  cbn [Nat.add] in T1. rewrite take_0, (take_ge enc) in T1 by lia.
  cbn [app] in T1.
  destruct (store eb1 (length enc) [x00]) as [eb|] eqn:E2;
    [| rewrite store_Some in E2 by (cbn [length]; lia); discriminate].
  pose proof (store_length _ _ _ _ E2) as L2.
  pose proof (store_take_before _ _ _ _ (length enc) E2 (le_n _)) as T2.
  rewrite T1 in T2.
  exists eb. split; [lia|]. split; [exact T2|]. cbv zeta.
  set (r1 := update r eb (protocol_buffer r) (frame_number r)).
  assert (Hsz : protocol_buffer_size r1 = protocol_buffer_size r)
    by reflexivity.
  assert (Hfn : frame_number r1 = frame_number r) by reflexivity.
  assert (Han : animate_command r1 = animate_command r) by reflexivity.
  destruct (chunk_loop_spec r1 (length enc)
              ltac:(cbn [encoded_buffer r1 update]; lia)
              (nchunks (length enc)) 0 (S (length enc))
              (protocol_buffer r) 0)
    as [Lfit Ldrop];
    [reflexivity | pose proof (nchunks_le (length enc)); lia
     | exact Hbuf | lia |].
  change (Nat.min (0 * chunk_size) (length enc)) with 0 in Lfit, Ldrop.
  rewrite (frames_wire r r1 enc eb T2 eq_refl), Hsz in Lfit, Ldrop.
  cbn [Nat.add] in Lfit, Ldrop.
  unfold wire_need, wire_bytes. rewrite length_app, wire_tail_length.
  set (B := wire_body r enc) in *.
  split.
  - intros Hneed.
    destruct Lfit as (b1 & EL & LL & TL); [lia|].
    rewrite EL. cbn [and_then].
    destruct (append_animate_spec r1 b1 (length B)) as [Afit _];
      [rewrite Hsz; lia | rewrite Hsz; lia |].
    rewrite Hsz, Hfn, Han in Afit.
    destruct Afit as (b2 & EA & LA & TA); [lia|].
    rewrite EA. cbn [and_then].
    destruct (append_newline_spec r1 b2
                (length B + length (if (0 <? frame_number r)%Z
                                    then animate_command r else [])))
      as [Nfit _]; [rewrite Hsz; lia | rewrite Hsz; lia |].
    rewrite Hsz, Hfn in Nfit.
    destruct Nfit as (b3 & EN & LN & TN); [lia|].
    rewrite EN. exists b3.
    assert (Hall : take (length B +
                length (if (0 <? frame_number r)%Z
                        then animate_command r else []) +
                length (if (frame_number r =? 0)%Z then newline else [])) b3
              = B ++ wire_tail r).
    { rewrite TN, TA, TL, take_0. cbn [app]. unfold wire_tail.
      rewrite <- app_assoc. reflexivity. }
    split; [|split].
    + rewrite Hall. reflexivity.
    + lia.
    + rewrite Nat.add_assoc. exact Hall.
  - intros Hneed.
    destruct (Nat.le_gt_cases (length B) (protocol_buffer_size r))
      as [HB|HB].
    2:{ destruct Ldrop as (e & b1 & EL & LL); [lia|].
        rewrite EL. cbn [and_then]. exists e, b1. split; [reflexivity|lia]. }
    destruct Lfit as (b1 & EL & LL & TL); [lia|].
    rewrite EL. cbn [and_then].
    destruct (append_animate_spec r1 b1 (length B)) as [Afit Adrop];
      [rewrite Hsz; lia | rewrite Hsz; lia |].
    rewrite Hsz, Hfn, Han in Afit, Adrop.
    set (a := if (0 <? frame_number r)%Z then animate_command r else [])
      in *.
    set (nul := if (0 <? frame_number r)%Z then 1 else 0) in *.
    destruct (Nat.le_gt_cases (length B + length a + nul)
                (protocol_buffer_size r)) as [HA|HA].
    2:{ destruct Adrop as (e & b2 & EA & LA); [lia|].
        rewrite EA. cbn [and_then]. exists e, b2. split; [reflexivity|lia]. }
    destruct Afit as (b2 & EA & LA & TA); [lia|].
    rewrite EA. cbn [and_then].
    destruct (append_newline_spec r1 b2 (length B + length a))
      as [_ Ndrop]; [rewrite Hsz; lia | rewrite Hsz; lia |].
    rewrite Hsz, Hfn in Ndrop.
    destruct Ndrop as (e & b3 & EN & LN).
    { subst a nul.
      destruct (Z.ltb_spec 0 (frame_number r)) as [Hpos|Hnp];
        destruct (Z.eqb_spec (frame_number r) 0) as [Hz|Hnz];
        cbn [length] in *; lia. }
    rewrite EN. exists e, b3. split; [reflexivity|lia].
Qed.

(** ** What a call does to the renderer and to stdout *)

Lemma render_frame_returns r frame :
  well_sized r frame ->
  exists eb buf n out errs,
    renderer_render_frame r frame = Returned (update r eb buf n) out errs /\
    length eb = length (encoded_buffer r) /\
    length buf = length (protocol_buffer r) /\
    take (length (encoded_of frame)) eb = encoded_of frame /\
    ((protocol_buffer_size r < wire_need r (encoded_of frame) /\
      (exists e, errs = [e]) /\ out = home r /\ n = frame_number r) \/
     (wire_need r (encoded_of frame) <= protocol_buffer_size r /\
      errs = [] /\ out = home r ++ wire_bytes r (encoded_of frame) /\
      n = wrap_int (frame_number r + 1))).
Proof.
  intros Hw. pose proof Hw as (_ & _ & Hbuf).
  destruct (render_frame_spec r frame Hw) as (eb & Leb & Teb & Hfit & Hdrop).
  destruct (Nat.le_gt_cases (wire_need r (encoded_of frame))
              (protocol_buffer_size r)) as [H|H].
  - destruct (Hfit H) as (buf & E & L & _).
    exists eb, buf, (wrap_int (frame_number r + 1)),
      (home r ++ wire_bytes r (encoded_of frame)), [].
    repeat split; try assumption; try lia. right. auto.
  - destruct (Hdrop H) as (e & buf & E & L).
    exists eb, buf, (frame_number r), (home r), [e].
    repeat split; try assumption; try lia. left. eauto.
Qed.

(** C5, as the code has it. Whatever the capacity of the protocol buffer,
    a call on a whole frame returns normally and never reads or writes
    outside a block (both buffers keep their sizes). A capacity validation
    fails exactly when the buffer cannot hold the frame (with the NUL of
    the animate command); then exactly one error is reported and no byte
    of the protocol buffer reaches stdout: the only bytes written are the
    cursor-home sequence ESC [ H that the first frame prints before it
    encodes anything, and nothing at all for a later frame. *)
Theorem render_drop_sends_no_frame :
  forall (r : renderer) (rgb24_frame : list byte),
    well_sized r rgb24_frame ->
    exists r' out errs,
      renderer_render_frame r rgb24_frame = Returned r' out errs /\
      length (protocol_buffer r') = length (protocol_buffer r) /\
      length (encoded_buffer r') = length (encoded_buffer r) /\
      (protocol_buffer_size r < wire_need r (encoded_of rgb24_frame) <->
       errs <> []) /\
      (errs <> [] ->
         (exists e, errs = [e]) /\
         out = (if (frame_number r =? 0)%Z then cursor_home else [])).
Proof.
  intros r frame Hw.
  destruct (render_frame_returns r frame Hw)
    as (eb & buf & n & out & errs & E & Leb & Lbuf & _ & Hcase).
  exists (update r eb buf n), out, errs.
  split; [exact E|]. split; [exact Lbuf|]. split; [exact Leb|].
  destruct Hcase as [(Hlt & (e & ->) & -> & ->) | (Hle & -> & -> & ->)].
  - split; [split; [discriminate | auto] |]. intros _. split; eauto.
  - split; [split; [lia | congruence] |]. congruence.
Qed.

(** C10, as the code has it. A dropped frame leaves every scalar field of
    the renderer as it was: the frame counter, the image identifier, the
    screen size and the two recorded capacities; the two reusable buffers
    keep their sizes, and only their contents are overwritten (the encode
    buffer holds the payload of the dropped frame). The headers the next
    call formats are therefore those the dropped call would have used. A
    call that reaches the batched write changes the counter and nothing
    else among the scalar fields, and the counter goes up by exactly one
    as long as it is below [INT_MAX]. *)
Theorem render_drop_keeps_scalars :
  forall (r : renderer) (rgb24_frame : list byte),
    well_sized r rgb24_frame ->
    exists r' out errs eb buf,
      renderer_render_frame r rgb24_frame = Returned r' out errs /\
      length eb = length (encoded_buffer r) /\
      length buf = length (protocol_buffer r) /\
      take (length (encoded_of rgb24_frame)) eb = encoded_of rgb24_frame /\
      (errs <> [] ->
         r' = update r eb buf (frame_number r) /\
         frame_number r' = frame_number r /\
         kitty_id r' = kitty_id r /\
         screen_rows r' = screen_rows r /\
         screen_cols r' = screen_cols r /\
         encoded_buffer_size r' = encoded_buffer_size r /\
         protocol_buffer_size r' = protocol_buffer_size r /\
         (forall off more, header_at r' off more = header_at r off more) /\
         home r' = home r /\ wire_tail r' = wire_tail r) /\
      (errs = [] ->
         r' = update r eb buf (wrap_int (frame_number r + 1)) /\
         kitty_id r' = kitty_id r /\
         screen_rows r' = screen_rows r /\
         screen_cols r' = screen_cols r /\
         encoded_buffer_size r' = encoded_buffer_size r /\
         protocol_buffer_size r' = protocol_buffer_size r /\
         ((- 2 ^ 31 <= frame_number r < INT_MAX)%Z ->
          frame_number r' = (frame_number r + 1)%Z)).
Proof.
  intros r frame Hw.
  destruct (render_frame_returns r frame Hw)
    as (eb & buf & n & out & errs & E & Leb & Lbuf & Teb & Hcase).
  exists (update r eb buf n), out, errs, eb, buf.
  split; [exact E|]. split; [exact Leb|]. split; [exact Lbuf|].
  split; [exact Teb|].
  destruct Hcase as [(Hlt & (e & ->) & -> & ->) | (Hle & -> & -> & ->)].
  - split; [|discriminate]. intros _. repeat split.
  - split; [congruence|]. intros _. repeat split.
    intros Hrange. cbn [frame_number update]. unfold wrap_int, INT_MAX in *.
    rewrite Z.mod_small by lia. lia.
Qed.

(** C6. Whenever the frame fits the protocol buffer, the batched write is
    the sequence of the chunks [0 .. nchunks - 1] followed by the tail of
    the frame. The payload pieces are consecutive and concatenate to the
    base64 text; each has exactly 4096 bytes, except the last, which has
    between 1 and 4096; each chunk is its piece between a header that
    starts with ESC _ G and the terminator ESC \; the header carries [m=1]
    on every chunk but the last and [m=0] on the last; and where the pieces
    start and end is a function of the payload length alone, whatever the
    renderer and its frame counter. *)
Theorem render_chunks_payload :
  forall (r : renderer) (rgb24_frame : list byte),
    well_sized r rgb24_frame ->
    wire_need r (encoded_of rgb24_frame) <= protocol_buffer_size r ->
    let enc := encoded_of rgb24_frame in
    let k := nchunks (length enc) in
    (exists r',
       renderer_render_frame r rgb24_frame =
         Returned r'
           (home r ++ concat (map (wire_chunk r enc) (seq 0 k)) ++ wire_tail r)
           []) /\
    concat (map (payload_chunk enc) (seq 0 k)) = enc /\
    (forall i, S i < k -> length (payload_chunk enc i) = 4096) /\
    (forall i, S i = k -> 0 < length (payload_chunk enc i) <= 4096) /\
    (forall i, i < k ->
       exists keys,
         wire_chunk r enc i =
         ([ESC] ++ bytes "_G" ++ keys ++ bytes "m=" ++
          bytes (if S i <? k then "1" else "0") ++ bytes ";") ++
         payload_chunk enc i ++ [ESC] ++ bytes "\") /\
    (forall i,
       payload_chunk enc i =
       take (Nat.min 4096 (length enc - i * 4096)) (drop (i * 4096) enc)) /\
    (forall (r2 : renderer) (enc2 : list byte),
       length enc2 = length enc ->
       nchunks (length enc2) = k /\
       forall i, length (payload_chunk enc2 i) = length (payload_chunk enc i)).
Proof.
  intros r frame Hw Hfit enc k.
  destruct (render_frame_spec r frame Hw) as (eb & _ & _ & Hok & _).
  destruct (Hok Hfit) as (buf & E & _ & _).
  split; [eexists; exact E|].
  split; [apply payload_chunks_concat|].
  split; [intros i; apply payload_chunk_full|].
  split; [intros i; apply payload_chunk_last|].
  split.
  { intros i Hi. destruct (header_flag r (i * chunk_size)) as [keys Hk].
    exists keys. unfold wire_chunk. rewrite Hk. reflexivity. }
  split; [intros i; apply payload_chunk_bounds|].
  intros r2 enc2 Hlen. split; [rewrite Hlen; reflexivity|].
  intros i. rewrite !payload_chunk_length, Hlen. reflexivity.
Qed.

(** ** A renderer over its lifetime *)

(** The calls for the frames [fs] one after the other: the renderer at
    the end and what each call wrote to stdout. *)
Fixpoint render_frames (r : renderer) (fs : list (list byte))
  : renderer * list (list byte) :=
  match fs with
  | [] => (r, [])
  | f :: fs =>
      match renderer_render_frame r f with
      | Returned r' out _ =>
          let '(r_end, outs) := render_frames r' fs in (r_end, out :: outs)
      | _ => (r, [])
      end
  end.

Lemma well_sized_update r eb buf n f :
  length eb = length (encoded_buffer r) ->
  length buf = length (protocol_buffer r) ->
  well_sized r f -> well_sized (update r eb buf n) f.
Proof.
  intros Le Lb (H1 & H2 & H3). unfold well_sized.
  cbn [update encoded_buffer protocol_buffer protocol_buffer_size]. 
  repeat split; [exact H1 | lia | lia].
Qed.

Lemma not_newline_animate pre r :
  ~ newline `suffix_of` pre ++ animate_command r.
Proof.
  unfold animate_command, newline. intros H.
  change [x0d; x0a] with ([x0d] ++ [x0a]) in H.
  change (bytes "\") with ([] ++ ["\"%byte]) in H.
  rewrite !app_assoc in H.
  apply suffix_snoc_inv_1 in H. discriminate H.
Qed.

Lemma not_newline_home r : ~ newline `suffix_of` home r.
Proof.
  unfold home. destruct (frame_number r =? 0)%Z; intros H.
  - change cursor_home with ([ESC; "["%byte] ++ ["H"%byte]) in H.
    change newline with ([x0d] ++ [x0a]) in H.
    apply suffix_snoc_inv_1 in H. discriminate H.
  - apply suffix_nil_inv in H. discriminate H.
Qed.

Lemma wire_tail_first r : frame_number r = 0%Z -> wire_tail r = newline.
Proof. intros H. unfold wire_tail. rewrite H. reflexivity. Qed.

Lemma wire_tail_later r :
  (0 < frame_number r)%Z -> wire_tail r = animate_command r.
Proof.
  intros H. unfold wire_tail.
  destruct (Z.ltb_spec 0 (frame_number r)); [|lia].
  destruct (Z.eqb_spec (frame_number r) 0); [lia|]. apply app_nil_r.
Qed.

Lemma wrap_int_succ n :
  (- 2 ^ 31 <= n < INT_MAX)%Z -> wrap_int (n + 1) = (n + 1)%Z.
Proof.
  intros H. unfold wrap_int, INT_MAX in *.
  rewrite Z.mod_small by lia. lia.
Qed.

(** The number of calls that ended their output with the newline. *)
Definition newlines (outs : list (list byte)) : nat :=
  length (filter (fun out => newline `suffix_of` out) outs).

Lemma newlines_cons_yes out outs :
  newline `suffix_of` out -> newlines (out :: outs) = S (newlines outs).
Proof. intros H. unfold newlines. rewrite filter_cons_True by exact H. reflexivity. Qed.

Lemma newlines_cons_no out outs :
  ~ newline `suffix_of` out -> newlines (out :: outs) = newlines outs.
Proof. intros H. unfold newlines. rewrite filter_cons_False by exact H. reflexivity. Qed.

Lemma render_frames_later fs : forall r,
  (0 < frame_number r)%Z ->
  (frame_number r + Z.of_nat (length fs) < 2 ^ 31)%Z ->
  Forall (well_sized r) fs ->
  newlines (render_frames r fs).2 = 0 /\
  (0 < frame_number (render_frames r fs).1)%Z /\
  kitty_id (render_frames r fs).1 = kitty_id r.
Proof.
  induction fs as [|f fs IH]; intros r Hpos Hlen Hall.
  - cbn. auto.
  - apply Forall_cons in Hall as [Hf Hall]. cbn [render_frames].
    destruct (render_frame_returns r f Hf)
      as (eb & buf & n & out & errs & E & Leb & Lbuf & _ & Hcase).
    rewrite E.
    assert (Hn : (0 < n)%Z /\ (n + Z.of_nat (length fs) < 2 ^ 31)%Z /\
                 ~ newline `suffix_of` out).
    { cbn [length] in Hlen.
      destruct Hcase as [(_ & _ & -> & ->) | (_ & _ & -> & ->)].
      - split; [lia|]. split; [lia|]. apply not_newline_home.
      - rewrite wrap_int_succ by (unfold INT_MAX; lia).
        split; [lia|]. split; [lia|].
        unfold wire_bytes. rewrite wire_tail_later by exact Hpos.
        rewrite !app_assoc. apply not_newline_animate. }
    destruct Hn as (Hn1 & Hn2 & Hno).
    destruct (IH (update r eb buf n)) as (IH1 & IH2 & IH3);
      [exact Hn1 | exact Hn2 | |].
    { eapply Forall_impl; [exact Hall|]. intros f' Hf'.
      apply well_sized_update; assumption. }
    destruct (render_frames (update r eb buf n) fs) as [r_end outs].
    cbn [fst snd] in *. rewrite newlines_cons_no by exact Hno. auto.
Qed.

Lemma render_frames_first fs : forall r,
  frame_number r = 0%Z ->
  (Z.of_nat (length fs) < 2 ^ 31)%Z ->
  Forall (well_sized r) fs ->
  newlines (render_frames r fs).2 =
    (if (frame_number (render_frames r fs).1 =? 0)%Z then 0 else 1) /\
  (0 <= frame_number (render_frames r fs).1)%Z /\
  kitty_id (render_frames r fs).1 = kitty_id r.
Proof.
  induction fs as [|f fs IH]; intros r Hz Hlen Hall.
  - cbn. rewrite Hz. cbn. split; [reflexivity|]. split; [lia | reflexivity].
  - apply Forall_cons in Hall as [Hf Hall]. cbn [render_frames].
    destruct (render_frame_returns r f Hf)
      as (eb & buf & n & out & errs & E & Leb & Lbuf & _ & Hcase).
    rewrite E. cbn [length] in Hlen.
    assert (Hall' : Forall (well_sized (update r eb buf n)) fs).
    { eapply Forall_impl; [exact Hall|]. intros f' Hf'.
      apply well_sized_update; assumption. }
    destruct Hcase as [(_ & _ & -> & ->) | (_ & _ & -> & ->)].
    + destruct (IH (update r eb buf (frame_number r)))
        as (IH1 & IH2 & IH3); [exact Hz | lia | exact Hall' |].
      destruct (render_frames (update r eb buf (frame_number r)) fs)
        as [r_end outs].
      cbn [fst snd] in *.
      rewrite newlines_cons_no by apply not_newline_home. auto.
    + replace (wrap_int (frame_number r + 1)) with 1%Z in *
        by (rewrite Hz; reflexivity).
      destruct (render_frames_later fs (update r eb buf 1))
        as (L1 & L2 & L3); [reflexivity | cbn; lia | exact Hall' |].
      destruct (render_frames (update r eb buf 1) fs) as [r_end outs].
      cbn [fst snd] in *.
      assert (Hnl : newline `suffix_of`
                home r ++ wire_bytes r (encoded_of f)).
      { unfold wire_bytes. rewrite wire_tail_first by exact Hz.
        rewrite !app_assoc. apply suffix_app_r. reflexivity. }
      rewrite (newlines_cons_yes _ _ Hnl), L1.
      destruct (Z.eqb_spec (frame_number r_end) 0); [lia|].
      split; [reflexivity|]. split; [lia | exact L3].
Qed.

Lemma wire_body_first r enc :
  enc <> [] ->
  exists rest,
    wire_body r enc =
    (header_at r 0 (1 <? nchunks (length enc)) ++
     payload_chunk enc 0 ++ trailer) ++ rest.
Proof.
  intros Hne. unfold wire_body.
  assert (Hk : 0 < nchunks (length enc)).
  { apply nchunks_lt. destruct enc; [congruence | cbn; lia]. }
  assert (Hseq : seq 0 (nchunks (length enc)) =
                 0 :: seq 1 (nchunks (length enc) - 1)).
  { destruct (nchunks (length enc)) as [|k]; [lia|].
    cbn [seq Nat.sub]. rewrite Nat.sub_0_r. reflexivity. }
  rewrite Hseq. cbn [map concat]. eexists. reflexivity.
Qed.

Lemma created_update r eb buf n :
  length eb = length (encoded_buffer r) ->
  length buf = protocol_buffer_size r ->
  created r -> created (update r eb buf n).
Proof.
  intros Le Lb (Hi & Hc & Hr & Hsz & Hp & He). unfold created.
  cbn [update kitty_id screen_cols screen_rows protocol_buffer_size
       protocol_buffer encoded_buffer].
  rewrite Le. auto 10.
Qed.

(** Every call of a run returns and adds one output. *)
Lemma render_frames_length fs : forall r,
  Forall (well_sized r) fs ->
  length (render_frames r fs).2 = length fs.
Proof.
  induction fs as [|f fs IH]; intros r Hall; [reflexivity|].
  apply Forall_cons in Hall as [Hf Hall]. cbn [render_frames].
  destruct (render_frame_returns r f Hf)
    as (eb & buf & n & out & errs & E & Leb & Lbuf & _).
  rewrite E.
  assert (Hall' : Forall (well_sized (update r eb buf n)) fs).
  { eapply Forall_impl; [exact Hall|]. intros f' Hf'.
    apply well_sized_update; assumption. }
  specialize (IH _ Hall').
  destruct (render_frames (update r eb buf n) fs) as [r_end outs].
  cbn [snd length] in *. rewrite IH. reflexivity.
Qed.

Lemma created_well_sized r f :
  created r -> frame_ok f -> well_sized r f.
Proof.
  intros (_ & _ & _ & _ & Hp & He) (Hf & Henc).
  split; [exact Hf|]. split; [|exact Hp].
  rewrite He. unfold WIDTH, HEIGHT in *.
  pose proof (Nat.div_mod_eq (320 * 200 * 3 + 2) 3).
  pose proof (Nat.mod_upper_bound (320 * 200 * 3 + 2) 3 ltac:(lia)).
  lia.
Qed.

(** A run on a created renderer: call [n] of the run is frame [k + n],
    no frame is dropped, and the counter ends at the number of frames. *)
Lemma render_frames_created r0 fs : forall r k,
  created r ->
  kitty_id r = kitty_id r0 -> screen_cols r = screen_cols r0 ->
  screen_rows r = screen_rows r0 -> frame_number r = Z.of_nat k ->
  Forall frame_ok fs ->
  (Z.of_nat (k + length fs) <= INT_MAX)%Z ->
  (render_frames r fs).2 =
    imap (fun n f =>
            home (at_frame r0 (k + n)) ++
            wire_bytes (at_frame r0 (k + n)) (encoded_of f)) fs /\
  frame_number (render_frames r fs).1 = Z.of_nat (k + length fs).
Proof.
  induction fs as [|f fs IH]; intros r k Hcr Hi Hc Hr Hn Hfs Hlen.
  - cbn [render_frames fst snd imap length]. rewrite Nat.add_0_r.
    split; [reflexivity | exact Hn].
  - apply Forall_cons in Hfs as [Hok Hfs].
    cbn [length] in Hlen.
    pose proof (created_well_sized r f Hcr Hok) as Hw.
    pose proof Hok as [_ Henc].
    pose proof Hcr as (_ & _ & _ & _ & Hp & _).
    pose proof (created_fits r _ Hcr Henc) as Hfit.
    destruct (render_frame_returns r f Hw)
      as (eb & buf & n & out & errs & E & Le & Lb & _ & [Hd | Hs]);
      [lia|].
    destruct Hs as (_ & -> & -> & ->).
    assert (Hnext : wrap_int (frame_number r + 1) = Z.of_nat (S k)).
    { rewrite Hn, wrap_int_succ by (unfold INT_MAX in *; lia). lia. }
    destruct (IH (update r eb buf (wrap_int (frame_number r + 1))) (S k))
      as (Eall & Hend).
    + apply created_update; [exact Le | lia | exact Hcr].
    + exact Hi.
    + exact Hc.
    + exact Hr.
    + exact Hnext.
    + exact Hfs.
    + rewrite <- Hlen. f_equal. lia.
    + cbn [render_frames]. rewrite E.
      destruct (render_frames
                  (update r eb buf (wrap_int (frame_number r + 1))) fs)
        as [r_end outs].
      cbn [fst snd] in *. split.
      * destruct (wire_of_scalars r r0 k (encoded_of f) Hi Hc Hr Hn)
          as (-> & ->).
        rewrite Eall. cbn [imap]. rewrite Nat.add_0_r. f_equal.
        apply imap_ext. intros m g _. cbn.
        replace (k + S m) with (S (k + m)) by lia. reflexivity.
      * rewrite Hend. cbn [length]. lia.
Qed.

(** In such a run the first output, and no other, ends in the newline. *)
Lemma frame_output_newline r0 n enc :
  newline `suffix_of`
    home (at_frame r0 n) ++ wire_bytes (at_frame r0 n) enc <-> n = 0.
Proof.
  destruct n as [|n].
  - split; [reflexivity | intros _].
    unfold wire_bytes. rewrite wire_tail_first by reflexivity.
    rewrite !app_assoc. apply suffix_app_r. reflexivity.
  - split; [|discriminate]. intros Hs. exfalso. revert Hs.
    unfold wire_bytes.
    rewrite wire_tail_later by (cbn [at_frame update frame_number]; lia).
    rewrite !app_assoc. apply not_newline_animate.
Qed.

(** C7. A call that fits the buffer sends, after the bytes printed ahead
    of the encoding, a first chunk whose header is the first-chunk header
    of the frame, then the remaining chunks, then the tail of the frame;
    the image identifier is kept and the counter goes up by one. For
    frame 0 the first header is the create command [a=T] with the
    identifier, the pixel dimensions, the quiet level and the placement in
    columns and rows, and the tail is the newline CR LF. For every later
    frame the first header is the update command [a=f] for the same
    identifier, the tail is the animate command [a=a] for it, and the
    output does not end in the newline. Over any run of fewer than 2^31
    calls from a new renderer, every call returns with one output, the
    identifier never changes, and the number of calls that ended in the
    newline is 0 as long as frame 0 has not been rendered and exactly 1
    from then on. When the renderer is one that [renderer_create] made
    and the encodings have the standard length or less, no frame of the
    run is dropped: call [n] sends frame [n], the counter ends at the
    number of frames, and the output of call 0, and of no other call,
    ends in the newline, so the newline is sent exactly once as soon as
    one frame has been rendered. *)
Theorem render_create_then_update :
  forall (r r0 : renderer) (rgb24_frame : list byte) (fs : list (list byte)),
    well_sized r rgb24_frame ->
    encoded_of rgb24_frame <> [] ->
    wire_need r (encoded_of rgb24_frame) <= protocol_buffer_size r ->
    (0 <= frame_number r < INT_MAX)%Z ->
    frame_number r0 = 0%Z ->
    Forall (well_sized r0) fs ->
    (Z.of_nat (length fs) < 2 ^ 31)%Z ->
    let enc := encoded_of rgb24_frame in
    let more := 1 <? nchunks (length enc) in
    (exists r' rest,
       renderer_render_frame r rgb24_frame =
         Returned r'
           (home r ++
            (header_at r 0 more ++ payload_chunk enc 0 ++ trailer) ++
            rest ++ wire_tail r) [] /\
       kitty_id r' = kitty_id r /\
       frame_number r' = (frame_number r + 1)%Z /\
       (frame_number r = 0%Z ->
          home r = cursor_home /\
          header_at r 0 more = header_create r more /\
          wire_tail r = newline) /\
       ((0 < frame_number r)%Z ->
          home r = [] /\
          header_at r 0 more = header_update r more /\
          wire_tail r = animate_command r /\
          ~ newline `suffix_of`
              (home r ++
               (header_at r 0 more ++ payload_chunk enc 0 ++ trailer) ++
               rest ++ wire_tail r))) /\
    header_create r more =
      [ESC] ++ bytes "_Ga=T,i=" ++ fmt_d (kitty_id r) ++
      bytes ",f=24,s=320,v=200,q=2,c=" ++ fmt_d (screen_cols r) ++
      bytes ",r=" ++ fmt_d (screen_rows r) ++
      bytes ",m=" ++ bytes (if more then "1" else "0") ++ bytes ";" /\
    header_update r more =
      [ESC] ++ bytes "_Ga=f,r=1,i=" ++ fmt_d (kitty_id r) ++
      bytes ",f=24,x=0,y=0,s=320,v=200,m=" ++
      bytes (if more then "1" else "0") ++ bytes ";" /\
    animate_command r =
      [ESC] ++ bytes "_Ga=a,c=1,i=" ++ fmt_d (kitty_id r) ++ bytes ";" ++
      [ESC] ++ bytes "\" /\
    newline = [x0d; x0a] /\
    newlines (render_frames r0 fs).2 =
      (if (frame_number (render_frames r0 fs).1 =? 0)%Z then 0 else 1) /\
    kitty_id (render_frames r0 fs).1 = kitty_id r0 /\
    length (render_frames r0 fs).2 = length fs /\
    (created r0 -> Forall frame_ok fs ->
       (render_frames r0 fs).2 =
         imap (fun n f =>
                 home (at_frame r0 n) ++
                 wire_bytes (at_frame r0 n) (encoded_of f)) fs /\
       frame_number (render_frames r0 fs).1 = Z.of_nat (length fs) /\
       newlines (render_frames r0 fs).2 =
         match fs with [] => 0 | _ :: _ => 1 end /\
       (forall n out,
          (render_frames r0 fs).2 !! n = Some out ->
          (newline `suffix_of` out <-> n = 0))).
Proof.
  intros r r0 frame fs Hw Hne Hfit Hrange Hz Hall Hlen enc more.
  destruct (render_frame_spec r frame Hw) as (eb & _ & _ & Hok & _).
  destruct (Hok Hfit) as (buf & E & _ & _).
  destruct (wire_body_first r enc Hne) as [rest Hrest].
  destruct (render_frames_first fs r0 Hz Hlen Hall) as (N1 & _ & N3).
  split; [|split; [|split; [|split; [|split; [|split; [|split;
    [|split]]]]]]].
  - exists (update r eb buf (wrap_int (frame_number r + 1))), rest.
    split.
    { rewrite E. unfold wire_bytes. fold enc. rewrite Hrest.
      rewrite <- !app_assoc. reflexivity. }
    split; [reflexivity|]. split.
    { cbn [frame_number update]. apply wrap_int_succ.
      unfold INT_MAX in *. lia. }
    split.
    + intros H0. unfold home, header_at. rewrite H0.
      split; [reflexivity|]. split; [reflexivity|].
      apply wire_tail_first, H0.
    + intros Hpos.
      assert (Hh : home r = []).
      { unfold home.
        destruct (Z.eqb_spec (frame_number r) 0); [lia | reflexivity]. }
      assert (Hhd : header_at r 0 more = header_update r more).
      { unfold header_at. cbn [Nat.eqb].
        destruct (Z.eqb_spec (frame_number r) 0); [lia | reflexivity]. }
      split; [exact Hh|]. split; [exact Hhd|].
      rewrite wire_tail_later by exact Hpos.
      split; [reflexivity|].
      rewrite !app_assoc. apply not_newline_animate.
  - unfold header_create. destruct more; reflexivity.
  - unfold header_update. destruct more; reflexivity.
  - reflexivity.
  - reflexivity.
  - exact N1.
  - exact N3.
  - apply render_frames_length, Hall.
  - intros Hcr Hframes.
    destruct (render_frames_created r0 fs r0 0 Hcr eq_refl eq_refl eq_refl
                Hz Hframes)
      as (Eo & Ef); [unfold INT_MAX; cbn [Nat.add]; lia|].
    cbn [Nat.add] in Ef.
    split; [exact Eo|]. split; [exact Ef|]. split.
    + rewrite N1, Ef. destruct fs; reflexivity.
    + intros n out Hn. rewrite Eo, list_lookup_imap in Hn.
      destruct (fs !! n) as [f|]; [|discriminate Hn].
      cbn in Hn. injection Hn as <-. apply frame_output_newline.
Qed.

(** ** A created renderer has room for every frame *)

(** A renderer made by [renderer_create] never drops a frame: the
    protocol buffer of 280 KiB has room for every frame whose encoding is
    no longer than four bytes for each three of the bitmap. *)
Lemma created_renders r frame :
  created r ->
  WIDTH * HEIGHT * 3 <= length frame ->
  length (encoded_of frame) <= 4 * (WIDTH * HEIGHT) ->
  exists r',
    renderer_render_frame r frame =
      Returned r' (home r ++ wire_bytes r (encoded_of frame)) [] /\
    created r' /\
    frame_number r' = wrap_int (frame_number r + 1).
Proof.
  intros Hcr Hframe Henc.
  pose proof Hcr as (_ & _ & _ & _ & Hp & He).
  assert (Hw : well_sized r frame).
  { split; [exact Hframe|]. split; [|exact Hp].
    rewrite He. unfold WIDTH, HEIGHT in *.
    pose proof (Nat.div_mod_eq (320 * 200 * 3 + 2) 3).
    pose proof (Nat.mod_upper_bound (320 * 200 * 3 + 2) 3 ltac:(lia)). lia. }
  destruct (render_frame_spec r frame Hw)
    as (eb & Le & _ & Hok & _).
  destruct (Hok (created_fits r _ Hcr Henc)) as (buf & E & Lb & _).
  eexists. split; [exact E|]. split; [|reflexivity].
  apply created_update; assumption.
Qed.

End Encoder.

(** ** Concrete renderers and frames *)

(** A black frame of 320 x 200 pixels. *)
Definition black_frame : list byte := replicate (WIDTH * HEIGHT * 3) x00.

(** A renderer whose protocol buffer has room for sixteen bytes. *)
Definition tiny_renderer : renderer :=
  {| screen_rows := 24;
     screen_cols := 80;
     kitty_id := 12345;
     frame_number := 0;
     encoded_buffer_size := 4 * ((WIDTH * HEIGHT * 3 + 2) / 3) + 1;
     protocol_buffer := replicate 16 x00;
     protocol_buffer_size := 16;
     encoded_buffer := replicate (4 * ((WIDTH * HEIGHT * 3 + 2) / 3) + 1) x00 |}.

(** The renderer [renderer_create] returns for an 80 x 24 terminal. *)
Definition fresh_renderer : renderer :=
  (renderer_create 24 80 12345 (bytes "Scalar")).1.

Lemma renderer_create_created rows cols rand impl_name :
  int_range rand -> int_range cols -> int_range rows ->
  created (renderer_create rows cols rand impl_name).1.
Proof.
  intros Hi Hc Hr. unfold created.
  cbn [renderer_create fst kitty_id screen_cols screen_rows
       protocol_buffer_size protocol_buffer encoded_buffer].
  rewrite !length_replicate. auto 10.
Qed.

(** The standard encoding of a frame has four bytes for every pixel. *)
Lemma rfc4648_frame_length frame :
  WIDTH * HEIGHT * 3 <= length frame ->
  length (encoded_of Base64.base64_encode frame) = 4 * (WIDTH * HEIGHT).
Proof.
  intros H. unfold encoded_of. apply Base64.base64_encode_length_3.
  rewrite length_take. lia.
Qed.

(** With the standard encoding the renderer of an 80 x 24 terminal renders
    every frame. *)
Lemma fresh_renderer_renders frame :
  WIDTH * HEIGHT * 3 <= length frame ->
  exists r',
    renderer_render_frame Base64.base64_encode fresh_renderer frame =
      Returned r'
        (home fresh_renderer ++
         wire_bytes fresh_renderer (encoded_of Base64.base64_encode frame))
        [].
Proof.
  intros Hf.
  destruct (created_renders Base64.base64_encode fresh_renderer frame)
    as (r' & E & _); [| exact Hf | | exists r'; exact E].
  - apply renderer_create_created; unfold int_range, INT_MIN, INT_MAX; lia.
  - rewrite rfc4648_frame_length by exact Hf. lia.
Qed.

Lemma black_frame_encoded_length :
  length (encoded_of Base64.base64_encode black_frame) =
  4 * (WIDTH * HEIGHT).
Proof.
  unfold encoded_of. apply Base64.base64_encode_length_3.
  unfold black_frame. rewrite take_ge by (rewrite length_replicate; lia).
  rewrite length_replicate. apply Nat.mul_comm.
Qed.

Lemma tiny_well_sized :
  well_sized Base64.base64_encode tiny_renderer black_frame.
Proof.
  split; [|split].
  - unfold black_frame. rewrite length_replicate. lia.
  - rewrite black_frame_encoded_length. cbn [tiny_renderer encoded_buffer].
    rewrite length_replicate. apply Nat.ltb_lt. vm_compute. reflexivity.
  - reflexivity.
Defined.

Lemma fresh_well_sized :
  well_sized Base64.base64_encode fresh_renderer black_frame.
Proof.
  split; [|split].
  - unfold black_frame. rewrite length_replicate. lia.
  - rewrite black_frame_encoded_length.
    cbn [fresh_renderer renderer_create fst encoded_buffer].
    rewrite length_replicate. apply Nat.ltb_lt. vm_compute. reflexivity.
  - cbn [fresh_renderer renderer_create fst protocol_buffer
         protocol_buffer_size].
    apply length_replicate.
Defined.

Lemma fresh_fits :
  wire_need fresh_renderer (encoded_of Base64.base64_encode black_frame) <=
  protocol_buffer_size fresh_renderer.
Proof. apply Nat.leb_le. vm_compute. reflexivity. Defined.

Lemma black_frame_encoded_nonempty :
  encoded_of Base64.base64_encode black_frame <> [].
Proof.
  intros H. apply (f_equal length) in H.
  rewrite black_frame_encoded_length in H. cbn [length] in H.
  unfold WIDTH, HEIGHT in H. lia.
Defined.

Lemma render_chunks_payload_witness :
  let enc := encoded_of Base64.base64_encode black_frame in
  let k := nchunks (length enc) in
  (exists r',
     renderer_render_frame Base64.base64_encode fresh_renderer black_frame =
       Returned r'
         (home fresh_renderer ++
          concat (map (wire_chunk fresh_renderer enc) (seq 0 k)) ++
          wire_tail fresh_renderer) []) /\
  concat (map (payload_chunk enc) (seq 0 k)) = enc /\
  (forall i, S i < k -> length (payload_chunk enc i) = 4096) /\
  (forall i, S i = k -> 0 < length (payload_chunk enc i) <= 4096).
Proof.
  pose proof (render_chunks_payload Base64.base64_encode fresh_renderer
                black_frame fresh_well_sized fresh_fits) as H.
  cbv zeta in H. cbv zeta.
  destruct H as (H1 & H2 & H3 & H4 & _).
  exact (conj H1 (conj H2 (conj H3 H4))).
Defined.

Lemma fresh_renderer_created : created fresh_renderer.
Proof.
  apply renderer_create_created; unfold int_range, INT_MIN, INT_MAX; lia.
Defined.

Lemma black_frame_ok : frame_ok Base64.base64_encode black_frame.
Proof.
  split.
  - unfold black_frame. rewrite length_replicate. lia.
  - rewrite black_frame_encoded_length. lia.
Defined.

Lemma render_create_then_update_witness :
  (exists r' rest,
     renderer_render_frame Base64.base64_encode fresh_renderer black_frame =
       Returned r'
         (cursor_home ++
          (header_create fresh_renderer true ++
           payload_chunk (encoded_of Base64.base64_encode black_frame) 0 ++
           trailer) ++
          rest ++ newline) [] /\
     kitty_id r' = kitty_id fresh_renderer /\
     frame_number r' = 1%Z) /\
  newlines (render_frames Base64.base64_encode fresh_renderer
              [black_frame; black_frame]).2 =
    (if (frame_number (render_frames Base64.base64_encode fresh_renderer
                         [black_frame; black_frame]).1 =? 0)%Z
     then 0 else 1) /\
  length (render_frames Base64.base64_encode fresh_renderer
            [black_frame; black_frame]).2 = 2 /\
  frame_number (render_frames Base64.base64_encode fresh_renderer
                  [black_frame; black_frame]).1 = 2%Z /\
  newlines (render_frames Base64.base64_encode fresh_renderer
              [black_frame; black_frame]).2 = 1 /\
  (forall n out,
     (render_frames Base64.base64_encode fresh_renderer
        [black_frame; black_frame]).2 !! n = Some out ->
     (newline `suffix_of` out <-> n = 0)).
Proof.
  pose proof (render_create_then_update Base64.base64_encode
                fresh_renderer fresh_renderer black_frame
                [black_frame; black_frame]
                fresh_well_sized black_frame_encoded_nonempty fresh_fits
                ltac:(vm_compute; split; [discriminate | reflexivity])
                eq_refl
                (Forall_cons_2 _ _ _ fresh_well_sized
                   (Forall_cons_2 _ _ _ fresh_well_sized (Forall_nil_2 _)))
                ltac:(vm_compute; reflexivity)) as H.
  cbv zeta in H.
  destruct H
    as ((r' & rest & E & K & F & H0 & _) & _ & _ & _ & _ & N & _ & L & R).
  destruct (R fresh_renderer_created
              (Forall_cons_2 _ _ _ black_frame_ok
                 (Forall_cons_2 _ _ _ black_frame_ok (Forall_nil_2 _))))
    as (_ & R2 & R3 & R4).
  destruct (H0 eq_refl) as (Hh & Hc & Ht).
  assert (Hmore : (1 <? nchunks (length (encoded_of Base64.base64_encode
                                            black_frame))) = true).
  { rewrite black_frame_encoded_length. vm_compute. reflexivity. }
  rewrite Hh, Hc, Ht, Hmore in E.
  split; [|split; [exact N|split; [exact L|split; [exact R2|
          split; [exact R3 | exact R4]]]]].
  exists r', rest. split; [exact E|]. split; [exact K | exact F].
Defined.

Lemma tiny_too_small :
  protocol_buffer_size tiny_renderer <
  wire_need tiny_renderer (encoded_of Base64.base64_encode black_frame).
Proof. apply Nat.ltb_lt. vm_compute. reflexivity. Qed.

(** The claim C5 fails on the first frame: the frame is dropped, and
    stdout has received ESC [ H. *)
Lemma render_drop_first_frame_writes_home :
  exists r' e,
    renderer_render_frame Base64.base64_encode tiny_renderer black_frame =
      Returned r' cursor_home [e] /\
    cursor_home <> [].
Proof.
  destruct (render_frame_returns _ _ _ tiny_well_sized)
    as (eb & buf & n & out & errs & E & _ & _ & _ & Hcase).
  destruct Hcase as [(_ & (e & ->) & -> & ->) | (Hle & _)].
  - exists (update tiny_renderer eb buf (frame_number tiny_renderer)), e.
    split; [exact E | discriminate].
  - pose proof tiny_too_small. lia.
Qed.

Lemma render_drop_sends_no_frame_witness :
  exists r' out errs,
    renderer_render_frame Base64.base64_encode tiny_renderer black_frame =
      Returned r' out errs /\
    length (protocol_buffer r') = length (protocol_buffer tiny_renderer) /\
    length (encoded_buffer r') = length (encoded_buffer tiny_renderer) /\
    (protocol_buffer_size tiny_renderer <
       wire_need tiny_renderer
         (encoded_of Base64.base64_encode black_frame) <->
     errs <> []) /\
    (errs <> [] ->
       (exists e, errs = [e]) /\
       out = (if (frame_number tiny_renderer =? 0)%Z
              then cursor_home else [])).
Proof.
  apply (render_drop_sends_no_frame Base64.base64_encode tiny_renderer
           black_frame).
  exact tiny_well_sized.
Defined.

(** The claim C10 fails on the encode buffer: after the dropped frame it
    holds the base64 text of that frame, not what it held before. *)
Lemma render_drop_overwrites_encoded_buffer :
  exists r' out e,
    renderer_render_frame Base64.base64_encode tiny_renderer black_frame =
      Returned r' out [e] /\
    encoded_buffer r' !! 0 = Some "A"%byte /\
    encoded_buffer tiny_renderer !! 0 = Some x00 /\
    r' <> tiny_renderer.
Proof.
  destruct (render_frame_returns _ _ _ tiny_well_sized)
    as (eb & buf & n & out & errs & E & _ & _ & Teb & Hcase).
  destruct Hcase as [(_ & (e & ->) & -> & ->) | (Hle & _)].
  2:{ pose proof tiny_too_small. lia. }
  exists (update tiny_renderer eb buf (frame_number tiny_renderer)),
    (home tiny_renderer), e.
  assert (H0 : eb !! 0 = Some "A"%byte).
  { apply (f_equal (fun l => l !! 0)) in Teb.
    rewrite black_frame_encoded_length, lookup_take_lt in Teb
      by (unfold lt; apply Nat.leb_le; vm_compute; reflexivity).
    rewrite Teb. vm_compute. reflexivity. }
  split; [exact E|]. split; [exact H0|]. split; [reflexivity|].
  intros Heq. apply (f_equal (fun r => encoded_buffer r !! 0)) in Heq.
  cbn [encoded_buffer update] in Heq. rewrite H0 in Heq.
  vm_compute in Heq. discriminate Heq.
Qed.

Lemma render_drop_keeps_scalars_witness :
  exists r' out errs eb buf,
    renderer_render_frame Base64.base64_encode tiny_renderer black_frame =
      Returned r' out errs /\
    length eb = length (encoded_buffer tiny_renderer) /\
    length buf = length (protocol_buffer tiny_renderer) /\
    take (length (encoded_of Base64.base64_encode black_frame)) eb =
      encoded_of Base64.base64_encode black_frame /\
    (errs <> [] ->
       r' = update tiny_renderer eb buf (frame_number tiny_renderer) /\
       frame_number r' = frame_number tiny_renderer /\
       kitty_id r' = kitty_id tiny_renderer /\
       screen_rows r' = screen_rows tiny_renderer /\
       screen_cols r' = screen_cols tiny_renderer /\
       encoded_buffer_size r' = encoded_buffer_size tiny_renderer /\
       protocol_buffer_size r' = protocol_buffer_size tiny_renderer /\
       (forall off more,
          header_at r' off more = header_at tiny_renderer off more) /\
       home r' = home tiny_renderer /\
       wire_tail r' = wire_tail tiny_renderer) /\
    (errs = [] ->
       r' = update tiny_renderer eb buf
              (wrap_int (frame_number tiny_renderer + 1)) /\
       kitty_id r' = kitty_id tiny_renderer /\
       screen_rows r' = screen_rows tiny_renderer /\
       screen_cols r' = screen_cols tiny_renderer /\
       encoded_buffer_size r' = encoded_buffer_size tiny_renderer /\
       protocol_buffer_size r' = protocol_buffer_size tiny_renderer /\
       ((- 2 ^ 31 <= frame_number tiny_renderer < INT_MAX)%Z ->
        frame_number r' = (frame_number tiny_renderer + 1)%Z)).
Proof.
  apply (render_drop_keeps_scalars Base64.base64_encode tiny_renderer
           black_frame).
  exact tiny_well_sized.
Defined.

(** ** A session: create, render, destroy *)

(** [renderer_destroy]: the bytes printed to stdout; nothing for a null
    pointer. *)
Definition renderer_destroy (r : option renderer) : list byte :=
  match r with
  | None => []
  | Some r =>
      [ESC] ++ bytes "_Ga=d,i=" ++ fmt_d (kitty_id r) ++ bytes ";" ++
      [ESC] ++ bytes "\" ++
      [ESC] ++ bytes "[H" ++ [ESC] ++ bytes "[2J" ++
      [ESC] ++ bytes "]21" ++ [ESC] ++ bytes "\"
  end.

Section Session.

Variable base64_encode_auto : list byte -> list byte.

(** The calls of [renderer_render_frame] for the frames [fs] in turn:
    the renderer at the end, all of stdout and all of stderr; [None] when
    a call does not return. *)
Fixpoint render_all (r : renderer) (fs : list (list byte))
  : option (renderer * list byte * list render_error) :=
  match fs with
  | [] => Some (r, [], [])
  | f :: fs =>
      match renderer_render_frame base64_encode_auto r f with
      | Returned r' out errs =>
          match render_all r' fs with
          | Some (r_end, outs, errss) =>
              Some (r_end, out ++ outs, errs ++ errss)
          | None => None
          end
      | _ => None
      end
  end.

(** What reaches stderr: a line of text, or the message of a frame that
    was abandoned. *)
Inductive stderr_message :=
| Text (line : list byte)
| FrameError (e : render_error).

(** [renderer_create], the frames, [renderer_destroy]: stdout and
    stderr of the whole session, in a build without [ENABLE_PROFILING]
    and with a stdout that takes every byte. *)
Definition session (screen_rows screen_cols rand : Z)
    (impl_name : list byte) (fs : list (list byte))
  : option (list byte * list stderr_message) :=
  let '(r, (out0, err0)) :=
    renderer_create screen_rows screen_cols rand impl_name in
  match render_all r fs with
  | Some (r_end, out, errs) =>
      Some (out0 ++ out ++ renderer_destroy (Some r_end),
            Text err0 :: map FrameError errs)
  | None => None
  end.

Lemma session_unfold screen_rows screen_cols rand impl_name fs :
  session screen_rows screen_cols rand impl_name fs =
  match
    render_all (renderer_create screen_rows screen_cols rand impl_name).1
      fs
  with
  | Some (r_end, out, errs) =>
      Some ((renderer_create screen_rows screen_cols rand impl_name).2.1 ++
            out ++ renderer_destroy (Some r_end),
            Text (renderer_create screen_rows screen_cols rand
                    impl_name).2.2 ::
            map FrameError errs)
  | None => None
  end.
Proof. reflexivity. Qed.

Lemma render_all_created r0 fs : forall r k,
  created r ->
  kitty_id r = kitty_id r0 -> screen_cols r = screen_cols r0 ->
  screen_rows r = screen_rows r0 -> frame_number r = Z.of_nat k ->
  Forall (frame_ok base64_encode_auto) fs ->
  (Z.of_nat (k + length fs) <= INT_MAX)%Z ->
  exists r_end,
    render_all r fs =
      Some (r_end,
            concat (imap (fun n f =>
                      home (at_frame r0 (k + n)) ++
                      wire_bytes (at_frame r0 (k + n))
                        (encoded_of base64_encode_auto f)) fs),
            []) /\
    kitty_id r_end = kitty_id r0.
Proof.
  induction fs as [|f fs IH]; intros r k Hcr Hi Hc Hr Hn Hfs Hlen.
  - exists r. split; [reflexivity | exact Hi].
  - apply Forall_cons in Hfs as [(Hf & Henc) Hfs].
    cbn [length] in Hlen.
    pose proof Hcr as (_ & _ & _ & _ & Hp & He).
    assert (Hw : well_sized base64_encode_auto r f).
    { split; [exact Hf|]. split; [|exact Hp].
      rewrite He. unfold WIDTH, HEIGHT in *.
      pose proof (Nat.div_mod_eq (320 * 200 * 3 + 2) 3).
      pose proof (Nat.mod_upper_bound (320 * 200 * 3 + 2) 3 ltac:(lia)).
      lia. }
    pose proof (created_fits r _ Hcr Henc) as Hfit.
    destruct (render_frame_returns base64_encode_auto r f Hw)
      as (eb & buf & n & out & errs & E & Le & Lb & _ & [Hd | Hs]);
      [lia|].
    destruct Hs as (_ & -> & -> & ->).
    assert (Hnext : wrap_int (frame_number r + 1) = Z.of_nat (S k)).
    { rewrite Hn, wrap_int_succ by (unfold INT_MAX in *; lia). lia. }
    destruct (IH (update r eb buf (wrap_int (frame_number r + 1))) (S k))
      as (r_end & Eall & Hid).
    + apply created_update; [exact Le | lia | exact Hcr].
    + exact Hi.
    + exact Hc.
    + exact Hr.
    + exact Hnext.
    + exact Hfs.
    + rewrite <- Hlen. f_equal. lia.
    + exists r_end. split; [|exact Hid].
      cbn [render_all]. rewrite E, Eall.
      destruct (wire_of_scalars r r0 k (encoded_of base64_encode_auto f)
                  Hi Hc Hr Hn) as (-> & ->).
      cbn [imap concat app]. rewrite Nat.add_0_r.
      do 5 f_equal. apply imap_ext. intros n g _. cbn.
      replace (k + S n) with (S (k + n)) by lia. reflexivity.
Qed.

(** X3. A session on a renderer made by [renderer_create] loses no frame.
    For every list of at most [INT_MAX] whole frames whose encodings have
    the standard length or less, every call of [renderer_render_frame]
    returns and no frame is abandoned: stderr holds the one line
    [Base64 implementation: <name>] that [renderer_create] prints and
    nothing else, and stdout holds, in order: the title and clear-screen
    bytes of [renderer_create]; for each frame the bytes of that frame,
    the first one as frame 0 after a cursor-home, frame [n] as an update;
    and the bytes of [renderer_destroy], which delete the image under the
    identifier every frame was sent with. *)
Theorem session_sends_every_frame (screen_rows screen_cols rand : Z)
    (impl_name : list byte) (fs : list (list byte)) :
  int_range rand -> int_range screen_cols -> int_range screen_rows ->
  Forall (frame_ok base64_encode_auto) fs ->
  (Z.of_nat (length fs) <= INT_MAX)%Z ->
  let r0 := (renderer_create screen_rows screen_cols rand impl_name).1 in
  session screen_rows screen_cols rand impl_name fs =
    Some (([ESC] ++ bytes "]21;Kitty DOOM" ++ [ESC] ++ bytes "\" ++
           [ESC] ++ bytes "[2J" ++ [ESC] ++ bytes "[H") ++
          concat (imap (fun n f =>
                    home (at_frame r0 n) ++
                    wire_bytes (at_frame r0 n)
                      (encoded_of base64_encode_auto f)) fs) ++
          renderer_destroy (Some r0),
          [Text (bytes "Base64 implementation: " ++ impl_name ++ [x0a])]).
Proof.
  intros Hi Hc Hr Hfs Hlen r0. subst r0.
  set (r0 := (renderer_create screen_rows screen_cols rand impl_name).1).
  destruct (render_all_created r0 fs r0 0) as (r_end & E & Hid);
    try reflexivity; try assumption.
  - apply renderer_create_created; assumption.
  - rewrite session_unfold. fold r0. rewrite E.
    unfold renderer_destroy. rewrite Hid. reflexivity.
Qed.

End Session.

(** Two black frames on an 80 x 24 terminal, with the standard
    encoding. *)
Lemma session_sends_every_frame_witness :
  session Base64.base64_encode 24 80 12345 (bytes "Scalar")
    [black_frame; black_frame] =
    Some (([ESC] ++ bytes "]21;Kitty DOOM" ++ [ESC] ++ bytes "\" ++
           [ESC] ++ bytes "[2J" ++ [ESC] ++ bytes "[H") ++
          concat (imap (fun n f =>
                    home (at_frame fresh_renderer n) ++
                    wire_bytes (at_frame fresh_renderer n)
                      (encoded_of Base64.base64_encode f))
                    [black_frame; black_frame]) ++
          renderer_destroy (Some fresh_renderer),
          [Text (bytes "Base64 implementation: " ++ bytes "Scalar" ++
                 [x0a])]).
Proof.
  apply (session_sends_every_frame Base64.base64_encode 24 80 12345
           (bytes "Scalar") [black_frame; black_frame]).
  - unfold int_range, INT_MIN, INT_MAX. lia.
  - unfold int_range, INT_MIN, INT_MAX. lia.
  - unfold int_range, INT_MIN, INT_MAX. lia.
  - assert (Hb : frame_ok Base64.base64_encode black_frame).
    { split.
      - unfold black_frame. rewrite length_replicate. lia.
      - rewrite black_frame_encoded_length. lia. }
    exact (Forall_cons_2 _ _ _ Hb (Forall_cons_2 _ _ _ Hb (Forall_nil_2 _))).
  - unfold INT_MAX. cbn. lia.
Defined.

End Render.

(* ================================================================== *)
(** * Input parser and key hold (src/input.c)                          *)
(* ================================================================== *)

Module Input.

Local Open Scope Z_scope.

Definition MAX_PARMS : nat := 32.
Definition MAX_PENDING_RELEASES : nat := 16.
Definition MAX_KEY_CODE : Z := 256.

(** What the build brings in from outside the sources at hand: the key
    codes of PureDOOM.h, and whether plain [char] is signed (x86-64) or
    unsigned (AArch64 Linux). *)
Class Target := {
  DOOM_KEY_ENTER : Z;
  DOOM_KEY_CTRL : Z;
  DOOM_KEY_SHIFT : Z;
  DOOM_KEY_ALT : Z;
  DOOM_KEY_UP_ARROW : Z;
  DOOM_KEY_DOWN_ARROW : Z;
  DOOM_KEY_LEFT_ARROW : Z;
  DOOM_KEY_RIGHT_ARROW : Z;
  DOOM_KEY_F1 : Z;
  DOOM_KEY_F2 : Z;
  DOOM_KEY_F3 : Z;
  DOOM_KEY_F4 : Z;
  DOOM_KEY_F5 : Z;
  DOOM_KEY_F6 : Z;
  DOOM_KEY_F7 : Z;
  DOOM_KEY_F8 : Z;
  DOOM_KEY_F9 : Z;
  DOOM_KEY_F10 : Z;
  DOOM_KEY_F11 : Z;
  DOOM_KEY_F12 : Z;
  char_signed : bool
}.

(** A character constant as an [int]. *)
Definition chr (a : ascii) : Z := Z.of_nat (nat_of_ascii a).

Inductive parser_state_t := STATE_GROUND | STATE_ESC | STATE_SS3 | STATE_CSI.

Record timespec := { tv_sec : Z; tv_nsec : Z }.

Record pending_release_t := { key : Z; release_time : timespec }.

Record mouse_state_t := {
  last_x : Z;
  last_y : Z;
  tracking : bool;
  buttons : list bool
}.

(** The calls into the engine: [doom_key_down], [doom_key_up] and
    [doom_mouse_move]. *)
Inductive event :=
| doom_key_down (k : Z)
| doom_key_up (k : Z)
| doom_mouse_move (dx dy : Z).

(** The parameter accumulator of the CSI state. *)
Record params_t := {
  parms : list Z;
  parm : Z;
  parm_count : nat;
  parm_prefix : Z
}.

(** The replies to device queries. *)
Record query_t := {
  device_attributes : option (list Z);
  da_count : nat;
  has_cell_size : bool;
  cell_size : Z * Z;
  has_cursor_pos : bool;
  cursor_pos : Z * Z
}.

(** [struct input] as the input thread sees it (its fields for the
    parameters and for the query replies are grouped in two records; the
    thread handle, the mutexes and the condition variables have no part
    in what one thread computes). [pending_releases] is the used part
    [0 .. pending_count - 1] of the array, so [pending_count] is its
    length. The last three fields are the world around the thread: the
    calls made into the engine so far, and the monotonic clock as the
    sequence of its readings with the number of readings taken. *)
Record input := {
  exit_requested : bool;
  state : parser_state_t;
  params : params_t;
  query : query_t;
  pending_releases : list pending_release_t;
  held_keys_bitmap : list Z;
  esc_time : timespec;
  esc_waiting : bool;
  mouse : mouse_state_t;
  trace : list event;
  clock : nat -> timespec;
  clock_reads : nat
}.

Definition pending_count (i : input) : nat := length (pending_releases i).

(** ** Assignments to one field *)

Definition set_exit_requested (v : bool) (i : input) : input :=
  {| exit_requested := v; state := state i; params := params i;
     query := query i; pending_releases := pending_releases i;
     held_keys_bitmap := held_keys_bitmap i; esc_time := esc_time i;
     esc_waiting := esc_waiting i; mouse := mouse i; trace := trace i;
     clock := clock i; clock_reads := clock_reads i |}.

Definition set_state (v : parser_state_t) (i : input) : input :=
  {| exit_requested := exit_requested i; state := v; params := params i;
     query := query i; pending_releases := pending_releases i;
     held_keys_bitmap := held_keys_bitmap i; esc_time := esc_time i;
     esc_waiting := esc_waiting i; mouse := mouse i; trace := trace i;
     clock := clock i; clock_reads := clock_reads i |}.

Definition set_params (v : params_t) (i : input) : input :=
  {| exit_requested := exit_requested i; state := state i; params := v;
     query := query i; pending_releases := pending_releases i;
     held_keys_bitmap := held_keys_bitmap i; esc_time := esc_time i;
     esc_waiting := esc_waiting i; mouse := mouse i; trace := trace i;
     clock := clock i; clock_reads := clock_reads i |}.

Definition set_query (v : query_t) (i : input) : input :=
  {| exit_requested := exit_requested i; state := state i;
     params := params i; query := v;
     pending_releases := pending_releases i;
     held_keys_bitmap := held_keys_bitmap i; esc_time := esc_time i;
     esc_waiting := esc_waiting i; mouse := mouse i; trace := trace i;
     clock := clock i; clock_reads := clock_reads i |}.

Definition set_pending_releases (v : list pending_release_t) (i : input)
  : input :=
  {| exit_requested := exit_requested i; state := state i;
     params := params i; query := query i; pending_releases := v;
     held_keys_bitmap := held_keys_bitmap i; esc_time := esc_time i;
     esc_waiting := esc_waiting i; mouse := mouse i; trace := trace i;
     clock := clock i; clock_reads := clock_reads i |}.

Definition set_held_keys_bitmap (v : list Z) (i : input) : input :=
  {| exit_requested := exit_requested i; state := state i;
     params := params i; query := query i;
     pending_releases := pending_releases i; held_keys_bitmap := v;
     esc_time := esc_time i; esc_waiting := esc_waiting i;
     mouse := mouse i; trace := trace i; clock := clock i;
     clock_reads := clock_reads i |}.

Definition set_esc (t : timespec) (waiting : bool) (i : input) : input :=
  {| exit_requested := exit_requested i; state := state i;
     params := params i; query := query i;
     pending_releases := pending_releases i;
     held_keys_bitmap := held_keys_bitmap i; esc_time := t;
     esc_waiting := waiting; mouse := mouse i; trace := trace i;
     clock := clock i; clock_reads := clock_reads i |}.

Definition set_mouse (v : mouse_state_t) (i : input) : input :=
  {| exit_requested := exit_requested i; state := state i;
     params := params i; query := query i;
     pending_releases := pending_releases i;
     held_keys_bitmap := held_keys_bitmap i; esc_time := esc_time i;
     esc_waiting := esc_waiting i; mouse := v; trace := trace i;
     clock := clock i; clock_reads := clock_reads i |}.

(** A call into the engine. *)
Definition emit (e : event) (i : input) : input :=
  {| exit_requested := exit_requested i; state := state i;
     params := params i; query := query i;
     pending_releases := pending_releases i;
     held_keys_bitmap := held_keys_bitmap i; esc_time := esc_time i;
     esc_waiting := esc_waiting i; mouse := mouse i;
     trace := trace i ++ [e];
     clock := clock i; clock_reads := clock_reads i |}.

(** [clock_gettime (CLOCK_MONOTONIC, &now)]: the next reading. *)
Definition clock_gettime (i : input) : timespec * input :=
  (clock i (clock_reads i),
   {| exit_requested := exit_requested i; state := state i;
      params := params i; query := query i;
      pending_releases := pending_releases i;
      held_keys_bitmap := held_keys_bitmap i; esc_time := esc_time i;
      esc_waiting := esc_waiting i; mouse := mouse i; trace := trace i;
      clock := clock i; clock_reads := S (clock_reads i) |}).

(** ** The held-key bitmap *)

Definition out_of_range (key : Z) : bool :=
  (key <? 0) || (MAX_KEY_CODE <=? key).

(** [mark_key_held] *)
Definition mark_key_held (key : Z) (i : input) : input :=
  if out_of_range key then i
  else
    let word := Z.to_nat (Z.quot key 64) in
    let bit := Z.rem key 64 in
    set_held_keys_bitmap
      (<[word := Z.lor (held_keys_bitmap i !!! word) (Z.shiftl 1 bit)]>
         (held_keys_bitmap i)) i.

(** [mark_key_released]; the complement is taken on 64 bits. *)
Definition mark_key_released (key : Z) (i : input) : input :=
  if out_of_range key then i
  else
    let word := Z.to_nat (Z.quot key 64) in
    let bit := Z.rem key 64 in
    set_held_keys_bitmap
      (<[word := Z.land (held_keys_bitmap i !!! word)
                   (Z.lxor (Z.ones 64) (Z.shiftl 1 bit))]>
         (held_keys_bitmap i)) i.

(** [is_key_held] *)
Definition is_key_held (i : input) (key : Z) : bool :=
  if out_of_range key then false
  else
    let word := Z.to_nat (Z.quot key 64) in
    let bit := Z.rem key 64 in
    let bitmap_word := held_keys_bitmap i !!! word in
    negb (Z.land bitmap_word (Z.shiftl 1 bit) =? 0).

(** ** Scheduled releases *)

(** The release time [delay_ms] after [now], normalised as the code does. *)
Definition release_after (now : timespec) (delay_ms : Z) : timespec :=
  let nsec := tv_nsec now + delay_ms * 1000000 in
  if 1000000000 <=? nsec then
    {| tv_sec := tv_sec now + Z.quot nsec 1000000000;
       tv_nsec := Z.rem nsec 1000000000 |}
  else {| tv_sec := tv_sec now; tv_nsec := nsec |}.

(** The first index at which [key] is scheduled. *)
Fixpoint find_pending (k : Z) (l : list pending_release_t) : option nat :=
  match l with
  | [] => None
  | pr :: l => if key pr =? k then Some 0%nat
               else option_map S (find_pending k l)
  end.

(** [sched_key_release] *)
Definition sched_key_release (k : Z) (delay_ms : Z) (i : input) : input :=
  let '(now, i) := clock_gettime i in
  let release_time := release_after now delay_ms in
  match find_pending k (pending_releases i) with
  | Some n =>
      set_pending_releases
        (alter (fun pr => {| key := key pr; release_time := release_time |})
               n (pending_releases i)) i
  | None =>
      if (pending_count i <? MAX_PENDING_RELEASES)%nat then
        mark_key_held k
          (set_pending_releases
             (pending_releases i ++
              [{| key := k; release_time := release_time |}]) i)
      else i
  end.

(** The modifier keys encoded in a CSI modifier parameter, in the order
    in which [for_each_modifier] and [sched_modifier_releases] visit
    them. *)
Definition modifier_keys `{Target} (modifiers : Z) : list Z :=
  if 2 <=? modifiers then
    let modifier_mask := modifiers - 1 in
    (if Z.land modifier_mask 1 =? 0 then [] else [DOOM_KEY_SHIFT]) ++
    (if Z.land modifier_mask 2 =? 0 then [] else [DOOM_KEY_ALT]) ++
    (if Z.land modifier_mask 4 =? 0 then [] else [DOOM_KEY_CTRL])
  else [].

(** [for_each_modifier (modifiers, key_down)] *)
Definition for_each_modifier_key_down `{Target} (modifiers : Z) (i : input)
  : input :=
  fold_left (fun i k => emit (doom_key_down k) i) (modifier_keys modifiers) i.

(** [sched_modifier_releases] *)
Definition sched_modifier_releases `{Target} (modifiers delay_ms : Z)
    (i : input) : input :=
  fold_left (fun i k => sched_key_release k delay_ms i)
            (modifier_keys modifiers) i.

(** Has the release time passed at [now]? *)
Definition expired (now rt : timespec) : bool :=
  (tv_sec rt <? tv_sec now) ||
  ((tv_sec now =? tv_sec rt) && (tv_nsec rt <=? tv_nsec now)).

(** The body of the release loop at index [n]. *)
Definition release_at (now : timespec) (i : input) (n : nat) : input :=
  match pending_releases i !! n with
  | None => i
  | Some pr =>
      if expired now (release_time pr) then
        let i := emit (doom_key_up (key pr)) i in
        let i := mark_key_released (key pr) i in
        set_pending_releases (delete n (pending_releases i)) i
      else i
  end.

(** [process_pending_releases]: from the last entry down to the first. *)
Definition process_pending_releases (i : input) : input :=
  let '(now, i) := clock_gettime i in
  fold_left (release_at now) (rev (seq 0 (pending_count i))) i.

(** ** Key handlers *)

Section Handlers.

Context `{Target}.

(** [ascii_key]; 13 and 10 are the characters CR and LF. *)
Definition ascii_key (ch : Z) (i : input) : input :=
  let doom_key := ch in
  let doom_key := if doom_key =? 13 then DOOM_KEY_ENTER else doom_key in
  let doom_key := if doom_key =? 10 then DOOM_KEY_ENTER else doom_key in
  let doom_key :=
    if (ch =? chr " ") || (ch =? chr "f") || (ch =? chr "F") ||
       (ch =? chr "i") || (ch =? chr "I")
    then DOOM_KEY_CTRL else doom_key in
  let i := if is_key_held i doom_key then i
           else emit (doom_key_down doom_key) i in
  sched_key_release doom_key 50 i.

(** The [switch] of [ss3_key]. *)
Definition ss3_doom_key (ch : Z) : Z :=
  if ch =? chr "P" then DOOM_KEY_F1
  else if ch =? chr "Q" then DOOM_KEY_F2
  else if ch =? chr "R" then DOOM_KEY_F3
  else if ch =? chr "S" then DOOM_KEY_F4
  else 0.

(** [ss3_key] *)
Definition ss3_key (ch : Z) (i : input) : input :=
  let doom_key := ss3_doom_key ch in
  if doom_key =? 0 then i
  else
    let i := if is_key_held i doom_key then i
             else emit (doom_key_down doom_key) i in
    sched_key_release doom_key 50 i.

(** The nested [switch] of [csi_key]. *)
Definition csi_doom_key (ch parm1 : Z) : Z :=
  if ch =? chr "A" then DOOM_KEY_UP_ARROW
  else if ch =? chr "B" then DOOM_KEY_DOWN_ARROW
  else if ch =? chr "C" then DOOM_KEY_RIGHT_ARROW
  else if ch =? chr "D" then DOOM_KEY_LEFT_ARROW
  else if ch =? chr "~" then
    if parm1 =? 15 then DOOM_KEY_F5
    else if parm1 =? 17 then DOOM_KEY_F6
    else if parm1 =? 18 then DOOM_KEY_F7
    else if parm1 =? 19 then DOOM_KEY_F8
    else if parm1 =? 20 then DOOM_KEY_F9
    else if parm1 =? 21 then DOOM_KEY_F10
    else if parm1 =? 23 then DOOM_KEY_F11
    else if parm1 =? 24 then DOOM_KEY_F12
    else 0
  else 0.

(** The hold time [csi_key] chooses. *)
Definition csi_delay_ms (doom_key : Z) : Z :=
  if (doom_key =? DOOM_KEY_UP_ARROW) || (doom_key =? DOOM_KEY_DOWN_ARROW) ||
     (doom_key =? DOOM_KEY_LEFT_ARROW) || (doom_key =? DOOM_KEY_RIGHT_ARROW)
  then 80 else 50.

(** [time_to_release_ms]: whole milliseconds, the division truncating
    toward zero as in C. *)
Definition time_to_release_ms (rt now : timespec) : Z :=
  (tv_sec rt - tv_sec now) * 1000 +
  Z.quot (tv_nsec rt - tv_nsec now) 1000000.

(** The block of [csi_key] for a key that is already held: look the key
    up in the pending list and, when its release is more than 25 ms off,
    release it at once. Returns [is_new_keypress]. *)
Definition csi_held_check (doom_key : Z) (i : input) : bool * input :=
  let '(now, i) := clock_gettime i in
  match find_pending doom_key (pending_releases i) with
  | None => (false, i)
  | Some n =>
      match pending_releases i !! n with
      | None => (false, i)
      | Some pr =>
          if 25 <? time_to_release_ms (release_time pr) now then
            let i := emit (doom_key_up doom_key) i in
            let i := mark_key_released doom_key i in
            (true, set_pending_releases (delete n (pending_releases i)) i)
          else (false, i)
      end
  end.

(** [csi_key] *)
Definition csi_key (ch parm1 parm2 : Z) (i : input) : input :=
  let doom_key := csi_doom_key ch parm1 in
  if doom_key =? 0 then i
  else
    let delay_ms := csi_delay_ms doom_key in
    let already_held := is_key_held i doom_key in
    let '(is_new_keypress, i) :=
      if already_held then csi_held_check doom_key i else (false, i) in
    let i :=
      if negb already_held || is_new_keypress then
        emit (doom_key_down doom_key) (for_each_modifier_key_down parm2 i)
      else i in
    let i := sched_key_release doom_key delay_ms i in
    if negb already_held || is_new_keypress then
      sched_modifier_releases parm2 delay_ms i
    else i.

(** ** SGR mouse reports *)

Definition MOUSE_SENSITIVITY : Z := 10.
Definition MAX_DELTA_CLAMP : Z := 100.

Definition clamp_delta (delta : Z) : Z :=
  if MAX_DELTA_CLAMP <? delta then MAX_DELTA_CLAMP
  else if delta <? - MAX_DELTA_CLAMP then - MAX_DELTA_CLAMP
  else delta.

Definition set_last (x y : Z) (m : mouse_state_t) : mouse_state_t :=
  {| last_x := x; last_y := y; tracking := tracking m;
     buttons := buttons m |}.

Definition set_button (b : nat) (v : bool) (m : mouse_state_t)
  : mouse_state_t :=
  {| last_x := last_x m; last_y := last_y m; tracking := tracking m;
     buttons := <[b := v]> (buttons m) |}.

(** The [switch] on the button number. *)
Definition button_doom_key (button : Z) : Z :=
  if button =? 0 then DOOM_KEY_CTRL
  else if button =? 2 then chr " "
  else if button =? 1 then DOOM_KEY_SHIFT
  else 0.

(** The motion part of [parse_mouse_sgr]: deltas against the reference
    position, clamped and scaled, forwarded when not both zero. *)
Definition mouse_motion (cx cy : Z) (i : input) : input :=
  let delta_x := wrap_int (cx - last_x (mouse i)) in
  let delta_y := wrap_int (cy - last_y (mouse i)) in
  let delta_x := clamp_delta delta_x in
  let delta_y := clamp_delta delta_y in
  let delta_x := delta_x * MOUSE_SENSITIVITY in
  let delta_y := delta_y * MOUSE_SENSITIVITY in
  if negb (delta_x =? 0) || negb (delta_y =? 0) then
    set_mouse (set_last cx cy (mouse i))
      (emit (doom_mouse_move delta_x delta_y) i)
  else i.

(** The button part of [parse_mouse_sgr]. *)
Definition mouse_button (final_char cb : Z) (i : input) : input :=
  let button := Z.land cb 3 in
  let is_motion := negb (Z.land cb 32 =? 0) in
  let is_press := final_char =? chr "M" in
  if negb is_motion && (button <? 3) then
    let b := Z.to_nat button in
    if is_press && negb (buttons (mouse i) !!! b) then
      let i := set_mouse (set_button b true (mouse i)) i in
      let doom_key := button_doom_key button in
      if doom_key =? 0 then i
      else sched_key_release doom_key 50 (emit (doom_key_down doom_key) i)
    else if negb is_press && (buttons (mouse i) !!! b) then
      set_mouse (set_button b false (mouse i)) i
    else i
  else i.

(** [parse_mouse_sgr] *)
Definition parse_mouse_sgr (final_char : Z) (i : input) : input :=
  if (parm_count (params i) <? 3)%nat then i
  else
    let cb := parms (params i) !!! 0%nat in
    let cx := parms (params i) !!! 1%nat in
    let cy := parms (params i) !!! 2%nat in
    let is_wheel := negb (Z.land cb 64 =? 0) in
    if is_wheel then i
    else if negb (tracking (mouse i)) then
      set_mouse {| last_x := cx; last_y := cy; tracking := true;
                   buttons := buttons (mouse i) |} i
    else mouse_button final_char cb (mouse_motion cx cy i).

(** ** The state machine *)

(** [parms[parm_count++] = parm], guarded by the capacity. *)
Definition push_parm (p : params_t) : params_t :=
  if (parm_count p <? MAX_PARMS)%nat then
    {| parms := <[parm_count p := parm p]> (parms p); parm := parm p;
       parm_count := S (parm_count p); parm_prefix := parm_prefix p |}
  else p.

Definition set_parm (v : Z) (p : params_t) : params_t :=
  {| parms := parms p; parm := v; parm_count := parm_count p;
     parm_prefix := parm_prefix p |}.

Definition set_parm_prefix (v : Z) (p : params_t) : params_t :=
  {| parms := parms p; parm := parm p; parm_count := parm_count p;
     parm_prefix := v |}.

(** The device-attributes reply: the parameters are copied (the
    allocation is taken to succeed). *)
Definition store_device_attributes (i : input) : input :=
  set_query
    {| device_attributes :=
         Some (take (parm_count (params i)) (parms (params i)));
       da_count := parm_count (params i);
       has_cell_size := has_cell_size (query i);
       cell_size := cell_size (query i);
       has_cursor_pos := has_cursor_pos (query i);
       cursor_pos := cursor_pos (query i) |} i.

(** [cell_size_report] *)
Definition cell_size_report (height width : Z) (i : input) : input :=
  set_query
    {| device_attributes := device_attributes (query i);
       da_count := da_count (query i);
       has_cell_size := true;
       cell_size := (height, width);
       has_cursor_pos := has_cursor_pos (query i);
       cursor_pos := cursor_pos (query i) |} i.

(** [position_report] *)
Definition position_report (row col : Z) (i : input) : input :=
  set_query
    {| device_attributes := device_attributes (query i);
       da_count := da_count (query i);
       has_cell_size := has_cell_size (query i);
       cell_size := cell_size (query i);
       has_cursor_pos := true;
       cursor_pos := (row, col) |} i.

(** The dispatch on the final byte of a CSI sequence. *)
Definition csi_dispatch (ch : Z) (i : input) : input :=
  let p := params i in
  if (ch =? chr "c") && (parm_prefix p =? chr "?") then
    store_device_attributes i
  else if ch =? chr "t" then
    if (3 <=? parm_count p)%nat && (parms p !!! 0%nat =? 4) then
      cell_size_report (parms p !!! 1%nat) (parms p !!! 2%nat) i
    else i
  else if ch =? chr "R" then
    if (2 <=? parm_count p)%nat then
      position_report (parms p !!! 0%nat) (parms p !!! 1%nat) i
    else i
  else if (ch =? chr "M") || (ch =? chr "m") then
    if parm_prefix p =? chr "<" then parse_mouse_sgr ch i else i
  else
    csi_key ch
      (if (0 <? parm_count p)%nat then parms p !!! 0%nat else 0)
      (if (1 <? parm_count p)%nat then parms p !!! 1%nat else 0) i.

(** [parse_char]; [ch] is the value of the [char] argument. *)
Definition parse_char (ch : Z) (i : input) : input :=
  if ch =? 3 then set_exit_requested true i
  else if ch =? 27 then
    let i := match state i with
             | STATE_ESC => ascii_key 27 i
             | _ => i
             end in
    set_state STATE_ESC i
  else
    match state i with
    | STATE_GROUND => ascii_key ch i
    | STATE_ESC =>
        if ch =? chr "O" then set_state STATE_SS3 i
        else if ch =? chr "[" then
          set_params {| parms := parms (params i); parm := 0;
                        parm_count := 0; parm_prefix := 0 |}
            (set_state STATE_CSI i)
        else
          let i := ascii_key 27 i in
          let i := set_state STATE_GROUND i in
          if (32 <=? ch) && (ch <? 127) then ascii_key ch i else i
    | STATE_SS3 => set_state STATE_GROUND (ss3_key ch i)
    | STATE_CSI =>
        if (ch =? chr "?") || (ch =? chr ">") || (ch =? chr "<") then
          set_params (set_parm_prefix ch (params i)) i
        else if (chr "0" <=? ch) && (ch <=? chr "9") then
          set_params
            (set_parm (wrap_int (wrap_int (parm (params i) * 10) +
                                 (ch - chr "0")))
                      (params i)) i
        else if ch =? chr ";" then
          set_params (set_parm 0 (push_parm (params i))) i
        else
          let i := set_params (push_parm (params i)) i in
          let i := csi_dispatch ch i in
          set_state STATE_GROUND i
    end.

(** The conversion [(char) ch] of a byte read from the terminal. *)
Definition to_char (b : Z) : Z :=
  if char_signed && (128 <=? b) then b - 256 else b.

Definition elapsed_ms (now t : timespec) : Z :=
  (tv_sec now - tv_sec t) * 1000 + Z.quot (tv_nsec now - tv_nsec t) 1000000.

(** One turn of the loop of [input_thread_func], for what
    [os_getch_timeout (1)] returned: a byte, or nothing. *)
Definition input_thread_step (read : option Z) (i : input) : input :=
  let i := process_pending_releases i in
  match state i, read with
  | STATE_ESC, None =>
      if negb (esc_waiting i) then
        let '(t, i) := clock_gettime i in set_esc t true i
      else
        let '(now, i) := clock_gettime i in
        if 100 <=? elapsed_ms now (esc_time i) then
          set_esc (esc_time i) false
            (set_state STATE_GROUND (ascii_key 27 i))
        else i
  | STATE_ESC, Some b =>
      parse_char (to_char b) (set_esc (esc_time i) false i)
  | _, None => i
  | _, Some b => parse_char (to_char b) i
  end.

(** Feeding a sequence of [char] values to the parser. *)
Definition parse_chars (chs : list Z) (i : input) : input :=
  fold_left (fun i ch => parse_char ch i) chs i.

End Handlers.

(** [input_create]: the state the thread starts in, for a given clock. *)
Definition input_create (clk : nat -> timespec) : input :=
  {| exit_requested := false;
     state := STATE_GROUND;
     params := {| parms := replicate MAX_PARMS 0; parm := 0;
                  parm_count := 0; parm_prefix := 0 |};
     query := {| device_attributes := None; da_count := 0;
                 has_cell_size := false; cell_size := (0, 0);
                 has_cursor_pos := false; cursor_pos := (0, 0) |};
     pending_releases := [];
     held_keys_bitmap := replicate 4 0;
     esc_time := {| tv_sec := 0; tv_nsec := 0 |};
     esc_waiting := false;
     mouse := {| last_x := 0; last_y := 0; tracking := false;
                 buttons := replicate 3 false |};
     trace := [];
     clock := clk;
     clock_reads := 0 |}.

(** The key codes of PureDOOM.h, with signed [char]. *)
#[export] Instance puredoom_x86_64 : Target := {|
  DOOM_KEY_ENTER := 13;
  DOOM_KEY_CTRL := 157;
  DOOM_KEY_SHIFT := 182;
  DOOM_KEY_ALT := 184;
  DOOM_KEY_UP_ARROW := 173;
  DOOM_KEY_DOWN_ARROW := 175;
  DOOM_KEY_LEFT_ARROW := 172;
  DOOM_KEY_RIGHT_ARROW := 174;
  DOOM_KEY_F1 := 187;
  DOOM_KEY_F2 := 188;
  DOOM_KEY_F3 := 189;
  DOOM_KEY_F4 := 190;
  DOOM_KEY_F5 := 191;
  DOOM_KEY_F6 := 192;
  DOOM_KEY_F7 := 193;
  DOOM_KEY_F8 := 194;
  DOOM_KEY_F9 := 195;
  DOOM_KEY_F10 := 196;
  DOOM_KEY_F11 := 215;
  DOOM_KEY_F12 := 216;
  char_signed := true
|}.

(** ** What the key handlers leave alone *)

(** [j] differs from [i] at most in the pending list, the bitmap, the
    trace and the number of clock readings. *)
Definition hold_only (i j : input) : Prop :=
  exit_requested j = exit_requested i /\ state j = state i /\
  params j = params i /\ query j = query i /\
  esc_time j = esc_time i /\ esc_waiting j = esc_waiting i /\
  mouse j = mouse i /\ clock j = clock i.

Lemma hold_only_refl i : hold_only i i.
Proof. repeat split. Qed.

Lemma hold_only_trans i j k : hold_only i j -> hold_only j k -> hold_only i k.
Proof.
  unfold hold_only. intros (A1&A2&A3&A4&A5&A6&A7&A8) (B1&B2&B3&B4&B5&B6&B7&B8).
  repeat split; congruence.
Qed.

Lemma fold_left_hold_only {A} (f : input -> A -> input) (l : list A) :
  (forall i a, hold_only i (f i a)) ->
  forall i, hold_only i (fold_left f l i).
Proof.
  intros Hf. induction l as [|a l IH]; intros i; cbn.
  - apply hold_only_refl.
  - eapply hold_only_trans; [apply Hf | apply IH].
Qed.

Lemma emit_hold_only e i : hold_only i (emit e i).
Proof. repeat split. Qed.

Lemma mark_key_held_hold_only k i : hold_only i (mark_key_held k i).
Proof. unfold mark_key_held. destruct (out_of_range k); repeat split. Qed.

Lemma mark_key_released_hold_only k i : hold_only i (mark_key_released k i).
Proof. unfold mark_key_released. destruct (out_of_range k); repeat split. Qed.

Lemma sched_key_release_hold_only k d i :
  hold_only i (sched_key_release k d i).
Proof.
  unfold sched_key_release, clock_gettime, pending_count.
  cbn [pending_releases].
  destruct (find_pending k (pending_releases i)); [repeat split|].
  destruct (_ <? _)%nat; [|repeat split].
  eapply hold_only_trans; [|apply mark_key_held_hold_only]. repeat split.
Qed.

Lemma release_at_hold_only now i n : hold_only i (release_at now i n).
Proof.
  unfold release_at. destruct (pending_releases i !! n) as [pr|];
    [|apply hold_only_refl].
  destruct (expired now (release_time pr)); [|apply hold_only_refl].
  eapply hold_only_trans; [apply (emit_hold_only (doom_key_up (key pr)))|].
  eapply hold_only_trans; [apply (mark_key_released_hold_only (key pr))|].
  repeat split.
Qed.

Lemma process_pending_releases_hold_only i :
  hold_only i (process_pending_releases i).
Proof.
  unfold process_pending_releases, clock_gettime.
  eapply hold_only_trans; [|apply fold_left_hold_only, release_at_hold_only].
  repeat split.
Qed.

Section HandlersFrame.

Context `{Target}.

Lemma for_each_modifier_key_down_hold_only m i :
  hold_only i (for_each_modifier_key_down m i).
Proof.
  unfold for_each_modifier_key_down. apply fold_left_hold_only.
  intros; apply emit_hold_only.
Qed.

Lemma sched_modifier_releases_hold_only m d i :
  hold_only i (sched_modifier_releases m d i).
Proof.
  unfold sched_modifier_releases. apply fold_left_hold_only.
  intros; apply sched_key_release_hold_only.
Qed.

Lemma ascii_key_hold_only ch i : hold_only i (ascii_key ch i).
Proof.
  unfold ascii_key. cbv zeta.
  eapply hold_only_trans; [|apply sched_key_release_hold_only].
  destruct (is_key_held i _); [apply hold_only_refl | apply emit_hold_only].
Qed.

Lemma ss3_key_hold_only ch i : hold_only i (ss3_key ch i).
Proof.
  unfold ss3_key. cbv zeta. destruct (_ =? 0); [apply hold_only_refl|].
  eapply hold_only_trans; [|apply sched_key_release_hold_only].
  destruct (is_key_held i _); [apply hold_only_refl | apply emit_hold_only].
Qed.

Lemma csi_held_check_hold_only k i :
  hold_only i (csi_held_check k i).2.
Proof.
  unfold csi_held_check, clock_gettime. cbn [pending_releases].
  destruct (find_pending k (pending_releases i)) as [n|]; [|repeat split].
  destruct (pending_releases i !! n) as [pr|]; [|repeat split].
  destruct (25 <? _); [|repeat split]. cbn [snd].
  unfold mark_key_released. destruct (out_of_range k); repeat split.
Qed.

Lemma csi_key_hold_only ch p1 p2 i : hold_only i (csi_key ch p1 p2 i).
Proof.
  unfold csi_key. cbv zeta. destruct (_ =? 0); [apply hold_only_refl|].
  set (k := csi_doom_key ch p1).
  assert (H1 : hold_only i
            (if is_key_held i k then csi_held_check k i else (false, i)).2).
  { destruct (is_key_held i k); [apply csi_held_check_hold_only
                                | apply hold_only_refl]. }
  destruct (if is_key_held i k then csi_held_check k i else (false, i))
    as [is_new i1]. cbn [snd] in H1.
  set (i2 := if negb (is_key_held i k) || is_new
             then emit (doom_key_down k) (for_each_modifier_key_down p2 i1)
             else i1).
  assert (H2 : hold_only i1 i2).
  { subst i2. destruct (negb _ || _); [|apply hold_only_refl].
    eapply hold_only_trans; [apply for_each_modifier_key_down_hold_only|].
    apply emit_hold_only. }
  assert (H3 : hold_only i2 (sched_key_release k (csi_delay_ms k) i2))
    by apply sched_key_release_hold_only.
  destruct (negb _ || _).
  - eapply hold_only_trans; [exact H1|].
    eapply hold_only_trans; [exact H2|].
    eapply hold_only_trans; [exact H3|].
    apply sched_modifier_releases_hold_only.
  - eapply hold_only_trans; [exact H1|].
    eapply hold_only_trans; [exact H2 | exact H3].
Qed.

(** The mouse decoder leaves the parser state and the parameters alone. *)
Lemma mouse_motion_state cx cy i :
  state (mouse_motion cx cy i) = state i /\
  params (mouse_motion cx cy i) = params i /\
  exit_requested (mouse_motion cx cy i) = exit_requested i.
Proof. unfold mouse_motion. cbv zeta. destruct (_ || _); auto. Qed.

Lemma mouse_button_state fc cb i :
  state (mouse_button fc cb i) = state i /\
  params (mouse_button fc cb i) = params i /\
  exit_requested (mouse_button fc cb i) = exit_requested i.
Proof.
  unfold mouse_button. cbv zeta.
  destruct (negb _ && _); [|auto].
  destruct (_ && negb _).
  - destruct (_ =? 0); [auto|].
    match goal with
    | |- context [sched_key_release ?k ?d ?j] =>
        pose proof (sched_key_release_hold_only k d j) as (HX & HS & HP & _)
    end.
    rewrite HS, HP, HX. auto.
  - destruct (negb _ && _); auto.
Qed.

Lemma parse_mouse_sgr_state fc i :
  state (parse_mouse_sgr fc i) = state i /\
  params (parse_mouse_sgr fc i) = params i /\
  exit_requested (parse_mouse_sgr fc i) = exit_requested i.
Proof.
  unfold parse_mouse_sgr. cbv zeta.
  destruct (_ <? 3)%nat; [auto|].
  destruct (negb (Z.land _ 64 =? 0)); [auto|].
  destruct (negb (tracking (mouse i))); [auto|].
  destruct (mouse_button_state fc (parms (params i) !!! 0%nat)
              (mouse_motion (parms (params i) !!! 1%nat)
                 (parms (params i) !!! 2%nat) i)) as (A & B & C).
  destruct (mouse_motion_state (parms (params i) !!! 1%nat)
              (parms (params i) !!! 2%nat) i) as (A' & B' & C').
  rewrite A, B, C. auto.
Qed.

End HandlersFrame.

(** ** Array bounds *)

(** The bitmap has its four words and the pending list fits its array. *)
Definition hold_bounds (i : input) : Prop :=
  length (held_keys_bitmap i) = 4%nat /\
  (pending_count i <= MAX_PENDING_RELEASES)%nat.

(** Every array of the struct has its declared size and every count is
    within it: no access of the handlers leaves an array. *)
Definition in_bounds (i : input) : Prop :=
  hold_bounds i /\
  length (parms (params i)) = MAX_PARMS /\
  (parm_count (params i) <= MAX_PARMS)%nat /\
  length (buttons (mouse i)) = 3%nat.

Lemma fold_left_preserves {A} (P : input -> Prop) (f : input -> A -> input)
    (l : list A) :
  (forall i a, P i -> P (f i a)) -> forall i, P i -> P (fold_left f l i).
Proof.
  intros Hf. induction l as [|a l IH]; intros i Hi; cbn; auto.
Qed.

Lemma length_delete_le {A} (l : list A) n :
  (length (delete n l) <= length l)%nat.
Proof.
  revert n. induction l as [|a l IH]; intros [|n]; cbn;
    [lia | lia | lia |].
  apply le_n_S, IH.
Qed.

Lemma emit_bounds e i : hold_bounds i -> hold_bounds (emit e i).
Proof. auto. Qed.

Lemma mark_key_held_bounds k i :
  hold_bounds i -> hold_bounds (mark_key_held k i).
Proof.
  intros [Hb Hp]. unfold mark_key_held. destruct (out_of_range k);
    [split; assumption|].
  split; [|exact Hp]. cbn. rewrite length_insert. exact Hb.
Qed.

Lemma mark_key_released_bounds k i :
  hold_bounds i -> hold_bounds (mark_key_released k i).
Proof.
  intros [Hb Hp]. unfold mark_key_released. destruct (out_of_range k);
    [split; assumption|].
  split; [|exact Hp]. cbn. rewrite length_insert. exact Hb.
Qed.

Lemma sched_key_release_bounds k d i :
  hold_bounds i -> hold_bounds (sched_key_release k d i).
Proof.
  intros [Hb Hp]. unfold sched_key_release, clock_gettime, pending_count in *.
  cbn [pending_releases].
  destruct (find_pending k (pending_releases i)).
  - split; [exact Hb|]. unfold pending_count. cbn.
    rewrite length_alter. exact Hp.
  - destruct (Nat.ltb_spec (length (pending_releases i))
                MAX_PENDING_RELEASES).
    + apply mark_key_held_bounds. split; [exact Hb|].
      unfold pending_count. cbn. rewrite length_app. cbn. lia.
    + split; assumption.
Qed.

Lemma release_at_bounds now i n :
  hold_bounds i -> hold_bounds (release_at now i n).
Proof.
  intros Hi. unfold release_at.
  destruct (pending_releases i !! n) as [pr|]; [|exact Hi].
  destruct (expired now (release_time pr)); [|exact Hi].
  pose proof (mark_key_released_bounds (key pr) _
                (emit_bounds (doom_key_up (key pr)) i Hi)) as [Hb Hp].
  split; [exact Hb|]. unfold pending_count in *. cbn [pending_releases
    set_pending_releases].
  etransitivity; [apply length_delete_le | exact Hp].
Qed.

Lemma process_pending_releases_bounds i :
  hold_bounds i -> hold_bounds (process_pending_releases i).
Proof.
  intros Hi. unfold process_pending_releases, clock_gettime.
  apply fold_left_preserves; [intros; apply release_at_bounds; assumption|].
  exact Hi.
Qed.

Section HandlersBounds.

Context `{Target}.

Lemma ascii_key_bounds ch i : hold_bounds i -> hold_bounds (ascii_key ch i).
Proof.
  intros Hi. unfold ascii_key. cbv zeta. apply sched_key_release_bounds.
  destruct (is_key_held i _); [exact Hi | apply emit_bounds, Hi].
Qed.

Lemma ss3_key_bounds ch i : hold_bounds i -> hold_bounds (ss3_key ch i).
Proof.
  intros Hi. unfold ss3_key. cbv zeta. destruct (_ =? 0); [exact Hi|].
  apply sched_key_release_bounds.
  destruct (is_key_held i _); [exact Hi | apply emit_bounds, Hi].
Qed.

Lemma csi_held_check_bounds k i :
  hold_bounds i -> hold_bounds (csi_held_check k i).2.
Proof.
  intros Hi. unfold csi_held_check, clock_gettime. cbn [pending_releases].
  destruct (find_pending k (pending_releases i)) as [n|]; [|exact Hi].
  destruct (pending_releases i !! n) as [pr|]; [|exact Hi].
  destruct (25 <? _); [|exact Hi]. cbn [snd].
  match goal with
  | |- hold_bounds (set_pending_releases _ ?j) =>
      assert (Hj : hold_bounds j)
        by (apply mark_key_released_bounds, emit_bounds; exact Hi)
  end.
  destruct Hj as [Hb Hp]. split; [exact Hb|].
  unfold pending_count in *. cbn [pending_releases set_pending_releases].
  etransitivity; [apply length_delete_le | exact Hp].
Qed.

Lemma csi_key_bounds ch p1 p2 i :
  hold_bounds i -> hold_bounds (csi_key ch p1 p2 i).
Proof.
  intros Hi. unfold csi_key. cbv zeta. destruct (_ =? 0); [exact Hi|].
  set (k := csi_doom_key ch p1).
  assert (H1 : hold_bounds
            (if is_key_held i k then csi_held_check k i else (false, i)).2).
  { destruct (is_key_held i k); [apply csi_held_check_bounds | ]; exact Hi. }
  destruct (if is_key_held i k then csi_held_check k i else (false, i))
    as [is_new i1]. cbn [snd] in H1.
  assert (H2 : hold_bounds
            (if negb (is_key_held i k) || is_new
             then emit (doom_key_down k) (for_each_modifier_key_down p2 i1)
             else i1)).
  { destruct (negb _ || _); [|exact H1]. apply emit_bounds.
    unfold for_each_modifier_key_down.
    apply fold_left_preserves; [intros; apply emit_bounds; assumption|].
    exact H1. }
  apply (sched_key_release_bounds k (csi_delay_ms k)) in H2.
  destruct (negb _ || _); [|exact H2].
  unfold sched_modifier_releases.
  apply fold_left_preserves;
    [intros; apply sched_key_release_bounds; assumption | exact H2].
Qed.

Lemma mouse_motion_bounds cx cy i :
  hold_bounds i -> length (buttons (mouse i)) = 3%nat ->
  hold_bounds (mouse_motion cx cy i) /\
  length (buttons (mouse (mouse_motion cx cy i))) = 3%nat.
Proof. intros. unfold mouse_motion. cbv zeta. destruct (_ || _); auto. Qed.

Lemma mouse_button_bounds fc cb i :
  hold_bounds i -> length (buttons (mouse i)) = 3%nat ->
  hold_bounds (mouse_button fc cb i) /\
  length (buttons (mouse (mouse_button fc cb i))) = 3%nat.
Proof.
  intros B1 L1. unfold mouse_button. cbv zeta.
  destruct (negb _ && _); [|auto].
  destruct (_ && negb _).
  - destruct (_ =? 0).
    + split; [exact B1|]. cbn. rewrite length_insert. exact L1.
    + match goal with
      | |- context [sched_key_release ?k ?d ?j] =>
          pose proof (sched_key_release_hold_only k d j)
            as (_ & _ & _ & _ & _ & _ & HM & _);
          assert (HB : hold_bounds j) by exact B1;
          apply (sched_key_release_bounds k d) in HB
      end.
      split; [exact HB|]. rewrite HM. cbn. rewrite length_insert. exact L1.
  - destruct (negb _ && _); [|auto].
    split; [exact B1|]. cbn. rewrite length_insert. exact L1.
Qed.

Lemma parse_mouse_sgr_bounds fc i :
  hold_bounds i -> length (buttons (mouse i)) = 3%nat ->
  hold_bounds (parse_mouse_sgr fc i) /\
  length (buttons (mouse (parse_mouse_sgr fc i))) = 3%nat.
Proof.
  intros Hi Hb. unfold parse_mouse_sgr. cbv zeta.
  destruct (_ <? 3)%nat; [auto|].
  destruct (negb (Z.land _ 64 =? 0)); [auto|].
  destruct (negb (tracking (mouse i))); [auto|].
  destruct (mouse_motion_bounds (parms (params i) !!! 1%nat)
              (parms (params i) !!! 2%nat) i Hi Hb) as [B1 L1].
  apply mouse_button_bounds; assumption.
Qed.

End HandlersBounds.

(** ** Bits of the bitmap *)

Lemma land_bit_eqb w b :
  0 <= b -> (Z.land w (Z.shiftl 1 b) =? 0) = negb (Z.testbit w b).
Proof.
  intros Hb. rewrite Z.shiftl_1_l. destruct (Z.testbit w b) eqn:E; cbn.
  - apply Z.eqb_neq. intros H0.
    apply (f_equal (fun z => Z.testbit z b)) in H0.
    rewrite Z.land_spec, E, Z.pow2_bits_eqb, Z.eqb_refl, Z.testbit_0_l in H0
      by exact Hb.
    discriminate H0.
  - apply Z.eqb_eq, Z.bits_inj_0. intros n.
    rewrite Z.land_spec, Z.pow2_bits_eqb by exact Hb.
    destruct (Z.eqb_spec b n) as [<-|]; [rewrite E|];
      rewrite ?andb_false_r; reflexivity.
Qed.

(** The word and the bit of a key code. *)
Definition key_word (k : Z) : nat := Z.to_nat (Z.quot k 64).
Definition key_bit (k : Z) : Z := Z.rem k 64.

Lemma key_split k :
  out_of_range k = false ->
  (key_word k < 4)%nat /\ 0 <= key_bit k < 64 /\
  k = 64 * Z.of_nat (key_word k) + key_bit k.
Proof.
  unfold out_of_range, MAX_KEY_CODE, key_word, key_bit. intros H.
  apply orb_false_iff in H as [H1 H2].
  apply Z.ltb_ge in H1. apply Z.leb_gt in H2.
  pose proof (Z.rem_bound_pos k 64 H1 ltac:(lia)).
  pose proof (Z.quot_rem' k 64).
  assert (0 <= Z.quot k 64 < 4).
  { split; [apply Z.quot_pos; lia|].
    apply Z.quot_lt_upper_bound; lia. }
  rewrite Z2Nat.id by lia. lia.
Qed.

Lemma key_split_inj k k' :
  out_of_range k = false -> out_of_range k' = false ->
  key_word k = key_word k' -> key_bit k = key_bit k' -> k = k'.
Proof.
  intros H H' Hw Hb.
  destruct (key_split k H) as (_ & _ & E).
  destruct (key_split k' H') as (_ & _ & E').
  rewrite E, E', Hw, Hb. reflexivity.
Qed.

(** The bit of [k] in the bitmap. *)
Definition held_bit (i : input) (k : Z) : bool :=
  Z.testbit (held_keys_bitmap i !!! key_word k) (key_bit k).

Lemma is_key_held_bit i k :
  is_key_held i k = negb (out_of_range k) && held_bit i k.
Proof.
  unfold is_key_held, held_bit. destruct (out_of_range k) eqn:E;
    [reflexivity|].
  destruct (key_split k E) as (_ & Hb & _). cbv zeta.
  fold (key_word k) (key_bit k).
  rewrite land_bit_eqb by lia. rewrite negb_involutive. reflexivity.
Qed.

Lemma held_bit_mark i k k' :
  length (held_keys_bitmap i) = 4%nat ->
  out_of_range k = false -> out_of_range k' = false ->
  held_bit (mark_key_held k' i) k = (k =? k') || held_bit i k.
Proof.
  intros Hl Hk Hk'. unfold mark_key_held, held_bit. rewrite Hk'. cbv zeta.
  fold (key_word k') (key_bit k'). cbn [held_keys_bitmap set_held_keys_bitmap].
  destruct (key_split k Hk) as (Hw & Hb & _).
  destruct (key_split k' Hk') as (Hw' & Hb' & _).
  destruct (decide (key_word k = key_word k')) as [Ew|Ew].
  - rewrite Ew, list_lookup_total_insert_eq by lia.
    rewrite Z.lor_spec, Z.shiftl_1_l, Z.pow2_bits_eqb by lia.
    rewrite orb_comm. f_equal.
    destruct (Z.eqb_spec (key_bit k') (key_bit k)) as [Eb|Eb];
      destruct (Z.eqb_spec k k') as [Ek|Ek]; try reflexivity.
    + exfalso. apply Ek. apply key_split_inj; auto.
    + exfalso. apply Eb. rewrite Ek. reflexivity.
  - rewrite list_lookup_total_insert_ne by auto.
    destruct (Z.eqb_spec k k') as [Ek|Ek]; [|reflexivity].
    exfalso. apply Ew. rewrite Ek. reflexivity.
Qed.

Lemma held_bit_release i k k' :
  length (held_keys_bitmap i) = 4%nat ->
  out_of_range k = false -> out_of_range k' = false ->
  held_bit (mark_key_released k' i) k = negb (k =? k') && held_bit i k.
Proof.
  intros Hl Hk Hk'. unfold mark_key_released, held_bit. rewrite Hk'.
  cbv zeta. fold (key_word k') (key_bit k').
  cbn [held_keys_bitmap set_held_keys_bitmap].
  destruct (key_split k Hk) as (Hw & Hb & _).
  destruct (key_split k' Hk') as (Hw' & Hb' & _).
  destruct (decide (key_word k = key_word k')) as [Ew|Ew].
  - rewrite Ew, list_lookup_total_insert_eq by lia.
    rewrite Z.land_spec, Z.lxor_spec, Z.shiftl_1_l, Z.pow2_bits_eqb by lia.
    rewrite Z.ones_spec_low by lia.
    rewrite andb_comm. f_equal.
    destruct (Z.eqb_spec (key_bit k') (key_bit k)) as [Eb|Eb];
      destruct (Z.eqb_spec k k') as [Ek|Ek]; try reflexivity.
    + exfalso. apply Ek. apply key_split_inj; auto.
    + exfalso. apply Eb. rewrite Ek. reflexivity.
  - rewrite list_lookup_total_insert_ne by auto.
    destruct (Z.eqb_spec k k') as [Ek|Ek]; [|reflexivity].
    exfalso. apply Ew. rewrite Ek. reflexivity.
Qed.

Lemma is_key_held_mark i k k' :
  length (held_keys_bitmap i) = 4%nat ->
  is_key_held (mark_key_held k' i) k =
  is_key_held i k || (negb (out_of_range k) && (k =? k')).
Proof.
  intros Hl. rewrite !is_key_held_bit.
  destruct (out_of_range k) eqn:Hk; [reflexivity|]. cbn [negb andb].
  destruct (out_of_range k') eqn:Hk'.
  - unfold mark_key_held. rewrite Hk'.
    destruct (Z.eqb_spec k k') as [->|]; [congruence|].
    rewrite orb_false_r. reflexivity.
  - rewrite held_bit_mark by assumption. apply orb_comm.
Qed.

Lemma is_key_held_release i k k' :
  length (held_keys_bitmap i) = 4%nat ->
  is_key_held (mark_key_released k' i) k =
  is_key_held i k && negb (k =? k').
Proof.
  intros Hl. rewrite !is_key_held_bit.
  destruct (out_of_range k) eqn:Hk; [reflexivity|]. cbn [negb andb].
  destruct (out_of_range k') eqn:Hk'.
  - unfold mark_key_released. rewrite Hk'.
    destruct (Z.eqb_spec k k') as [->|]; [congruence|].
    rewrite andb_true_r. reflexivity.
  - rewrite held_bit_release by assumption. apply andb_comm.
Qed.

(** ** Keys in the pending list *)

(** Is a release of [k] scheduled? *)
Fixpoint scheduled_in (k : Z) (l : list pending_release_t) : bool :=
  match l with
  | [] => false
  | pr :: l => (key pr =? k) || scheduled_in k l
  end.

(** No key is scheduled twice. *)
Fixpoint unique_keys (l : list pending_release_t) : Prop :=
  match l with
  | [] => True
  | pr :: l => scheduled_in (key pr) l = false /\ unique_keys l
  end.

Lemma find_pending_scheduled k l :
  scheduled_in k l = match find_pending k l with Some _ => true | None => false end.
Proof.
  induction l as [|pr l IH]; cbn; [reflexivity|].
  destruct (key pr =? k); [reflexivity|]. cbn. rewrite IH.
  destruct (find_pending k l); reflexivity.
Qed.

Lemma find_pending_Some k l n :
  find_pending k l = Some n ->
  exists pr, l !! n = Some pr /\ key pr = k.
Proof.
  revert n. induction l as [|pr l IH]; intros n; cbn; [discriminate|].
  destruct (Z.eqb_spec (key pr) k) as [E|E].
  - intros [= <-]. eauto.
  - destruct (find_pending k l) as [m|]; [|discriminate].
    intros [= <-]. cbn. apply IH. reflexivity.
Qed.

Lemma scheduled_in_app k l e :
  scheduled_in k (l ++ [e]) = scheduled_in k l || (key e =? k).
Proof.
  induction l as [|pr l IH]; cbn; [apply orb_false_r|].
  rewrite IH. apply orb_assoc.
Qed.

Lemma alter_cons_0 {A} (f : A -> A) x (l : list A) :
  alter f 0%nat (x :: l) = f x :: l.
Proof. reflexivity. Qed.

Lemma alter_cons_S {A} (f : A -> A) x (l : list A) n :
  alter f (S n) (x :: l) = x :: alter f n l.
Proof. reflexivity. Qed.

Lemma alter_nil {A} (f : A -> A) n : alter f n (@nil A) = [].
Proof. destruct n; reflexivity. Qed.

Lemma scheduled_in_alter k rt n l :
  scheduled_in k
    (alter (fun pr => {| key := key pr; release_time := rt |}) n l) =
  scheduled_in k l.
Proof.
  revert n. induction l as [|pr l IH]; intros [|n];
    rewrite ?alter_nil, ?alter_cons_0, ?alter_cons_S;
    cbn [scheduled_in key]; try reflexivity.
  rewrite IH. reflexivity.
Qed.

Lemma scheduled_in_lookup k l n pr :
  l !! n = Some pr -> key pr = k -> scheduled_in k l = true.
Proof.
  revert n. induction l as [|q l IH]; intros [|n]; simpl; try discriminate.
  - intros [= ->] ->. rewrite Z.eqb_refl. reflexivity.
  - intros Hl Hk. rewrite (IH n Hl Hk). apply orb_true_r.
Qed.

Lemma scheduled_in_delete k l n pr :
  unique_keys l -> l !! n = Some pr ->
  scheduled_in k (delete n l) = scheduled_in k l && negb (key pr =? k).
Proof.
  revert n. induction l as [|q l IH]; intros [|n]; simpl; try discriminate.
  - intros [Hq Hu] [= ->].
    destruct (Z.eqb_spec (key pr) k) as [<-|]; simpl.
    + rewrite Hq. reflexivity.
    + rewrite andb_true_r. reflexivity.
  - intros [Hq Hu] Hl. rewrite (IH n Hu Hl).
    destruct (Z.eqb_spec (key q) k) as [<-|]; simpl; [|reflexivity].
    destruct (Z.eqb_spec (key pr) (key q)) as [E|]; [|reflexivity].
    rewrite (scheduled_in_lookup (key q) l n pr Hl E) in Hq. discriminate.
Qed.

Lemma scheduled_in_delete_false k l n :
  scheduled_in k l = false -> scheduled_in k (delete n l) = false.
Proof.
  revert n. induction l as [|q l IH]; intros [|n]; simpl; try reflexivity.
  - intros H. apply orb_false_iff in H as [_ H]. exact H.
  - intros H. apply orb_false_iff in H as [H1 H2].
    rewrite H1, (IH n H2). reflexivity.
Qed.

Lemma unique_keys_delete l n : unique_keys l -> unique_keys (delete n l).
Proof.
  revert n. induction l as [|q l IH]; intros [|n]; simpl; auto.
  - intros [_ Hu]. exact Hu.
  - intros [Hq Hu]. split; [|apply IH, Hu].
    apply scheduled_in_delete_false, Hq.
Qed.

Lemma unique_keys_alter rt n l :
  unique_keys l ->
  unique_keys (alter (fun pr => {| key := key pr; release_time := rt |}) n l).
Proof.
  revert n. induction l as [|q l IH]; intros [|n];
    rewrite ?alter_nil, ?alter_cons_0, ?alter_cons_S;
    cbn [unique_keys key]; auto.
  intros [Hq Hu]. split; [|apply IH, Hu].
  rewrite scheduled_in_alter. exact Hq.
Qed.

Lemma unique_keys_app l e :
  unique_keys l -> scheduled_in (key e) l = false -> unique_keys (l ++ [e]).
Proof.
  induction l as [|q l IH]; simpl; [auto|].
  intros [Hq Hu] He. apply orb_false_iff in He as [He1 He2].
  split; [|apply IH; assumption].
  rewrite scheduled_in_app, Hq. simpl.
  rewrite Z.eqb_sym. exact He1.
Qed.

(** ** The trace of the scheduling functions *)

Lemma mark_key_held_trace k i : trace (mark_key_held k i) = trace i.
Proof. unfold mark_key_held. destruct (out_of_range k); reflexivity. Qed.

Lemma mark_key_released_trace k i : trace (mark_key_released k i) = trace i.
Proof. unfold mark_key_released. destruct (out_of_range k); reflexivity. Qed.

Lemma sched_key_release_trace k d i :
  trace (sched_key_release k d i) = trace i.
Proof.
  unfold sched_key_release, clock_gettime, pending_count.
  cbn [pending_releases].
  destruct (find_pending k (pending_releases i)); [reflexivity|].
  destruct (_ <? _)%nat; [|reflexivity].
  rewrite mark_key_held_trace. reflexivity.
Qed.

Lemma mark_key_held_same k i :
  pending_releases (mark_key_held k i) = pending_releases i /\
  clock (mark_key_held k i) = clock i /\
  clock_reads (mark_key_held k i) = clock_reads i.
Proof. unfold mark_key_held. destruct (out_of_range k); auto. Qed.

Lemma mark_key_released_same k i :
  pending_releases (mark_key_released k i) = pending_releases i /\
  clock (mark_key_released k i) = clock i /\
  clock_reads (mark_key_released k i) = clock_reads i.
Proof. unfold mark_key_released. destruct (out_of_range k); auto. Qed.

Section ModifierCalls.

Context `{Target}.

Lemma for_each_modifier_key_down_trace m i :
  trace (for_each_modifier_key_down m i) =
  trace i ++ map doom_key_down (modifier_keys m).
Proof.
  unfold for_each_modifier_key_down.
  generalize (modifier_keys m). intros l. revert i.
  induction l as [|k l IH]; intros i; simpl.
  - rewrite app_nil_r. reflexivity.
  - rewrite IH. simpl. rewrite <- app_assoc. reflexivity.
Qed.

Lemma for_each_modifier_key_down_same m i :
  pending_releases (for_each_modifier_key_down m i) = pending_releases i /\
  held_keys_bitmap (for_each_modifier_key_down m i) = held_keys_bitmap i /\
  clock_reads (for_each_modifier_key_down m i) = clock_reads i.
Proof.
  unfold for_each_modifier_key_down.
  generalize (modifier_keys m). intros l. revert i.
  induction l as [|k l IH]; intros i; simpl; [auto|].
  destruct (IH (emit (doom_key_down k) i)) as (A & B & C).
  rewrite A, B, C. auto.
Qed.

Lemma sched_modifier_releases_trace m d i :
  trace (sched_modifier_releases m d i) = trace i.
Proof.
  unfold sched_modifier_releases.
  generalize (modifier_keys m). intros l. revert i.
  induction l as [|k l IH]; intros i; simpl; [reflexivity|].
  rewrite IH. apply sched_key_release_trace.
Qed.

End ModifierCalls.

(** ** The three cases of [sched_key_release] *)

(** The state after one clock reading. *)
Definition tick (i : input) : input := (clock_gettime i).2.

Lemma sched_key_release_found k d i n :
  find_pending k (pending_releases i) = Some n ->
  sched_key_release k d i =
  set_pending_releases
    (alter (fun pr => {| key := key pr;
                         release_time :=
                           release_after (clock i (clock_reads i)) d |})
           n (pending_releases i)) (tick i).
Proof.
  intros E. unfold sched_key_release, clock_gettime, tick.
  cbn [pending_releases snd]. rewrite E. reflexivity.
Qed.

Lemma sched_key_release_new k d i :
  find_pending k (pending_releases i) = None ->
  (pending_count i < MAX_PENDING_RELEASES)%nat ->
  sched_key_release k d i =
  mark_key_held k
    (set_pending_releases
       (pending_releases i ++
        [{| key := k;
            release_time := release_after (clock i (clock_reads i)) d |}])
       (tick i)).
Proof.
  intros E Hroom. unfold sched_key_release, clock_gettime, tick.
  cbn [pending_releases snd]. rewrite E.
  unfold pending_count in *. cbn [pending_releases].
  destruct (Nat.ltb_spec (length (pending_releases i)) MAX_PENDING_RELEASES);
    [reflexivity | lia].
Qed.

Lemma sched_key_release_full k d i :
  find_pending k (pending_releases i) = None ->
  (MAX_PENDING_RELEASES <= pending_count i)%nat ->
  sched_key_release k d i = tick i.
Proof.
  intros E Hfull. unfold sched_key_release, clock_gettime, tick.
  cbn [pending_releases snd]. rewrite E.
  unfold pending_count in *. cbn [pending_releases].
  destruct (Nat.ltb_spec (length (pending_releases i)) MAX_PENDING_RELEASES);
    [lia | reflexivity].
Qed.

(** ** Bitmap and pending list agree in every reachable state *)

(** The bitmap has the bit of a key exactly when a release of the key is
    pending (for the keys that have a bit), and no key is pending twice. *)
Definition coherent (i : input) : Prop :=
  hold_bounds i /\
  unique_keys (pending_releases i) /\
  forall k, is_key_held i k =
            negb (out_of_range k) && scheduled_in k (pending_releases i).

Lemma coherent_same i j :
  pending_releases j = pending_releases i ->
  held_keys_bitmap j = held_keys_bitmap i ->
  coherent i -> coherent j.
Proof.
  intros HP HB ([Hb Hc] & Hu & Hk).
  unfold coherent, hold_bounds, pending_count, is_key_held in *.
  rewrite HP, HB. auto.
Qed.

Lemma coherent_sched_key_release k d i :
  coherent i -> coherent (sched_key_release k d i).
Proof.
  intros Hi. pose proof Hi as ([Hb Hc] & Hu & Hk).
  pose proof (find_pending_scheduled k (pending_releases i)) as Hs.
  destruct (find_pending k (pending_releases i)) as [n|] eqn:E.
  - rewrite (sched_key_release_found k d i n E).
    split; [|split].
    + split; [exact Hb|]. unfold pending_count in *.
      cbn [pending_releases set_pending_releases]. rewrite length_alter.
      exact Hc.
    + cbn [pending_releases set_pending_releases].
      apply unique_keys_alter, Hu.
    + intros k0. cbn [pending_releases set_pending_releases].
      rewrite scheduled_in_alter. apply Hk.
  - destruct (Nat.lt_ge_cases (pending_count i) MAX_PENDING_RELEASES)
      as [Hroom|Hfull].
    + rewrite (sched_key_release_new k d i E Hroom).
      set (e := {| key := k; release_time := _ |}).
      set (i1 := set_pending_releases (pending_releases i ++ [e]) (tick i)).
      destruct (mark_key_held_same k i1) as (MP & _ & _).
      split; [|split].
      * apply mark_key_held_bounds. split; [exact Hb|].
        unfold pending_count in *. subst i1.
        cbn [pending_releases set_pending_releases].
        rewrite length_app. cbn [length]. lia.
      * rewrite MP. subst i1. cbn [pending_releases set_pending_releases].
        apply unique_keys_app; [exact Hu | exact Hs].
      * intros k0. rewrite MP, is_key_held_mark by exact Hb.
        subst i1. cbn [pending_releases set_pending_releases].
        rewrite scheduled_in_app. cbn [key e].
        change (is_key_held (set_pending_releases
                  (pending_releases i ++ [e]) (tick i)) k0)
          with (is_key_held i k0).
        rewrite Hk. rewrite (Z.eqb_sym k k0).
        destruct (out_of_range k0), (scheduled_in k0 (pending_releases i)),
          (k0 =? k); reflexivity.
    + rewrite (sched_key_release_full k d i E Hfull).
      eapply coherent_same; [| |exact Hi]; reflexivity.
Qed.

Lemma coherent_release k n pr i :
  coherent i -> pending_releases i !! n = Some pr -> key pr = k ->
  coherent (set_pending_releases (delete n (pending_releases i))
              (mark_key_released k i)).
Proof.
  intros ([Hb Hc] & Hu & Hk) Hpr Hkey.
  destruct (mark_key_released_same k i) as (MP & _ & _).
  split; [|split].
  - pose proof (mark_key_released_bounds k i (conj Hb Hc)) as [Hb' Hc'].
    split; [exact Hb'|]. unfold pending_count in *.
    cbn [pending_releases set_pending_releases].
    etransitivity; [apply length_delete_le | exact Hc].
  - cbn [pending_releases set_pending_releases].
    apply unique_keys_delete, Hu.
  - intros k0. cbn [pending_releases set_pending_releases].
    change (is_key_held (set_pending_releases
              (delete n (pending_releases i)) (mark_key_released k i)) k0)
      with (is_key_held (mark_key_released k i) k0).
    rewrite is_key_held_release by exact Hb.
    rewrite (scheduled_in_delete k0 _ n pr Hu Hpr), Hkey, Hk.
    rewrite (Z.eqb_sym k k0).
    destruct (out_of_range k0), (scheduled_in k0 (pending_releases i)),
      (k0 =? k); reflexivity.
Qed.

Lemma coherent_release_at now i n :
  coherent i -> coherent (release_at now i n).
Proof.
  intros Hi. unfold release_at.
  destruct (pending_releases i !! n) as [pr|] eqn:E; [|exact Hi].
  destruct (expired now (release_time pr)); [|exact Hi].
  destruct (mark_key_released_same (key pr) (emit (doom_key_up (key pr)) i))
    as (MP & _ & _).
  rewrite MP. cbn [pending_releases emit].
  apply (coherent_release (key pr) n pr (emit (doom_key_up (key pr)) i));
    [|exact E | reflexivity].
  eapply coherent_same; [| |exact Hi]; reflexivity.
Qed.

Lemma coherent_process_pending_releases i :
  coherent i -> coherent (process_pending_releases i).
Proof.
  intros Hi. unfold process_pending_releases, clock_gettime.
  apply fold_left_preserves;
    [intros; apply coherent_release_at; assumption|].
  eapply coherent_same; [| |exact Hi]; reflexivity.
Qed.

Lemma coherent_held_pending i k :
  coherent i -> is_key_held i k = true ->
  exists n pr, find_pending k (pending_releases i) = Some n /\
               pending_releases i !! n = Some pr /\ key pr = k.
Proof.
  intros (_ & _ & Hk) Hheld. rewrite Hk in Hheld.
  apply andb_true_iff in Hheld as [_ Hs].
  rewrite find_pending_scheduled in Hs.
  destruct (find_pending k (pending_releases i)) as [n|] eqn:E;
    [|discriminate].
  destruct (find_pending_Some _ _ _ E) as (pr & Hpr & Hkey). eauto.
Qed.

Section Coherent.

Context `{Target}.

Lemma coherent_ascii_key ch i : coherent i -> coherent (ascii_key ch i).
Proof.
  intros Hi. unfold ascii_key. cbv zeta. apply coherent_sched_key_release.
  destruct (is_key_held i _); [exact Hi|].
  eapply coherent_same; [| |exact Hi]; reflexivity.
Qed.

Lemma coherent_ss3_key ch i : coherent i -> coherent (ss3_key ch i).
Proof.
  intros Hi. unfold ss3_key. cbv zeta. destruct (_ =? 0); [exact Hi|].
  apply coherent_sched_key_release.
  destruct (is_key_held i _); [exact Hi|].
  eapply coherent_same; [| |exact Hi]; reflexivity.
Qed.

Lemma coherent_csi_held_check k i :
  coherent i -> coherent (csi_held_check k i).2.
Proof.
  intros Hi. unfold csi_held_check, clock_gettime. cbn [pending_releases].
  destruct (find_pending k (pending_releases i)) as [n|] eqn:E;
    [|eapply coherent_same; [| |exact Hi]; reflexivity].
  destruct (find_pending_Some _ _ _ E) as (pr & Hpr & Hkey).
  rewrite Hpr.
  destruct (25 <? _);
    [|eapply coherent_same; [| |exact Hi]; reflexivity].
  cbn [snd].
  match goal with
  | |- coherent (set_pending_releases _ (mark_key_released k ?j)) =>
      destruct (mark_key_released_same k j) as (MP & _ & _);
      rewrite MP; cbn [pending_releases emit];
      apply (coherent_release k n pr j); [|exact Hpr | exact Hkey]
  end.
  eapply coherent_same; [| |exact Hi]; reflexivity.
Qed.

Lemma coherent_for_each_modifier_key_down m i :
  coherent i -> coherent (for_each_modifier_key_down m i).
Proof.
  intros Hi. unfold for_each_modifier_key_down.
  apply fold_left_preserves; [|exact Hi].
  intros j k Hj. eapply coherent_same; [| |exact Hj]; reflexivity.
Qed.

Lemma coherent_sched_modifier_releases m d i :
  coherent i -> coherent (sched_modifier_releases m d i).
Proof.
  intros Hi. unfold sched_modifier_releases.
  apply fold_left_preserves;
    [intros; apply coherent_sched_key_release; assumption | exact Hi].
Qed.

Lemma coherent_csi_key ch p1 p2 i :
  coherent i -> coherent (csi_key ch p1 p2 i).
Proof.
  intros Hi. unfold csi_key. cbv zeta. destruct (_ =? 0); [exact Hi|].
  set (k := csi_doom_key ch p1).
  assert (H1 : coherent
            (if is_key_held i k then csi_held_check k i else (false, i)).2).
  { destruct (is_key_held i k); [apply coherent_csi_held_check|]; exact Hi. }
  destruct (if is_key_held i k then csi_held_check k i else (false, i))
    as [is_new i1]. cbn [snd] in H1.
  assert (H2 : coherent
            (if negb (is_key_held i k) || is_new
             then emit (doom_key_down k) (for_each_modifier_key_down p2 i1)
             else i1)).
  { destruct (negb _ || _); [|exact H1].
    eapply coherent_same;
      [| |apply (coherent_for_each_modifier_key_down p2 i1 H1)];
      reflexivity. }
  apply (coherent_sched_key_release k (csi_delay_ms k)) in H2.
  destruct (negb _ || _); [|exact H2].
  apply coherent_sched_modifier_releases, H2.
Qed.

Lemma coherent_parse_mouse_sgr fc i :
  coherent i -> coherent (parse_mouse_sgr fc i).
Proof.
  intros Hi. unfold parse_mouse_sgr. cbv zeta.
  destruct (_ <? 3)%nat; [exact Hi|].
  destruct (negb (Z.land _ 64 =? 0)); [exact Hi|].
  destruct (negb (tracking (mouse i)));
    [eapply coherent_same; [| |exact Hi]; reflexivity|].
  set (i1 := mouse_motion _ _ i).
  assert (H1 : coherent i1).
  { subst i1. unfold mouse_motion. cbv zeta.
    destruct (_ || _); [|exact Hi].
    eapply coherent_same; [| |exact Hi]; reflexivity. }
  clearbody i1. unfold mouse_button. cbv zeta.
  destruct (negb _ && _); [|exact H1].
  destruct (_ && negb _).
  - destruct (_ =? 0);
      [eapply coherent_same; [| |exact H1]; reflexivity|].
    apply coherent_sched_key_release.
    eapply coherent_same; [| |exact H1]; reflexivity.
  - destruct (negb _ && _); [|exact H1].
    eapply coherent_same; [| |exact H1]; reflexivity.
Qed.

Lemma coherent_csi_dispatch ch i :
  coherent i -> coherent (csi_dispatch ch i).
Proof.
  intros Hi. unfold csi_dispatch. cbv zeta.
  destruct (_ && _);
    [eapply coherent_same; [| |exact Hi]; reflexivity|].
  destruct (ch =? chr "t").
  { destruct (_ && _); [|exact Hi].
    eapply coherent_same; [| |exact Hi]; reflexivity. }
  destruct (ch =? chr "R").
  { destruct (_ <=? _)%nat; [|exact Hi].
    eapply coherent_same; [| |exact Hi]; reflexivity. }
  destruct (_ || _).
  - destruct (_ =? chr "<"); [apply coherent_parse_mouse_sgr|]; exact Hi.
  - apply coherent_csi_key, Hi.
Qed.

Lemma coherent_set_state st i : coherent i -> coherent (set_state st i).
Proof. intros Hi. eapply coherent_same; [| |exact Hi]; reflexivity. Qed.

Lemma coherent_parse_char ch i : coherent i -> coherent (parse_char ch i).
Proof.
  intros Hi. unfold parse_char.
  destruct (ch =? 3);
    [eapply coherent_same; [| |exact Hi]; reflexivity|].
  destruct (ch =? 27).
  { apply coherent_set_state.
    destruct (state i); try exact Hi. apply coherent_ascii_key, Hi. }
  destruct (state i).
  - apply coherent_ascii_key, Hi.
  - destruct (ch =? chr "O"); [apply coherent_set_state, Hi|].
    destruct (ch =? chr "[");
      [eapply coherent_same; [| |exact Hi]; reflexivity|].
    cbv zeta. destruct (_ && _).
    + apply coherent_ascii_key, coherent_set_state, coherent_ascii_key, Hi.
    + apply coherent_set_state, coherent_ascii_key, Hi.
  - apply coherent_set_state, coherent_ss3_key, Hi.
  - destruct (_ || _);
      [eapply coherent_same; [| |exact Hi]; reflexivity|].
    destruct (_ && _);
      [eapply coherent_same; [| |exact Hi]; reflexivity|].
    destruct (ch =? chr ";");
      [eapply coherent_same; [| |exact Hi]; reflexivity|].
    cbv zeta. apply coherent_set_state, coherent_csi_dispatch.
    eapply coherent_same; [| |exact Hi]; reflexivity.
Qed.

(** One turn of the input thread keeps bitmap and pending list in
    agreement, whatever was read. *)
Lemma coherent_input_thread_step rd i :
  coherent i -> coherent (input_thread_step rd i).
Proof.
  intros Hi. unfold input_thread_step. cbv zeta.
  pose proof (coherent_process_pending_releases i Hi) as H1.
  set (i1 := process_pending_releases i) in *. clearbody i1.
  destruct (state i1), rd as [b|]; try exact H1;
    try (apply coherent_parse_char; exact H1).
  destruct (negb (esc_waiting i1)); [exact H1|].
  unfold clock_gettime. cbv zeta.
  destruct (100 <=? _); [|exact H1].
  apply coherent_set_state with (i := ascii_key 27 _).
  apply coherent_ascii_key. exact H1.
Qed.

End Coherent.

Lemma coherent_input_create clk : coherent (input_create clk).
Proof.
  split; [|split].
  - split; [reflexivity|]. unfold pending_count, MAX_PENDING_RELEASES.
    cbn. lia.
  - exact I.
  - intros k. rewrite is_key_held_bit. cbn [input_create pending_releases
      scheduled_in]. rewrite andb_false_r.
    destruct (out_of_range k) eqn:E; [reflexivity|]. cbn [negb andb].
    unfold held_bit. cbn [input_create held_keys_bitmap].
    destruct (key_split k E) as (Hw & _ & _).
    destruct (key_word k) as [|[|[|[|w]]]]; try lia; apply Z.testbit_0_l.
Qed.

(** ** The engine's view of a key *)

(** Whether the engine has the key down after the calls of the trace:
    the last call about the key decides. *)
Definition engine_down (tr : list event) (k : Z) : bool :=
  fold_left
    (fun down e =>
       match e with
       | doom_key_down k' => if k' =? k then true else down
       | doom_key_up k' => if k' =? k then false else down
       | doom_mouse_move _ _ => down
       end) tr false.

Definition is_key_down (k : Z) (e : event) : bool :=
  match e with doom_key_down k' => k' =? k | _ => false end.

Definition is_key_up (k : Z) (e : event) : bool :=
  match e with doom_key_up k' => k' =? k | _ => false end.

(** The number of [doom_key_down (k)] and of [doom_key_up (k)] calls. *)
Definition key_downs (k : Z) (tr : list event) : nat :=
  length (List.filter (is_key_down k) tr).

Definition key_ups (k : Z) (tr : list event) : nat :=
  length (List.filter (is_key_up k) tr).

(** The bitmap says of every key that has a bit what the engine was last
    told. *)
Definition agrees (i : input) : Prop :=
  forall k, out_of_range k = false ->
            is_key_held i k = engine_down (trace i) k.

Definition sound (i : input) : Prop := coherent i /\ agrees i.

(** At least [n] free entries in the pending list. *)
Definition room (n : nat) (i : input) : Prop :=
  (pending_count i + n <= MAX_PENDING_RELEASES)%nat.

Definition pressed (ks : list Z) (k : Z) : bool := existsb (Z.eqb k) ks.

Lemma engine_down_snoc tr e k :
  engine_down (tr ++ [e]) k =
  match e with
  | doom_key_down k' => if k' =? k then true else engine_down tr k
  | doom_key_up k' => if k' =? k then false else engine_down tr k
  | doom_mouse_move _ _ => engine_down tr k
  end.
Proof. unfold engine_down. rewrite fold_left_app. reflexivity. Qed.

Lemma engine_down_downs tr ks k :
  engine_down (tr ++ map doom_key_down ks) k = pressed ks k || engine_down tr k.
Proof.
  revert tr. induction ks as [|k' ks IH]; intros tr; cbn [map pressed existsb].
  - rewrite app_nil_r. reflexivity.
  - change (tr ++ doom_key_down k' :: map doom_key_down ks)
      with (tr ++ [doom_key_down k'] ++ map doom_key_down ks).
    rewrite app_assoc, IH, engine_down_snoc. unfold pressed.
    rewrite (Z.eqb_sym k k').
    destruct (k' =? k), (existsb (Z.eqb k) ks); reflexivity.
Qed.

Lemma room_le n m i : (m <= n)%nat -> room n i -> room m i.
Proof. unfold room. lia. Qed.

Lemma sched_key_release_count k d i :
  (pending_count (sched_key_release k d i) <= pending_count i + 1)%nat.
Proof.
  destruct (find_pending k (pending_releases i)) as [n|] eqn:E.
  - rewrite (sched_key_release_found k d i n E). unfold pending_count.
    cbn [pending_releases set_pending_releases]. rewrite length_alter. lia.
  - destruct (Nat.lt_ge_cases (pending_count i) MAX_PENDING_RELEASES)
      as [Hroom|Hfull].
    + rewrite (sched_key_release_new k d i E Hroom). unfold pending_count.
      destruct (mark_key_held_same k
                  (set_pending_releases
                     (pending_releases i ++
                      [{| key := k;
                          release_time :=
                            release_after (clock i (clock_reads i)) d |}])
                     (tick i))) as (-> & _).
      cbn [pending_releases set_pending_releases]. rewrite length_app.
      cbn [length]. lia.
    + rewrite (sched_key_release_full k d i E Hfull). unfold pending_count.
      cbn. lia.
Qed.

(** With a free entry, [sched_key_release] leaves the bit of its key set,
    and touches no other bit. *)
Lemma sched_key_release_held k d i k0 :
  coherent i -> room 1 i ->
  is_key_held (sched_key_release k d i) k0 =
  is_key_held i k0 || (negb (out_of_range k0) && (k0 =? k)).
Proof.
  intros ([Hb Hc] & Hu & Hk) Hroom.
  pose proof (find_pending_scheduled k (pending_releases i)) as Hs.
  destruct (find_pending k (pending_releases i)) as [n|] eqn:E.
  - rewrite (sched_key_release_found k d i n E).
    change (is_key_held (set_pending_releases _ (tick i)) k0)
      with (is_key_held i k0).
    destruct (out_of_range k0) eqn:Ho; cbn [negb andb];
      [rewrite orb_false_r; reflexivity|].
    destruct (Z.eqb_spec k0 k) as [->|]; [|rewrite orb_false_r; reflexivity].
    rewrite Hk, Ho, Hs. reflexivity.
  - rewrite (sched_key_release_new k d i E) by (unfold room in Hroom; lia).
    rewrite is_key_held_mark by exact Hb. reflexivity.
Qed.

Lemma agrees_same i j :
  held_keys_bitmap j = held_keys_bitmap i -> trace j = trace i ->
  agrees i -> agrees j.
Proof.
  intros HB HT Ha k Hk. unfold is_key_held. rewrite HB, HT. apply Ha, Hk.
Qed.

Lemma sound_same i j :
  pending_releases j = pending_releases i ->
  held_keys_bitmap j = held_keys_bitmap i -> trace j = trace i ->
  sound i -> sound j.
Proof.
  intros HP HB HT [Hc Ha].
  split; [eapply coherent_same | eapply agrees_same]; eassumption.
Qed.

(** A key press: [doom_key_down] unless the key is held, then
    [sched_key_release]. *)
Lemma sound_press k d (send : bool) i :
  sound i -> room 1 i ->
  (send = false -> out_of_range k = false -> is_key_held i k = true) ->
  sound (sched_key_release k d
           (if send then emit (doom_key_down k) i else i)).
Proof.
  intros [Hc Ha] Hroom Hsend.
  assert (Hc1 : coherent (if send then emit (doom_key_down k) i else i))
    by (destruct send; exact Hc).
  assert (Hr1 : room 1 (if send then emit (doom_key_down k) i else i))
    by (destruct send; exact Hroom).
  split; [apply coherent_sched_key_release, Hc1|].
  intros k0 Hk0.
  rewrite sched_key_release_held, sched_key_release_trace, Hk0
    by assumption.
  cbn [negb andb]. destruct send.
  - cbn [trace emit]. rewrite engine_down_snoc, <- (Ha k0 Hk0).
    change (is_key_held (emit (doom_key_down k) i) k0)
      with (is_key_held i k0).
    rewrite (Z.eqb_sym k k0).
    destruct (k0 =? k); [apply orb_true_r | apply orb_false_r].
  - rewrite <- (Ha k0 Hk0).
    destruct (Z.eqb_spec k0 k) as [->|]; [|apply orb_false_r].
    rewrite Hsend by auto. reflexivity.
Qed.

(** A release: [doom_key_up], the bit cleared, the entry removed. *)
Lemma sound_release k n pr i :
  sound i -> pending_releases i !! n = Some pr -> key pr = k ->
  sound (set_pending_releases
           (delete n (pending_releases i))
           (mark_key_released k (emit (doom_key_up k) i))).
Proof.
  intros [Hc Ha] Hpr Hkey.
  destruct (mark_key_released_same k (emit (doom_key_up k) i))
    as (MP & _ & _).
  split.
  - pose proof (coherent_release k n pr (emit (doom_key_up k) i)) as HR.
    cbn [pending_releases emit] in HR. apply HR; [exact Hc | exact Hpr |
      exact Hkey].
  - intros k0 Hk0.
    change (is_key_held (set_pending_releases
              (delete n (pending_releases i))
              (mark_key_released k (emit (doom_key_up k) i))) k0)
      with (is_key_held (mark_key_released k (emit (doom_key_up k) i)) k0).
    destruct Hc as ([Hb _] & _ & _).
    rewrite is_key_held_release by exact Hb.
    change (is_key_held (emit (doom_key_up k) i) k0)
      with (is_key_held i k0).
    cbn [trace set_pending_releases].
    rewrite mark_key_released_trace. cbn [trace emit].
    rewrite engine_down_snoc, <- (Ha k0 Hk0), (Z.eqb_sym k k0).
    destruct (k0 =? k); [apply andb_false_r | apply andb_true_r].
Qed.

Lemma sound_release_at now i n : sound i -> sound (release_at now i n).
Proof.
  intros Hi. unfold release_at.
  destruct (pending_releases i !! n) as [pr|] eqn:E; [|exact Hi].
  destruct (expired now (release_time pr)); [|exact Hi].
  destruct (mark_key_released_same (key pr) (emit (doom_key_up (key pr)) i))
    as (MP & _ & _).
  rewrite MP. cbn [pending_releases emit].
  apply (sound_release (key pr) n pr i Hi E eq_refl).
Qed.

Lemma release_at_count now i n :
  (pending_count (release_at now i n) <= pending_count i)%nat.
Proof.
  unfold release_at.
  destruct (pending_releases i !! n) as [pr|]; [|lia].
  destruct (expired now (release_time pr)); [|lia].
  unfold pending_count. cbn [pending_releases set_pending_releases].
  destruct (mark_key_released_same (key pr) (emit (doom_key_up (key pr)) i))
    as (-> & _).
  apply length_delete_le.
Qed.

Lemma process_pending_releases_count i :
  (pending_count (process_pending_releases i) <= pending_count i)%nat.
Proof.
  unfold process_pending_releases, clock_gettime.
  apply (fold_left_preserves
           (fun j => (pending_count j <= pending_count i)%nat)).
  - intros j n Hj. etransitivity; [apply release_at_count | exact Hj].
  - unfold pending_count. cbn. lia.
Qed.

Lemma sound_process_pending_releases i :
  sound i -> sound (process_pending_releases i).
Proof.
  intros Hi. unfold process_pending_releases, clock_gettime.
  apply fold_left_preserves;
    [intros; apply sound_release_at; assumption|].
  eapply sound_same; [| | |exact Hi]; reflexivity.
Qed.

(** Scheduling the releases of several keys. *)
Lemma sched_all ks d i :
  coherent i -> room (length ks) i ->
  let j := fold_left (fun i k => sched_key_release k d i) ks i in
  coherent j /\
  (pending_count j <= pending_count i + length ks)%nat /\
  trace j = trace i /\
  forall k0, is_key_held j k0 =
             is_key_held i k0 || (negb (out_of_range k0) && pressed ks k0).
Proof.
  revert i. induction ks as [|k ks IH]; intros i Hc Hroom; cbn zeta.
  - cbn [fold_left length pressed existsb].
    split; [exact Hc | split; [lia | split; [reflexivity|]]].
    intros k0. rewrite andb_false_r, orb_false_r. reflexivity.
  - cbn [fold_left length] in *.
    pose proof (sched_key_release_count k d i) as Hn.
    destruct (IH (sched_key_release k d i)) as (Hc' & Hn' & Ht' & Hh').
    { apply coherent_sched_key_release, Hc. }
    { unfold room in *. lia. }
    split; [exact Hc' | split; [lia | split]].
    + rewrite Ht'. apply sched_key_release_trace.
    + intros k0. rewrite Hh', sched_key_release_held;
        [|exact Hc | unfold room in *; lia].
      cbn [pressed existsb]. unfold pressed.
      destruct (is_key_held i k0), (out_of_range k0), (k0 =? k),
        (existsb (Z.eqb k0) ks); reflexivity.
Qed.

Section Sound.

Context `{Target}.

Lemma modifier_keys_length m : (length (modifier_keys m) <= 3)%nat.
Proof.
  unfold modifier_keys. destruct (2 <=? m); [|cbn; lia].
  cbv zeta. rewrite !length_app.
  destruct (_ =? 0), (_ =? 0), (_ =? 0); cbn; lia.
Qed.

Lemma ascii_key_count ch i :
  (pending_count (ascii_key ch i) <= pending_count i + 1)%nat.
Proof.
  unfold ascii_key. cbv zeta.
  etransitivity; [apply sched_key_release_count|].
  destruct (is_key_held i _); unfold pending_count; cbn; lia.
Qed.

Lemma sound_ascii_key ch i :
  sound i -> room 1 i -> sound (ascii_key ch i).
Proof.
  intros Hi Hroom. unfold ascii_key. cbv zeta.
  match goal with
  | |- context [is_key_held i ?k] =>
      pose proof (sound_press k 50 (negb (is_key_held i k)) i Hi Hroom) as HP;
      destruct (is_key_held i k); cbn [negb] in HP; apply HP
  end; [intros; reflexivity | discriminate].
Qed.

Lemma sound_ss3_key ch i :
  sound i -> room 1 i -> sound (ss3_key ch i).
Proof.
  intros Hi Hroom. unfold ss3_key. cbv zeta. destruct (_ =? 0); [exact Hi|].
  match goal with
  | |- context [is_key_held i ?k] =>
      pose proof (sound_press k 50 (negb (is_key_held i k)) i Hi Hroom) as HP;
      destruct (is_key_held i k); cbn [negb] in HP; apply HP
  end; [intros; reflexivity | discriminate].
Qed.

(** The held-key block of [csi_key]: either it released the key, or it
    only read the clock. *)
Lemma csi_held_check_cases k i :
  ((csi_held_check k i).1 = false /\ (csi_held_check k i).2 = tick i) \/
  ((csi_held_check k i).1 = true /\
   exists n pr, pending_releases i !! n = Some pr /\ key pr = k /\
     (csi_held_check k i).2 =
     set_pending_releases (delete n (pending_releases i))
       (mark_key_released k (emit (doom_key_up k) (tick i)))).
Proof.
  unfold csi_held_check, clock_gettime, tick. cbn [pending_releases snd].
  destruct (find_pending k (pending_releases i)) as [n|] eqn:E; [|auto].
  destruct (find_pending_Some _ _ _ E) as (pr & Hpr & Hkey).
  rewrite Hpr. destruct (25 <? _); [|auto].
  right. split; [reflexivity|]. exists n, pr.
  split; [exact Hpr|]. split; [exact Hkey|]. cbn [snd].
  match goal with
  | |- set_pending_releases (delete n (pending_releases ?j)) _ = _ =>
      destruct (mark_key_released_same k (emit (doom_key_up k) (tick i)))
        as (MP & _ & _)
  end.
  unfold tick, clock_gettime in MP. cbn [snd] in MP. rewrite MP.
  reflexivity.
Qed.

Lemma sound_csi_key ch p1 p2 i :
  sound i -> room 4 i -> sound (csi_key ch p1 p2 i).
Proof.
  intros Hi Hroom. unfold csi_key. cbv zeta. destruct (_ =? 0); [exact Hi|].
  set (k := csi_doom_key ch p1). set (d := csi_delay_ms k).
  assert (H1 : let r := if is_key_held i k then csi_held_check k i
                        else (false, i) in
               sound r.2 /\ room 4 r.2 /\
               (negb (is_key_held i k) || r.1 = false ->
                is_key_held r.2 k = true)).
  { destruct (is_key_held i k) eqn:Hheld; cbv zeta; cbn [negb orb fst snd];
      [|split; [exact Hi | split; [exact Hroom | discriminate]]].
    destruct (csi_held_check_cases k i) as [[E1 E2]|(E1 & n & pr & Hpr & Hk & E2)];
      rewrite E1, E2.
    - split; [eapply sound_same; [| | |exact Hi]; reflexivity|].
      split; [exact Hroom | intros _; exact Hheld].
    - split; [|split; [|discriminate]].
      + apply (sound_release k n pr (tick i)); [|exact Hpr | exact Hk].
        eapply sound_same; [| | |exact Hi]; reflexivity.
      + unfold room, pending_count in *.
        cbn [pending_releases set_pending_releases].
        pose proof (length_delete_le (pending_releases i) n). lia. }
  destruct (if is_key_held i k then csi_held_check k i else (false, i))
    as [is_new i1]. cbv zeta in H1. cbn [fst snd] in H1.
  destruct H1 as (Hs1 & Hr1 & Hh1).
  destruct (negb (is_key_held i k) || is_new) eqn:Hcond.
  - (* a new press: the calls for the modifiers and the key, then the
       releases of the key and of the modifiers *)
    unfold sched_modifier_releases.
    set (ks := modifier_keys p2).
    set (i2 := emit (doom_key_down k) (for_each_modifier_key_down p2 i1)).
    destruct (for_each_modifier_key_down_same p2 i1) as (SP & SB & _).
    assert (Hc2 : coherent i2).
    { eapply coherent_same; [exact SP | exact SB | apply Hs1]. }
    assert (Ht2 : trace i2 = trace i1 ++ map doom_key_down (ks ++ [k])).
    { subst i2. cbn [trace emit].
      rewrite for_each_modifier_key_down_trace, map_app, app_assoc.
      reflexivity. }
    assert (Hr2 : room (length (k :: ks)) i2).
    { pose proof (modifier_keys_length p2). unfold room, pending_count in *.
      subst i2. cbn [pending_releases emit length]. rewrite SP.
      unfold ks. lia. }
    destruct (sched_all (k :: ks) d i2 Hc2 Hr2) as (Hc3 & _ & Ht3 & Hh3).
    cbn [fold_left] in Hc3, Ht3, Hh3.
    split; [exact Hc3|].
    intros k0 Hk0. rewrite Hh3, Ht3, Ht2, engine_down_downs, Hk0.
    cbn [negb andb].
    change (is_key_held i2 k0) with
      (is_key_held (for_each_modifier_key_down p2 i1) k0).
    unfold is_key_held at 1. rewrite SB.
    fold (is_key_held i1 k0). destruct Hs1 as [_ Ha1].
    rewrite <- (Ha1 k0 Hk0). unfold pressed. rewrite existsb_app.
    cbn [existsb]. rewrite orb_false_r.
    destruct (is_key_held i1 k0), (k0 =? k), (existsb (Z.eqb k0) ks);
      reflexivity.
  - (* a repeat of a held key *)
    apply (sound_press k d false i1 Hs1 (room_le 4 1 i1 ltac:(lia) Hr1)).
    intros _ _. apply Hh1. reflexivity.
Qed.

Lemma sound_parse_mouse_sgr fc i :
  sound i -> room 1 i -> sound (parse_mouse_sgr fc i).
Proof.
  intros Hi Hroom. unfold parse_mouse_sgr. cbv zeta.
  destruct (_ <? 3)%nat; [exact Hi|].
  destruct (negb (Z.land _ 64 =? 0)); [exact Hi|].
  destruct (negb (tracking (mouse i)));
    [eapply sound_same; [| | |exact Hi]; reflexivity|].
  set (i1 := mouse_motion _ _ i).
  assert (H1 : sound i1 /\ room 1 i1).
  { subst i1. unfold mouse_motion. cbv zeta.
    destruct (_ || _); [|split; assumption].
    split; [|exact Hroom]. destruct Hi as [Hc Ha]. split; [exact Hc|].
    intros k Hk. cbn [trace set_mouse emit]. rewrite engine_down_snoc.
    apply Ha, Hk. }
  clearbody i1. destruct H1 as [H1 Hr1]. unfold mouse_button. cbv zeta.
  destruct (negb _ && _); [|exact H1].
  destruct (_ && negb _).
  - destruct (_ =? 0);
      [eapply sound_same; [| | |exact H1]; reflexivity|].
    match goal with
    | |- sound (sched_key_release ?k 50 (emit _ (set_mouse ?m i1))) =>
        apply (sound_press k 50 true (set_mouse m i1));
          [eapply sound_same; [| | |exact H1]; reflexivity
          |exact Hr1 | discriminate]
    end.
  - destruct (negb _ && _); [|exact H1].
    eapply sound_same; [| | |exact H1]; reflexivity.
Qed.

Lemma sound_csi_dispatch ch i :
  sound i -> room 4 i -> sound (csi_dispatch ch i).
Proof.
  intros Hi Hroom. unfold csi_dispatch. cbv zeta.
  destruct (_ && _);
    [eapply sound_same; [| | |exact Hi]; reflexivity|].
  destruct (ch =? chr "t").
  { destruct (_ && _); [|exact Hi].
    eapply sound_same; [| | |exact Hi]; reflexivity. }
  destruct (ch =? chr "R").
  { destruct (_ <=? _)%nat; [|exact Hi].
    eapply sound_same; [| | |exact Hi]; reflexivity. }
  destruct (_ || _).
  - destruct (_ =? chr "<"); [|exact Hi].
    apply sound_parse_mouse_sgr; [exact Hi|].
    apply (room_le 4 1 i); [lia | exact Hroom].
  - apply sound_csi_key; assumption.
Qed.

Lemma sound_set_state st i : sound i -> sound (set_state st i).
Proof. intros Hi. eapply sound_same; [| | |exact Hi]; reflexivity. Qed.

Lemma sound_parse_char ch i :
  sound i -> room 4 i -> sound (parse_char ch i).
Proof.
  intros Hi Hroom.
  assert (Hr1 : room 1 i) by (apply (room_le 4 1 i); [lia | exact Hroom]).
  unfold parse_char.
  destruct (ch =? 3);
    [eapply sound_same; [| | |exact Hi]; reflexivity|].
  destruct (ch =? 27).
  { apply sound_set_state.
    destruct (state i); try exact Hi. apply sound_ascii_key; assumption. }
  destruct (state i).
  - apply sound_ascii_key; assumption.
  - destruct (ch =? chr "O"); [apply sound_set_state, Hi|].
    destruct (ch =? chr "[");
      [eapply sound_same; [| | |exact Hi]; reflexivity|].
    cbv zeta.
    pose proof (sound_ascii_key 27 i Hi Hr1) as H1.
    pose proof (ascii_key_count 27 i) as Hn.
    destruct (_ && _); [|apply sound_set_state, H1].
    apply sound_ascii_key; [apply sound_set_state, H1|].
    unfold room, pending_count in *. cbn [pending_releases set_state]. lia.
  - apply sound_set_state, sound_ss3_key; assumption.
  - destruct (_ || _);
      [eapply sound_same; [| | |exact Hi]; reflexivity|].
    destruct (_ && _);
      [eapply sound_same; [| | |exact Hi]; reflexivity|].
    destruct (ch =? chr ";");
      [eapply sound_same; [| | |exact Hi]; reflexivity|].
    cbv zeta. apply sound_set_state, sound_csi_dispatch; [|exact Hroom].
    eapply sound_same; [| | |exact Hi]; reflexivity.
Qed.

(** While the pending list has four free entries at the start of a turn
    of the input thread (a key and its three modifiers at most are
    scheduled in one turn), the bitmap, the pending list and the engine
    agree after it. *)
Lemma sound_input_thread_step rd i :
  sound i -> room 4 i -> sound (input_thread_step rd i).
Proof.
  intros Hi Hroom. unfold input_thread_step. cbv zeta.
  pose proof (sound_process_pending_releases i Hi) as H1.
  assert (Hr1 : room 4 (process_pending_releases i)).
  { pose proof (process_pending_releases_count i). unfold room in *. lia. }
  set (i1 := process_pending_releases i) in *. clearbody i1.
  destruct (state i1), rd as [b|]; try exact H1;
    try (apply sound_parse_char; [exact H1 | exact Hr1]).
  destruct (negb (esc_waiting i1)); [exact H1|].
  unfold clock_gettime. cbv zeta.
  destruct (100 <=? _); [|exact H1].
  apply sound_set_state with (i := ascii_key 27 _).
  apply sound_ascii_key; [exact H1|].
  apply (room_le 4 1); [lia | exact Hr1].
Qed.

End Sound.

Lemma sound_input_create clk : sound (input_create clk).
Proof.
  split; [apply coherent_input_create|].
  intros k Hk. destruct (coherent_input_create clk) as (_ & _ & Hh).
  rewrite Hh. cbn [input_create pending_releases scheduled_in trace].
  apply andb_false_r.
Qed.

(** ** What a poll of the pending releases does *)

(** Is the release due at [now]? *)
Definition due (now : timespec) (pr : pending_release_t) : bool :=
  expired now (release_time pr).

Definition key_up_of (pr : pending_release_t) : event := doom_key_up (key pr).

Lemma lookup_middle_entry (l r : list pending_release_t) pr :
  (l ++ pr :: r) !! length l = Some pr.
Proof. induction l as [|x l IH]; [reflexivity | exact IH]. Qed.

Lemma delete_middle_entry (l r : list pending_release_t) pr :
  delete (length l) (l ++ pr :: r) = l ++ r.
Proof.
  induction l as [|x l IH]; [reflexivity|].
  simpl. f_equal. exact IH.
Qed.

Lemma mark_key_released_length k i :
  length (held_keys_bitmap (mark_key_released k i)) =
  length (held_keys_bitmap i).
Proof.
  unfold mark_key_released. destruct (out_of_range k); [reflexivity|].
  cbn. apply length_insert.
Qed.

(** The loop of [process_pending_releases] over the first [length l]
    entries, the entries [r] behind them staying as they are: the entries
    that are due go, the last of them first, each with a [doom_key_up]
    and its bit cleared. *)
Lemma release_loop now l :
  forall r i,
    pending_releases i = l ++ r ->
    length (held_keys_bitmap i) = 4%nat ->
    let j := fold_left (release_at now) (rev (seq 0 (length l))) i in
    pending_releases j = List.filter (fun pr => negb (due now pr)) l ++ r /\
    trace j = trace i ++ map key_up_of (rev (List.filter (due now) l)) /\
    length (held_keys_bitmap j) = 4%nat /\
    forall k, is_key_held j k =
              is_key_held i k &&
              negb (existsb (fun pr => due now pr && (key pr =? k)) l).
Proof.
  induction l as [|pr l IH] using rev_ind; intros r i Hp Hb; cbv zeta.
  - cbn. rewrite app_nil_r.
    split; [exact Hp | split; [reflexivity | split; [exact Hb|]]].
    intros k. rewrite andb_true_r. reflexivity.
  - rewrite length_app. cbn [length]. rewrite Nat.add_1_r, seq_S, rev_app_distr.
    cbn [rev app fold_left Nat.add].
    rewrite <- app_assoc in Hp. cbn [app] in Hp.
    rewrite !List.filter_app. cbn [List.filter].
    assert (E : release_at now i (length l) =
                if due now pr
                then set_pending_releases (l ++ r)
                       (mark_key_released (key pr)
                          (emit (doom_key_up (key pr)) i))
                else i).
    { unfold release_at. rewrite Hp, lookup_middle_entry. fold (due now pr).
      destruct (due now pr); [|reflexivity].
      destruct (mark_key_released_same (key pr)
                  (emit (doom_key_up (key pr)) i)) as (MP & _ & _).
      rewrite MP. cbn [pending_releases emit].
      rewrite Hp, delete_middle_entry. reflexivity. }
    rewrite E. clear E. destruct (due now pr) eqn:Hdue; cbn [negb].
    + match goal with
      | |- context [fold_left _ _ ?i'] =>
          destruct (IH r i') as (A & B & C & D)
      end.
      { reflexivity. }
      { cbn [held_keys_bitmap set_pending_releases].
        rewrite mark_key_released_length. exact Hb. }
      rewrite A, B, C. rewrite app_nil_r.
      split; [reflexivity|]. split.
      { cbn [trace set_pending_releases]. rewrite mark_key_released_trace.
        cbn [trace emit]. rewrite rev_app_distr. cbn [rev app map].
        rewrite <- app_assoc. reflexivity. }
      split; [reflexivity|].
      intros k. rewrite D.
      change (is_key_held (set_pending_releases (l ++ r)
                (mark_key_released (key pr)
                   (emit (doom_key_up (key pr)) i))) k)
        with (is_key_held (mark_key_released (key pr)
                (emit (doom_key_up (key pr)) i)) k).
      rewrite is_key_held_release by exact Hb.
      change (is_key_held (emit (doom_key_up (key pr)) i) k)
        with (is_key_held i k).
      rewrite existsb_app. cbn [existsb]. rewrite Hdue, orb_false_r.
      cbn [andb]. rewrite (Z.eqb_sym k (key pr)).
      destruct (is_key_held i k), (key pr =? k),
        (existsb (fun pr0 => due now pr0 && (key pr0 =? k)) l); reflexivity.
    + destruct (IH (pr :: r) i Hp Hb) as (A & B & C & D).
      rewrite A, B, C. rewrite <- app_assoc. cbn [app].
      split; [reflexivity|]. split; [rewrite app_nil_r; reflexivity|].
      split; [reflexivity|].
      intros k. rewrite D, existsb_app. cbn [existsb]. rewrite Hdue.
      cbn [andb]. rewrite !orb_false_r. reflexivity.
Qed.

(** [process_pending_releases] reads the clock once; every entry that is
    due at that reading is released, and no other. *)
Lemma process_pending_releases_spec i :
  hold_bounds i ->
  let now := clock i (clock_reads i) in
  let j := process_pending_releases i in
  pending_releases j =
    List.filter (fun pr => negb (due now pr)) (pending_releases i) /\
  trace j =
    trace i ++ map key_up_of (rev (List.filter (due now) (pending_releases i)))
  /\
  forall k, is_key_held j k =
            is_key_held i k &&
            negb (existsb (fun pr => due now pr && (key pr =? k))
                    (pending_releases i)).
Proof.
  intros [Hb _]. cbv zeta.
  unfold process_pending_releases, clock_gettime, pending_count.
  cbn [pending_releases].
  destruct (release_loop (clock i (clock_reads i)) (pending_releases i) []
              (tick i)) as (A & B & _ & D).
  { unfold tick, clock_gettime. cbn. rewrite app_nil_r. reflexivity. }
  { exact Hb. }
  unfold tick, clock_gettime in A, B, D. cbn [snd] in A, B, D.
  rewrite app_nil_r in A. auto.
Qed.

(** ** A literal key pressed twice, with room in the pending list *)




Lemma not_scheduled_in k l pr :
  scheduled_in k l = false -> In pr l -> (key pr =? k) = false.
Proof.
  induction l as [|x l IH]; cbn; [tauto|].
  intros Hs [->|Hin]; apply orb_false_iff in Hs as [H1 H2]; auto.
Qed.

Lemma filter_none {A} (f : A -> bool) l :
  (forall x, In x l -> f x = false) -> List.filter f l = [].
Proof.
  induction l as [|x l IH]; cbn; [reflexivity|]. intros Hf.
  rewrite (Hf x) by auto. apply IH. auto.
Qed.




Lemma find_pending_app_new k l e :
  scheduled_in k l = false -> key e = k ->
  find_pending k (l ++ [e]) = Some (length l).
Proof.
  intros Hs He. induction l as [|x l IH]; cbn.
  - rewrite He, Z.eqb_refl. reflexivity.
  - cbn in Hs. apply orb_false_iff in Hs as [H1 H2].
    rewrite H1, IH by exact H2. reflexivity.
Qed.

Lemma alter_last_entry (f : pending_release_t -> pending_release_t) l e :
  alter f (length l) (l ++ [e]) = l ++ [f e].
Proof.
  induction l as [|x l IH]; [reflexivity|].
  cbn [length app]. rewrite alter_cons_S, IH. reflexivity.
Qed.

Section LiteralKey.

Context `{Target}.

(** The key code [ascii_key] computes from its character. *)
Definition ascii_doom_key (ch : Z) : Z :=
  let doom_key := ch in
  let doom_key := if doom_key =? 13 then DOOM_KEY_ENTER else doom_key in
  let doom_key := if doom_key =? 10 then DOOM_KEY_ENTER else doom_key in
  if (ch =? chr " ") || (ch =? chr "f") || (ch =? chr "F") ||
     (ch =? chr "i") || (ch =? chr "I")
  then DOOM_KEY_CTRL else doom_key.

Lemma ascii_key_unfold ch i :
  ascii_key ch i =
  sched_key_release (ascii_doom_key ch) 50
    (if is_key_held i (ascii_doom_key ch) then i
     else emit (doom_key_down (ascii_doom_key ch)) i).
Proof. reflexivity. Qed.


(** X22. A literal key whose code is outside the bitmap (below 0 or
    above 255: a byte of 128 or more where [char] is signed) is never
    marked held, so every event of it calls [doom_key_down]: arriving
    twice with a free entry in the pending list and no release of it
    pending, it gets two [doom_key_down] calls and one list entry, armed
    by the first event and re-armed by the second; the bitmap is not
    touched. *)
Theorem literal_key_outside_bitmap_twice ch i :
  room 1 i ->
  let k := ascii_doom_key ch in
  out_of_range k = true ->
  scheduled_in k (pending_releases i) = false ->
  let i2 := ascii_key ch (ascii_key ch i) in
  trace i2 = trace i ++ [doom_key_down k; doom_key_down k] /\
  is_key_held (ascii_key ch i) k = false /\ is_key_held i2 k = false /\
  pending_releases i2 =
    pending_releases i ++
    [{| key := k;
        release_time :=
          release_after (clock i (S (clock_reads i))) 50 |}] /\
  held_keys_bitmap i2 = held_keys_bitmap i.
Proof.
  intros Hroom k Hk Hs. cbv zeta.
  assert (Hheld : forall j, is_key_held j k = false).
  { intros j. unfold is_key_held. fold k. rewrite Hk. reflexivity. }
  assert (Hmark : forall j, mark_key_held k j = j).
  { intros j. unfold mark_key_held. rewrite Hk. reflexivity. }
  pose proof (find_pending_scheduled k (pending_releases i)) as Hf.
  rewrite Hs in Hf.
  destruct (find_pending k (pending_releases i)) eqn:Ef; [discriminate|].
  rewrite (ascii_key_unfold ch i). fold k. rewrite Hheld.
  rewrite (sched_key_release_new k 50 (emit (doom_key_down k) i));
    [| exact Ef | unfold room, pending_count in *; cbn [pending_releases emit];
                  lia].
  rewrite Hmark.
  set (i1 := set_pending_releases _ _).
  rewrite (ascii_key_unfold ch i1). fold k. rewrite Hheld.
  rewrite (sched_key_release_found k 50 (emit (doom_key_down k) i1)
             (length (pending_releases i)));
    [|apply find_pending_app_new; [exact Hs | reflexivity]].
  split; [|split; [first [reflexivity | apply Hheld]|
          split; [first [reflexivity | apply Hheld]|split]]].
  - unfold i1, tick, clock_gettime.
    cbn [trace set_pending_releases emit snd].
    rewrite <- app_assoc. reflexivity.
  - unfold i1, tick, clock_gettime.
    cbn [pending_releases set_pending_releases emit snd clock clock_reads].
    rewrite alter_last_entry. reflexivity.
  - reflexivity.
Qed.

End LiteralKey.

(** ** Whole milliseconds and real time *)

Definition nanos (t : timespec) : Z := tv_sec t * 1000000000 + tv_nsec t.

(** The count of whole milliseconds is within one millisecond of the real
    distance, on either side. *)
Lemma time_to_release_ms_real rt now :
  let d := nanos rt - nanos now in
  let ms := time_to_release_ms rt now in
  ms * 1000000 - 1000000 < d < ms * 1000000 + 1000000.
Proof.
  unfold nanos, time_to_release_ms. cbv zeta.
  set (x := tv_nsec rt - tv_nsec now).
  pose proof (Z.quot_rem' x 1000000) as E.
  pose proof (Z.rem_bound_abs x 1000000 ltac:(lia)) as B.
  lia.
Qed.

Lemma time_to_release_ms_far rt now :
  26000000 <= nanos rt - nanos now -> 25 < time_to_release_ms rt now.
Proof. pose proof (time_to_release_ms_real rt now). cbv zeta in *. lia. Qed.

Lemma time_to_release_ms_near rt now :
  nanos rt - nanos now <= 25000000 -> time_to_release_ms rt now <= 25.
Proof. pose proof (time_to_release_ms_real rt now). cbv zeta in *. lia. Qed.

(** ** A CSI key that arrives while it is held *)

Section CsiKey.

Context `{Target}.

(** C3, as the code has it. Let a CSI key arrive while its bit is set and
    its release is pending at index [n] with deadline [release_time pr];
    let [now] be the clock reading [csi_key] takes and [later] the next
    one. The code counts the time to the release in whole milliseconds,
    [(sec - sec) * 1000 + (nsec - nsec) / 1000000] with the division
    truncating toward zero. When that count exceeds 25 (as it does
    whenever the deadline is 26 ms away or more), [doom_key_up] is called
    at once, the pending entry is removed, the key-down calls of the
    modifiers and then [doom_key_down] of the key follow, and the key is
    scheduled anew at the end of the list with its bit set again. When it
    does not (as whenever the deadline is 25 ms away or less, or past), no
    call is made, and nothing changes but the deadline of the entry,
    which becomes [later] plus the hold time, and the count of clock
    readings. A deadline between 25 and 26 ms away falls on either side,
    depending on the truncation. *)
Theorem csi_key_repeat_or_new_press :
  forall (i : input) (ch parm1 parm2 : Z) (n : nat) (pr : pending_release_t),
    let k := csi_doom_key ch parm1 in
    let delay_ms := csi_delay_ms k in
    let now := clock i (clock_reads i) in
    let later := clock i (S (clock_reads i)) in
    let ms := time_to_release_ms (release_time pr) now in
    let entry := {| key := k; release_time := release_after later delay_ms |} in
    k <> 0 ->
    is_key_held i k = true ->
    hold_bounds i ->
    unique_keys (pending_releases i) ->
    find_pending k (pending_releases i) = Some n ->
    pending_releases i !! n = Some pr ->
    (25 < ms ->
       trace (csi_key ch parm1 parm2 i) =
         trace i ++ [doom_key_up k] ++
         map doom_key_down (modifier_keys parm2) ++ [doom_key_down k] /\
       exists j,
         csi_key ch parm1 parm2 i = sched_modifier_releases parm2 delay_ms j /\
         pending_releases j = delete n (pending_releases i) ++ [entry] /\
         is_key_held j k = true) /\
    (ms <= 25 ->
       csi_key ch parm1 parm2 i =
         set_pending_releases
           (alter (fun pr => {| key := key pr;
                                release_time := release_after later delay_ms |})
                  n (pending_releases i))
           (tick (tick i)) /\
       trace (csi_key ch parm1 parm2 i) = trace i /\
       held_keys_bitmap (csi_key ch parm1 parm2 i) = held_keys_bitmap i) /\
    (26000000 <= nanos (release_time pr) - nanos now -> 25 < ms) /\
    (nanos (release_time pr) - nanos now <= 25000000 -> ms <= 25).
Proof.
  intros i ch p1 p2 n pr k delay_ms now later ms entry
    Hk Hheld [Hbm Hcnt] Huniq Hfind Hpr.
  assert (Hkey : key pr = k).
  { destruct (find_pending_Some _ _ _ Hfind) as (pr' & Hpr' & Hk').
    congruence. }
  assert (Hrange : out_of_range k = false).
  { rewrite is_key_held_bit in Hheld.
    destruct (out_of_range k); [discriminate | reflexivity]. }
  split; [|split; [|split]].
  - intros Hms. unfold csi_key. cbv zeta. fold k.
    destruct (Z.eqb_spec k 0) as [|_]; [contradiction|].
    rewrite Hheld. unfold csi_held_check, clock_gettime.
    cbn [pending_releases]. rewrite Hfind, Hpr. fold now ms.
    destruct (Z.ltb_spec 25 ms) as [_|]; [|lia].
    cbn [negb orb].
    change {| exit_requested := exit_requested i; state := state i;
              params := params i; query := query i;
              pending_releases := pending_releases i;
              held_keys_bitmap := held_keys_bitmap i;
              esc_time := esc_time i; esc_waiting := esc_waiting i;
              mouse := mouse i; trace := trace i; clock := clock i;
              clock_reads := S (clock_reads i) |} with (tick i).
    set (t1 := emit (doom_key_up k) (tick i)).
    destruct (mark_key_released_same k t1) as (MP & MC & MR).
    rewrite MP. change (pending_releases t1) with (pending_releases i).
    set (i1 := set_pending_releases _ _).
    set (i2 := emit (doom_key_down k) (for_each_modifier_key_down p2 i1)).
    assert (P1 : pending_releases i1 = delete n (pending_releases i))
      by reflexivity.
    destruct (for_each_modifier_key_down_same p2 i1) as (P2 & B2 & C2).
    assert (Pi2 : pending_releases i2 = delete n (pending_releases i)).
    { subst i2. cbn [pending_releases emit]. rewrite P2. exact P1. }
    assert (Ci2 : clock i2 (clock_reads i2) = later).
    { subst i2. cbn [clock clock_reads emit].
      destruct (for_each_modifier_key_down_hold_only p2 i1)
        as (_ & _ & _ & _ & _ & _ & _ & Hc).
      rewrite Hc, C2. subst i1.
      cbn [clock clock_reads set_pending_releases].
      rewrite MC, MR. reflexivity. }
    assert (Hnone : find_pending k (pending_releases i2) = None).
    { pose proof (find_pending_scheduled k (pending_releases i2)) as Hs.
      rewrite Pi2, (scheduled_in_delete k _ n pr Huniq Hpr), Hkey,
        Z.eqb_refl, andb_false_r in Hs.
      rewrite <- Pi2 in Hs.
      destruct (find_pending k (pending_releases i2));
        [discriminate | reflexivity]. }
    assert (Hroom : (pending_count i2 < MAX_PENDING_RELEASES)%nat).
    { unfold pending_count in *. rewrite Pi2.
      rewrite length_delete by (rewrite Hpr; eauto).
      assert (0 < length (pending_releases i))%nat
        by (apply lookup_lt_Some in Hpr; lia).
      lia. }
    rewrite (sched_key_release_new k (csi_delay_ms k) i2 Hnone Hroom).
    rewrite Ci2, Pi2. fold delay_ms. fold entry.
    set (j := mark_key_held k _).
    split.
    + rewrite sched_modifier_releases_trace. subst j.
      rewrite mark_key_held_trace. unfold tick, clock_gettime.
      cbn [trace set_pending_releases snd]. subst i2. cbn [trace emit].
      rewrite for_each_modifier_key_down_trace. subst i1.
      cbn [trace set_pending_releases].
      rewrite mark_key_released_trace. subst t1.
      unfold tick, clock_gettime. cbn [trace emit snd].
      rewrite <- !app_assoc. reflexivity.
    + exists j. split; [reflexivity|]. split.
      * subst j. unfold mark_key_held. rewrite Hrange. reflexivity.
      * subst j. rewrite is_key_held_mark.
        -- rewrite Hrange, Z.eqb_refl. apply orb_true_r.
        -- unfold tick, clock_gettime.
           cbn [held_keys_bitmap set_pending_releases snd].
           subst i2. cbn [held_keys_bitmap emit]. rewrite B2. subst i1.
           cbn [held_keys_bitmap set_pending_releases].
           unfold mark_key_released. rewrite Hrange.
           cbn [held_keys_bitmap set_held_keys_bitmap].
           rewrite length_insert. exact Hbm.
  - intros Hms. unfold csi_key. cbv zeta. fold k.
    destruct (Z.eqb_spec k 0) as [|_]; [contradiction|].
    rewrite Hheld. unfold csi_held_check, clock_gettime.
    cbn [pending_releases]. rewrite Hfind, Hpr. fold now ms.
    destruct (Z.ltb_spec 25 ms) as [|_]; [lia|].
    cbn [negb orb].
    match goal with
    | |- sched_key_release k _ ?i1 = _ /\ _ =>
        rewrite (sched_key_release_found k (csi_delay_ms k) i1 n Hfind)
    end.
    cbn [clock clock_reads pending_releases]. fold later delay_ms.
    split; [reflexivity|]. split; reflexivity.
  - apply time_to_release_ms_far.
  - apply time_to_release_ms_near.
Qed.

End CsiKey.

(** ** SGR mouse reports: reference position and motion *)

Lemma clamp_delta_range d : -100 <= clamp_delta d <= 100.
Proof.
  unfold clamp_delta, MAX_DELTA_CLAMP.
  destruct (Z.ltb_spec 100 d); cbv iota; [lia|].
  destruct (Z.ltb_spec d (Z.opp 100)); cbv iota; lia.
Qed.

Lemma clamp_delta_spec d : clamp_delta d = Z.max (-100) (Z.min 100 d).
Proof.
  unfold clamp_delta, MAX_DELTA_CLAMP.
  destruct (Z.ltb_spec 100 d); cbv iota; [lia|].
  destruct (Z.ltb_spec d (Z.opp 100)); cbv iota; lia.
Qed.

Lemma clamp_scaled_range d : -1000 <= clamp_delta d * 10 <= 1000.
Proof. pose proof (clamp_delta_range d). lia. Qed.

Section Mouse.

Context `{Target}.

Lemma mouse_button_trace fc cb i :
  exists keys,
    trace (mouse_button fc cb i) = trace i ++ map doom_key_down keys /\
    last_x (mouse (mouse_button fc cb i)) = last_x (mouse i) /\
    last_y (mouse (mouse_button fc cb i)) = last_y (mouse i) /\
    tracking (mouse (mouse_button fc cb i)) = tracking (mouse i).
Proof.
  unfold mouse_button. cbv zeta.
  destruct (negb _ && _).
  2:{ exists []. cbn [map]. rewrite app_nil_r. auto. }
  destruct (_ && negb _).
  - destruct (_ =? 0).
    + exists []. cbn [map]. rewrite app_nil_r. auto.
    + match goal with
      | |- context [sched_key_release ?k ?d ?j] =>
          pose proof (sched_key_release_hold_only k d j)
            as (_ & _ & _ & _ & _ & _ & HM & _);
          pose proof (sched_key_release_trace k d j) as HT;
          exists [k]
      end.
      rewrite HT, HM. auto.
  - destruct (negb _ && _).
    + exists []. cbn [map]. rewrite app_nil_r. auto.
    + exists []. cbn [map]. rewrite app_nil_r. auto.
Qed.

(** C8, as the code has it. A report with fewer than three parameters and
    a wheel report (bit 6 of the button code) are ignored altogether: no
    call, no change of the reference position, tracking not started. The
    first other report only records its position and starts tracking.
    Every later such report computes, per axis, the difference to the
    reference position, clamps it to [-100, 100] and multiplies it by the
    sensitivity 10; [doom_mouse_move] is called with the two products
    exactly when one of them is not zero, and the reference position moves
    to the reported cell in exactly that case. The only other calls a
    report can cause are key-down calls for a button. *)
Theorem mouse_report_motion :
  forall (i : input) (final_char : Z),
    let cb := parms (params i) !!! 0%nat in
    let cx := parms (params i) !!! 1%nat in
    let cy := parms (params i) !!! 2%nat in
    let dx := clamp_delta (cx - last_x (mouse i)) * 10 in
    let dy := clamp_delta (cy - last_y (mouse i)) * 10 in
    let moved := negb (dx =? 0) || negb (dy =? 0) in
    INT_MIN <= cx - last_x (mouse i) <= INT_MAX ->
    INT_MIN <= cy - last_y (mouse i) <= INT_MAX ->
    ((parm_count (params i) < 3)%nat \/ Z.land cb 64 <> 0 ->
       parse_mouse_sgr final_char i = i) /\
    ((3 <= parm_count (params i))%nat -> Z.land cb 64 = 0 ->
       (tracking (mouse i) = false ->
          parse_mouse_sgr final_char i =
          set_mouse {| last_x := cx; last_y := cy; tracking := true;
                       buttons := buttons (mouse i) |} i) /\
       (tracking (mouse i) = true ->
          exists keys,
            trace (parse_mouse_sgr final_char i) =
              trace i ++
              (if moved then [doom_mouse_move dx dy] else []) ++
              map doom_key_down keys /\
            last_x (mouse (parse_mouse_sgr final_char i)) =
              (if moved then cx else last_x (mouse i)) /\
            last_y (mouse (parse_mouse_sgr final_char i)) =
              (if moved then cy else last_y (mouse i)) /\
            tracking (mouse (parse_mouse_sgr final_char i)) = true)) /\
    -1000 <= dx <= 1000 /\ -1000 <= dy <= 1000.
Proof.
  intros i fc cb cx cy dx dy moved Hx Hy.
  split; [|split].
  - intros [Hc|Hw]; unfold parse_mouse_sgr; cbv zeta.
    + destruct (Nat.ltb_spec (parm_count (params i)) 3); [reflexivity | lia].
    + destruct (_ <? 3)%nat; [reflexivity|]. fold cb.
      destruct (Z.eqb_spec (Z.land cb 64) 0); [contradiction | reflexivity].
  - intros Hc Hw. unfold parse_mouse_sgr. cbv zeta.
    destruct (Nat.ltb_spec (parm_count (params i)) 3); [lia|].
    fold cb cx cy. rewrite Hw. cbn [Z.eqb negb].
    split; intros Ht; rewrite Ht; cbn [negb]; [reflexivity|].
    destruct (mouse_button_trace fc cb (mouse_motion cx cy i))
      as (keys & T2 & X2 & Y2 & K2).
    exists keys. rewrite T2, X2, Y2, K2.
    unfold mouse_motion. cbv zeta.
    rewrite !wrap_int_id by assumption.
    unfold MOUSE_SENSITIVITY. fold dx dy. fold moved.
    destruct moved; cbn; rewrite ?app_nil_r, <- ?app_assoc; auto.
  - split; apply clamp_scaled_range.
Qed.

End Mouse.

(** ** The parser never leaves its arrays, and where a CSI sequence ends *)

Section Parser.

Context `{Target}.

Lemma push_parm_bounds p :
  length (parms p) = MAX_PARMS -> (parm_count p <= MAX_PARMS)%nat ->
  length (parms (push_parm p)) = MAX_PARMS /\
  (parm_count (push_parm p) <= MAX_PARMS)%nat.
Proof.
  intros Hl Hc. unfold push_parm.
  destruct (Nat.ltb_spec (parm_count p) MAX_PARMS); cbn.
  - rewrite length_insert. split; [exact Hl | lia].
  - auto.
Qed.

Lemma hold_only_bounds i j :
  hold_only i j -> hold_bounds j -> in_bounds i -> in_bounds j.
Proof.
  intros (_ & _ & HP & _ & _ & _ & HM & _) Hj (_ & A & B & C).
  unfold in_bounds. rewrite HP, HM. auto.
Qed.

Lemma ascii_key_in_bounds ch i : in_bounds i -> in_bounds (ascii_key ch i).
Proof.
  intros Hi. eapply hold_only_bounds;
    [apply ascii_key_hold_only | apply ascii_key_bounds, Hi | exact Hi].
Qed.

Lemma set_state_in_bounds st i : in_bounds i -> in_bounds (set_state st i).
Proof. auto. Qed.

Lemma csi_dispatch_state ch i :
  state (csi_dispatch ch i) = state i.
Proof.
  unfold csi_dispatch. cbv zeta.
  destruct (_ && _); [reflexivity|].
  destruct (ch =? chr "t"); [destruct (_ && _); reflexivity|].
  destruct (ch =? chr "R"); [destruct (_ <=? _)%nat; reflexivity|].
  destruct (_ || _).
  - destruct (_ =? chr "<"); [apply parse_mouse_sgr_state | reflexivity].
  - apply csi_key_hold_only.
Qed.

Lemma csi_dispatch_in_bounds ch i :
  in_bounds i -> in_bounds (csi_dispatch ch i).
Proof.
  intros Hi. unfold csi_dispatch. cbv zeta.
  destruct (_ && _); [exact Hi|].
  destruct (ch =? chr "t"); [destruct (_ && _); exact Hi|].
  destruct (ch =? chr "R"); [destruct (_ <=? _)%nat; exact Hi|].
  destruct (_ || _).
  - destruct (_ =? chr "<"); [|exact Hi].
    destruct Hi as (Hh & A & B & C).
    destruct (parse_mouse_sgr_bounds ch i Hh C) as [Hh' C'].
    destruct (parse_mouse_sgr_state ch i) as (_ & HP & _).
    unfold in_bounds. rewrite HP. auto.
  - eapply hold_only_bounds;
      [apply csi_key_hold_only | apply csi_key_bounds, Hi | exact Hi].
Qed.

(** [parse_char] keeps every array access inside its array. *)
Lemma parse_char_in_bounds ch i : in_bounds i -> in_bounds (parse_char ch i).
Proof.
  intros Hi. unfold parse_char.
  destruct (ch =? 3); [exact Hi|].
  destruct (ch =? 27).
  { apply set_state_in_bounds.
    destruct (state i); try exact Hi. apply ascii_key_in_bounds, Hi. }
  destruct (state i).
  - apply ascii_key_in_bounds, Hi.
  - destruct (ch =? chr "O"); [exact Hi|].
    destruct (ch =? chr "[").
    { destruct Hi as (Hh & A & B & C). repeat split; try apply Hh; auto.
      cbn. unfold MAX_PARMS. lia. }
    cbv zeta. destruct (_ && _).
    + apply ascii_key_in_bounds, set_state_in_bounds, ascii_key_in_bounds, Hi.
    + apply set_state_in_bounds, ascii_key_in_bounds, Hi.
  - apply set_state_in_bounds.
    eapply hold_only_bounds;
      [apply ss3_key_hold_only | apply ss3_key_bounds, Hi | exact Hi].
  - destruct (_ || _); [exact Hi|].
    destruct (_ && _); [exact Hi|].
    destruct Hi as (Hh & A & B & C).
    destruct (push_parm_bounds (params i) A B) as [A' B'].
    destruct (ch =? chr ";").
    { repeat split; try apply Hh; auto. }
    cbv zeta. apply set_state_in_bounds, csi_dispatch_in_bounds.
    repeat split; try apply Hh; auto.
Qed.

(** ** Every array access checked *)

(** The handlers once more, each access to an array of the struct written
    with the index the source computes and checked against the array:
    [None] is an access outside it. Everything that touches no array is
    taken from the definitions above. *)

Local Notation "'do' x <- m ; k" :=
  (match m with Some x => k | None => None end)
  (at level 10, x name, m at level 100, k at level 200).

(** [a[n]] and [a[n] = v], for an [int] index [n]. *)
Definition array_get {A} (a : list A) (n : Z) : option A :=
  if (0 <=? n) && (n <? Z.of_nat (length a)) then a !! Z.to_nat n else None.

Definition array_set {A} (a : list A) (n : Z) (v : A) : option (list A) :=
  if (0 <=? n) && (n <? Z.of_nat (length a))
  then Some (<[Z.to_nat n := v]> a) else None.

(** The array [pending_releases] has [MAX_PENDING_RELEASES] entries, of
    which the list holds the first [pending_count]. A read of an entry
    that is not in use counts as an access outside the array too. *)
Definition pending_get (i : input) (n : Z) : option pending_release_t :=
  if (0 <=? n) && (n <? Z.of_nat MAX_PENDING_RELEASES)
  then pending_releases i !! Z.to_nat n else None.

(** [pending_releases[n].release_time = release_time] *)
Definition pending_set_time (n : nat) (release_time : timespec) (i : input)
  : option input :=
  do _ <- pending_get i (Z.of_nat n);
  Some (set_pending_releases
          (alter (fun pr => {| key := key pr; release_time := release_time |})
                 n (pending_releases i)) i).

(** [pending_releases[pending_count++] = pr] *)
Definition pending_push (pr : pending_release_t) (i : input) : option input :=
  if (0 <=? Z.of_nat (pending_count i)) &&
     (Z.of_nat (pending_count i) <? Z.of_nat MAX_PENDING_RELEASES)
  then Some (set_pending_releases (pending_releases i ++ [pr]) i)
  else None.

(** The removal of entry [n]: [pending_releases[j] =
    pending_releases[j + 1]] for [j] from [n] to [pending_count - 2],
    then [pending_count--]. *)
Definition pending_remove (n : nat) (i : input) : option input :=
  if (n <? pending_count i)%nat &&
     (pending_count i <=? MAX_PENDING_RELEASES)%nat
  then Some (set_pending_releases (delete n (pending_releases i)) i)
  else None.

(** The loop [for (i = 0; i < pending_count; i++)] that looks for [k],
    from index [n] with [count] entries to go. *)
Fixpoint find_pending_c (k : Z) (i : input) (n count : nat)
  : option (option nat) :=
  match count with
  | 0%nat => Some None
  | S count =>
      do pr <- pending_get i (Z.of_nat n);
      if key pr =? k then Some (Some n)
      else find_pending_c k i (S n) count
  end.

(** [mark_key_held] *)
Definition mark_key_held_c (key : Z) (i : input) : option input :=
  if out_of_range key then Some i
  else
    let word := Z.quot key 64 in
    let bit := Z.rem key 64 in
    do w <- array_get (held_keys_bitmap i) word;
    do bitmap <- array_set (held_keys_bitmap i) word
                   (Z.lor w (Z.shiftl 1 bit));
    Some (set_held_keys_bitmap bitmap i).

(** [mark_key_released] *)
Definition mark_key_released_c (key : Z) (i : input) : option input :=
  if out_of_range key then Some i
  else
    let word := Z.quot key 64 in
    let bit := Z.rem key 64 in
    do w <- array_get (held_keys_bitmap i) word;
    do bitmap <- array_set (held_keys_bitmap i) word
                   (Z.land w (Z.lxor (Z.ones 64) (Z.shiftl 1 bit)));
    Some (set_held_keys_bitmap bitmap i).

(** [is_key_held] *)
Definition is_key_held_c (i : input) (key : Z) : option bool :=
  if out_of_range key then Some false
  else
    let word := Z.quot key 64 in
    let bit := Z.rem key 64 in
    do bitmap_word <- array_get (held_keys_bitmap i) word;
    Some (negb (Z.land bitmap_word (Z.shiftl 1 bit) =? 0)).

(** [sched_key_release] *)
Definition sched_key_release_c (k : Z) (delay_ms : Z) (i : input)
  : option input :=
  let '(now, i) := clock_gettime i in
  let release_time := release_after now delay_ms in
  do found <- find_pending_c k i 0 (pending_count i);
  match found with
  | Some n => pending_set_time n release_time i
  | None =>
      if (pending_count i <? MAX_PENDING_RELEASES)%nat then
        do i <- pending_push {| key := k; release_time := release_time |} i;
        mark_key_held_c k i
      else Some i
  end.

(** [sched_modifier_releases] *)
Definition sched_modifier_releases_c (modifiers delay_ms : Z) (i : input)
  : option input :=
  fold_left (fun oi k => do i <- oi; sched_key_release_c k delay_ms i)
            (modifier_keys modifiers) (Some i).

(** [ascii_key] *)
Definition ascii_key_c (ch : Z) (i : input) : option input :=
  let doom_key := ch in
  let doom_key := if doom_key =? 13 then DOOM_KEY_ENTER else doom_key in
  let doom_key := if doom_key =? 10 then DOOM_KEY_ENTER else doom_key in
  let doom_key :=
    if (ch =? chr " ") || (ch =? chr "f") || (ch =? chr "F") ||
       (ch =? chr "i") || (ch =? chr "I")
    then DOOM_KEY_CTRL else doom_key in
  do held <- is_key_held_c i doom_key;
  let i := if held then i else emit (doom_key_down doom_key) i in
  sched_key_release_c doom_key 50 i.

(** [ss3_key] *)
Definition ss3_key_c (ch : Z) (i : input) : option input :=
  let doom_key := ss3_doom_key ch in
  if doom_key =? 0 then Some i
  else
    do held <- is_key_held_c i doom_key;
    let i := if held then i else emit (doom_key_down doom_key) i in
    sched_key_release_c doom_key 50 i.

(** The block of [csi_key] for a key that is already held. *)
Definition csi_held_check_c (doom_key : Z) (i : input)
  : option (bool * input) :=
  let '(now, i) := clock_gettime i in
  do found <- find_pending_c doom_key i 0 (pending_count i);
  match found with
  | None => Some (false, i)
  | Some n =>
      do pr <- pending_get i (Z.of_nat n);
      if 25 <? time_to_release_ms (release_time pr) now then
        let i := emit (doom_key_up doom_key) i in
        do i <- mark_key_released_c doom_key i;
        do i <- pending_remove n i;
        Some (true, i)
      else Some (false, i)
  end.

(** [csi_key] *)
Definition csi_key_c (ch parm1 parm2 : Z) (i : input) : option input :=
  let doom_key := csi_doom_key ch parm1 in
  if doom_key =? 0 then Some i
  else
    let delay_ms := csi_delay_ms doom_key in
    do already_held <- is_key_held_c i doom_key;
    do checked <- (if already_held then csi_held_check_c doom_key i
                   else Some (false, i));
    let is_new_keypress := checked.1 in
    let i := checked.2 in
    let i :=
      if negb already_held || is_new_keypress then
        emit (doom_key_down doom_key) (for_each_modifier_key_down parm2 i)
      else i in
    do i <- sched_key_release_c doom_key delay_ms i;
    if negb already_held || is_new_keypress then
      sched_modifier_releases_c parm2 delay_ms i
    else Some i.

(** The button part of [parse_mouse_sgr]. *)
Definition mouse_button_c (final_char cb : Z) (i : input) : option input :=
  let button := Z.land cb 3 in
  let is_motion := negb (Z.land cb 32 =? 0) in
  let is_press := final_char =? chr "M" in
  if negb is_motion && (button <? 3) then
    do down <- array_get (buttons (mouse i)) button;
    if is_press && negb down then
      do bs <- array_set (buttons (mouse i)) button true;
      let i := set_mouse {| last_x := last_x (mouse i);
                            last_y := last_y (mouse i);
                            tracking := tracking (mouse i);
                            buttons := bs |} i in
      let doom_key := button_doom_key button in
      if doom_key =? 0 then Some i
      else sched_key_release_c doom_key 50 (emit (doom_key_down doom_key) i)
    else if negb is_press && down then
      do bs <- array_set (buttons (mouse i)) button false;
      Some (set_mouse {| last_x := last_x (mouse i);
                         last_y := last_y (mouse i);
                         tracking := tracking (mouse i);
                         buttons := bs |} i)
    else Some i
  else Some i.

(** [parse_mouse_sgr] *)
Definition parse_mouse_sgr_c (final_char : Z) (i : input) : option input :=
  if (parm_count (params i) <? 3)%nat then Some i
  else
    do cb <- array_get (parms (params i)) 0;
    do cx <- array_get (parms (params i)) 1;
    do cy <- array_get (parms (params i)) 2;
    let is_wheel := negb (Z.land cb 64 =? 0) in
    if is_wheel then Some i
    else if negb (tracking (mouse i)) then
      Some (set_mouse {| last_x := cx; last_y := cy; tracking := true;
                         buttons := buttons (mouse i) |} i)
    else mouse_button_c final_char cb (mouse_motion cx cy i).

(** [parms[parm_count++] = parm], guarded by the capacity. *)
Definition push_parm_c (p : params_t) : option params_t :=
  if (parm_count p <? MAX_PARMS)%nat then
    do ps <- array_set (parms p) (Z.of_nat (parm_count p)) (parm p);
    Some {| parms := ps; parm := parm p;
            parm_count := S (parm_count p); parm_prefix := parm_prefix p |}
  else Some p.

(** The [memcpy] of [parm_count] parameters out of [parms]. *)
Definition store_device_attributes_c (i : input) : option input :=
  if (parm_count (params i) <=? length (parms (params i)))%nat
  then Some (store_device_attributes i) else None.

(** The dispatch on the final byte of a CSI sequence. *)
Definition csi_dispatch_c (ch : Z) (i : input) : option input :=
  let p := params i in
  if (ch =? chr "c") && (parm_prefix p =? chr "?") then
    store_device_attributes_c i
  else if ch =? chr "t" then
    if (3 <=? parm_count p)%nat then
      do kind <- array_get (parms p) 0;
      if kind =? 4 then
        do height <- array_get (parms p) 1;
        do width <- array_get (parms p) 2;
        Some (cell_size_report height width i)
      else Some i
    else Some i
  else if ch =? chr "R" then
    if (2 <=? parm_count p)%nat then
      do row <- array_get (parms p) 0;
      do col <- array_get (parms p) 1;
      Some (position_report row col i)
    else Some i
  else if (ch =? chr "M") || (ch =? chr "m") then
    if parm_prefix p =? chr "<" then parse_mouse_sgr_c ch i else Some i
  else
    do parm1 <- (if (0 <? parm_count p)%nat then array_get (parms p) 0
                 else Some 0);
    do parm2 <- (if (1 <? parm_count p)%nat then array_get (parms p) 1
                 else Some 0);
    csi_key_c ch parm1 parm2 i.

(** [parse_char] *)
Definition parse_char_c (ch : Z) (i : input) : option input :=
  if ch =? 3 then Some (set_exit_requested true i)
  else if ch =? 27 then
    do i <- match state i with
            | STATE_ESC => ascii_key_c 27 i
            | _ => Some i
            end;
    Some (set_state STATE_ESC i)
  else
    match state i with
    | STATE_GROUND => ascii_key_c ch i
    | STATE_ESC =>
        if ch =? chr "O" then Some (set_state STATE_SS3 i)
        else if ch =? chr "[" then
          Some (set_params {| parms := parms (params i); parm := 0;
                              parm_count := 0; parm_prefix := 0 |}
                  (set_state STATE_CSI i))
        else
          do i <- ascii_key_c 27 i;
          let i := set_state STATE_GROUND i in
          if (32 <=? ch) && (ch <? 127) then ascii_key_c ch i else Some i
    | STATE_SS3 =>
        do i <- ss3_key_c ch i; Some (set_state STATE_GROUND i)
    | STATE_CSI =>
        if (ch =? chr "?") || (ch =? chr ">") || (ch =? chr "<") then
          Some (set_params (set_parm_prefix ch (params i)) i)
        else if (chr "0" <=? ch) && (ch <=? chr "9") then
          Some (set_params
                  (set_parm (wrap_int (wrap_int (parm (params i) * 10) +
                                       (ch - chr "0")))
                            (params i)) i)
        else if ch =? chr ";" then
          do p <- push_parm_c (params i);
          Some (set_params (set_parm 0 p) i)
        else
          do p <- push_parm_c (params i);
          let i := set_params p i in
          do i <- csi_dispatch_c ch i;
          Some (set_state STATE_GROUND i)
    end.

(** Feeding a sequence of [char] values to the checked parser. *)
Definition parse_chars_c (chs : list Z) (i : input) : option input :=
  fold_left (fun oi ch => do i <- oi; parse_char_c ch i) chs (Some i).

(** *** The checks never fail *)

Lemma array_get_ok `{Inhabited A} (a : list A) (n : Z) :
  0 <= n < Z.of_nat (length a) ->
  array_get a n = Some (a !!! Z.to_nat n).
Proof.
  intros Hn. unfold array_get.
  destruct (Z.leb_spec 0 n); [|lia].
  destruct (Z.ltb_spec n (Z.of_nat (length a))); [|lia]. cbn.
  apply list_lookup_lookup_total_lt. lia.
Qed.

Lemma array_set_ok {A} (a : list A) (n : Z) (v : A) :
  0 <= n < Z.of_nat (length a) ->
  array_set a n v = Some (<[Z.to_nat n := v]> a).
Proof.
  intros Hn. unfold array_set.
  destruct (Z.leb_spec 0 n); [|lia].
  destruct (Z.ltb_spec n (Z.of_nat (length a))); [|lia]. reflexivity.
Qed.

Lemma key_word_in_bitmap k :
  out_of_range k = false -> 0 <= Z.quot k 64 < 4.
Proof.
  unfold out_of_range, MAX_KEY_CODE. intros Hk.
  apply orb_false_iff in Hk as [H1 H2].
  apply Z.ltb_ge in H1. apply Z.leb_gt in H2.
  rewrite Z.quot_div_nonneg by lia.
  split; [apply Z.div_pos; lia | apply Z.div_lt_upper_bound; lia].
Qed.

Lemma mark_key_held_ok k i :
  length (held_keys_bitmap i) = 4%nat ->
  mark_key_held_c k i = Some (mark_key_held k i).
Proof.
  intros Hl. unfold mark_key_held_c, mark_key_held.
  destruct (out_of_range k) eqn:Hk; [reflexivity|]. cbv zeta.
  pose proof (key_word_in_bitmap k Hk).
  rewrite array_get_ok, array_set_ok by (rewrite Hl; lia). reflexivity.
Qed.

Lemma mark_key_released_ok k i :
  length (held_keys_bitmap i) = 4%nat ->
  mark_key_released_c k i = Some (mark_key_released k i).
Proof.
  intros Hl. unfold mark_key_released_c, mark_key_released.
  destruct (out_of_range k) eqn:Hk; [reflexivity|]. cbv zeta.
  pose proof (key_word_in_bitmap k Hk).
  rewrite array_get_ok, array_set_ok by (rewrite Hl; lia). reflexivity.
Qed.

Lemma is_key_held_ok i k :
  length (held_keys_bitmap i) = 4%nat ->
  is_key_held_c i k = Some (is_key_held i k).
Proof.
  intros Hl. unfold is_key_held_c, is_key_held.
  destruct (out_of_range k) eqn:Hk; [reflexivity|]. cbv zeta.
  pose proof (key_word_in_bitmap k Hk).
  rewrite array_get_ok by (rewrite Hl; lia). reflexivity.
Qed.

Lemma pending_get_ok i n pr :
  (pending_count i <= MAX_PENDING_RELEASES)%nat ->
  pending_releases i !! n = Some pr ->
  pending_get i (Z.of_nat n) = Some pr.
Proof.
  intros Hc Hn. unfold pending_get.
  pose proof (lookup_lt_Some _ _ _ Hn) as Hlt. unfold pending_count in Hc.
  destruct (Z.leb_spec 0 (Z.of_nat n)); [|lia].
  destruct (Z.ltb_spec (Z.of_nat n) (Z.of_nat MAX_PENDING_RELEASES));
    [|lia].
  cbn [andb]. rewrite Nat2Z.id. exact Hn.
Qed.

Lemma find_pending_c_ok k i : forall l' l,
  pending_releases i = l' ++ l ->
  (pending_count i <= MAX_PENDING_RELEASES)%nat ->
  find_pending_c k i (length l') (length l) =
  Some (option_map (Nat.add (length l')) (find_pending k l)).
Proof.
  intros l' l. revert l'.
  induction l as [|pr l IH]; intros l' El Hc; [reflexivity|].
  cbn [length find_pending_c find_pending].
  rewrite (pending_get_ok i (length l') pr Hc)
    by (rewrite El; apply list_lookup_middle; reflexivity).
  destruct (key pr =? k).
  - cbn. rewrite Nat.add_0_r. reflexivity.
  - specialize (IH (l' ++ [pr])).
    rewrite length_app in IH. cbn [length] in IH.
    rewrite Nat.add_1_r in IH. rewrite IH;
      [| rewrite <- app_assoc; exact El | exact Hc].
    destruct (find_pending k l) as [n|]; cbn; [|reflexivity].
    do 2 f_equal. lia.
Qed.

Lemma find_pending_ok k i :
  (pending_count i <= MAX_PENDING_RELEASES)%nat ->
  find_pending_c k i 0 (pending_count i) =
  Some (find_pending k (pending_releases i)).
Proof.
  intros Hc.
  pose proof (find_pending_c_ok k i [] (pending_releases i) eq_refl Hc)
    as E.
  change (length []) with 0%nat in E. unfold pending_count. rewrite E.
  destruct (find_pending k (pending_releases i)); reflexivity.
Qed.

Lemma sched_key_release_ok k d i :
  hold_bounds i ->
  sched_key_release_c k d i = Some (sched_key_release k d i).
Proof.
  intros [Hb Hp]. unfold sched_key_release_c, sched_key_release.
  unfold clock_gettime. cbv zeta.
  set (j := {| exit_requested := exit_requested i;
               clock_reads := S (clock_reads i) |}).
  assert (Hpj : (pending_count j <= MAX_PENDING_RELEASES)%nat) by exact Hp.
  rewrite (find_pending_ok k j Hpj).
  destruct (find_pending k (pending_releases j)) as [n|] eqn:Ef.
  - destruct (find_pending_Some _ _ _ Ef) as (pr & Hn & _).
    unfold pending_set_time. rewrite (pending_get_ok j n pr Hpj Hn).
    reflexivity.
  - destruct (Nat.ltb_spec (pending_count j) MAX_PENDING_RELEASES) as [Hlt|];
      [|reflexivity].
    unfold pending_push.
    destruct (Z.leb_spec 0 (Z.of_nat (pending_count j))); [|lia].
    destruct (Z.ltb_spec (Z.of_nat (pending_count j))
                (Z.of_nat MAX_PENDING_RELEASES)); [|lia].
    cbn [andb]. apply mark_key_held_ok. exact Hb.
Qed.

Lemma fold_checked {A} (P : input -> Prop) (f : A -> input -> input)
    (fc : A -> input -> option input) (l : list A) :
  (forall a i, P i -> fc a i = Some (f a i) /\ P (f a i)) ->
  forall i, P i ->
  fold_left (fun oi a => do i <- oi; fc a i) l (Some i) =
  Some (fold_left (fun i a => f a i) l i) /\
  P (fold_left (fun i a => f a i) l i).
Proof.
  intros Hf. induction l as [|a l IH]; intros i Hi; cbn [fold_left];
    [auto|].
  destruct (Hf a i Hi) as [-> Hi']. apply IH, Hi'.
Qed.

Lemma sched_modifier_releases_ok m d i :
  hold_bounds i ->
  sched_modifier_releases_c m d i = Some (sched_modifier_releases m d i).
Proof.
  intros Hi. unfold sched_modifier_releases_c, sched_modifier_releases.
  apply (fold_checked hold_bounds (fun k i => sched_key_release k d i)
           (fun k i => sched_key_release_c k d i)); [|exact Hi].
  intros k j Hj. split;
    [apply sched_key_release_ok | apply sched_key_release_bounds]; exact Hj.
Qed.

Lemma ascii_key_ok ch i :
  hold_bounds i -> ascii_key_c ch i = Some (ascii_key ch i).
Proof.
  intros Hi. unfold ascii_key_c, ascii_key. cbv zeta.
  rewrite is_key_held_ok by apply Hi.
  apply sched_key_release_ok.
  destruct (is_key_held i _); [exact Hi | apply emit_bounds, Hi].
Qed.

Lemma ss3_key_ok ch i :
  hold_bounds i -> ss3_key_c ch i = Some (ss3_key ch i).
Proof.
  intros Hi. unfold ss3_key_c, ss3_key. cbv zeta.
  destruct (_ =? 0); [reflexivity|].
  rewrite is_key_held_ok by apply Hi.
  apply sched_key_release_ok.
  destruct (is_key_held i _); [exact Hi | apply emit_bounds, Hi].
Qed.

Lemma csi_held_check_ok k i :
  hold_bounds i -> csi_held_check_c k i = Some (csi_held_check k i).
Proof.
  intros [Hb Hp]. unfold csi_held_check_c, csi_held_check.
  unfold clock_gettime. cbv zeta.
  set (j := {| exit_requested := exit_requested i;
               clock_reads := S (clock_reads i) |}).
  assert (Hpj : (pending_count j <= MAX_PENDING_RELEASES)%nat) by exact Hp.
  rewrite (find_pending_ok k j Hpj).
  destruct (find_pending k (pending_releases j)) as [n|] eqn:Ef;
    [|reflexivity].
  destruct (find_pending_Some _ _ _ Ef) as (pr & Hn & _).
  rewrite (pending_get_ok j n pr Hpj Hn), Hn.
  destruct (25 <? _); [|reflexivity].
  rewrite mark_key_released_ok by exact Hb.
  set (x := mark_key_released k (emit (doom_key_up k) j)).
  assert (Ep : pending_releases x = pending_releases j)
    by apply (mark_key_released_same k (emit (doom_key_up k) j)).
  unfold pending_remove, pending_count. rewrite Ep.
  apply lookup_lt_Some in Hn. unfold pending_count in Hpj.
  destruct (Nat.ltb_spec n (length (pending_releases j))); [|lia].
  destruct (Nat.leb_spec (length (pending_releases j))
              MAX_PENDING_RELEASES); [|lia].
  reflexivity.
Qed.

Lemma csi_key_ok ch p1 p2 i :
  hold_bounds i -> csi_key_c ch p1 p2 i = Some (csi_key ch p1 p2 i).
Proof.
  intros Hi. unfold csi_key_c, csi_key. cbv zeta.
  destruct (_ =? 0); [reflexivity|].
  set (k := csi_doom_key ch p1).
  rewrite is_key_held_ok by apply Hi.
  assert (H1 : hold_bounds
            (if is_key_held i k then csi_held_check k i else (false, i)).2).
  { destruct (is_key_held i k); [apply csi_held_check_bounds | ]; exact Hi. }
  assert (E1 : (if is_key_held i k then csi_held_check_c k i
                else Some (false, i)) =
               Some (if is_key_held i k then csi_held_check k i
                     else (false, i))).
  { destruct (is_key_held i k); [apply csi_held_check_ok, Hi | reflexivity]. }
  rewrite E1.
  destruct (if is_key_held i k then csi_held_check k i else (false, i))
    as [is_new i1]. cbn [fst snd] in *.
  assert (H2 : hold_bounds
            (if negb (is_key_held i k) || is_new
             then emit (doom_key_down k) (for_each_modifier_key_down p2 i1)
             else i1)).
  { destruct (negb _ || _); [|exact H1]. apply emit_bounds.
    unfold for_each_modifier_key_down.
    apply fold_left_preserves; [intros; apply emit_bounds; assumption|].
    exact H1. }
  rewrite (sched_key_release_ok k (csi_delay_ms k) _ H2).
  apply (sched_key_release_bounds k (csi_delay_ms k)) in H2.
  destruct (negb _ || _); [|reflexivity].
  apply sched_modifier_releases_ok, H2.
Qed.

Lemma land_3 cb : 0 <= Z.land cb 3 < 4.
Proof.
  change 3 with (Z.ones 2). rewrite Z.land_ones by lia.
  apply Z.mod_pos_bound. lia.
Qed.

Lemma mouse_button_ok fc cb i :
  hold_bounds i -> length (buttons (mouse i)) = 3%nat ->
  mouse_button_c fc cb i = Some (mouse_button fc cb i).
Proof.
  intros Hi Hl. unfold mouse_button_c, mouse_button. cbv zeta.
  pose proof (land_3 cb) as Hb.
  destruct (negb _ && (Z.land cb 3 <? 3)) eqn:Hg; [|reflexivity].
  apply andb_true_iff in Hg as [_ Hlt]. apply Z.ltb_lt in Hlt.
  rewrite array_get_ok by (rewrite Hl; lia).
  destruct (_ && negb _).
  - rewrite array_set_ok by (rewrite Hl; lia).
    destruct (_ =? 0); [reflexivity|].
    apply sched_key_release_ok. exact Hi.
  - destruct (negb _ && _); [|reflexivity].
    rewrite array_set_ok by (rewrite Hl; lia). reflexivity.
Qed.

Lemma parse_mouse_sgr_ok fc i :
  in_bounds i -> parse_mouse_sgr_c fc i = Some (parse_mouse_sgr fc i).
Proof.
  intros (Hh & Hl & Hc & Hb). unfold parse_mouse_sgr_c, parse_mouse_sgr.
  destruct (_ <? 3)%nat; [reflexivity|].
  rewrite !array_get_ok by (rewrite Hl; unfold MAX_PARMS; lia).
  cbv zeta.
  destruct (negb (Z.land _ 64 =? 0)); [reflexivity|].
  destruct (negb (tracking (mouse i))); [reflexivity|].
  destruct (mouse_motion_bounds (parms (params i) !!! 1%nat)
              (parms (params i) !!! 2%nat) i Hh Hb) as [B1 L1].
  apply mouse_button_ok; assumption.
Qed.

Lemma push_parm_ok p :
  length (parms p) = MAX_PARMS ->
  push_parm_c p = Some (push_parm p).
Proof.
  intros Hl. unfold push_parm_c, push_parm.
  destruct (Nat.ltb_spec (parm_count p) MAX_PARMS); [|reflexivity].
  rewrite array_set_ok by lia. rewrite Nat2Z.id. reflexivity.
Qed.

Lemma csi_dispatch_ok ch i :
  in_bounds i -> csi_dispatch_c ch i = Some (csi_dispatch ch i).
Proof.
  intros Hi. pose proof Hi as (Hh & Hl & Hc & Hb).
  unfold csi_dispatch_c, csi_dispatch. cbv zeta.
  assert (G : forall n, 0 <= n < 3 ->
                array_get (parms (params i)) n =
                Some (parms (params i) !!! Z.to_nat n)).
  { intros n Hn. apply array_get_ok. rewrite Hl. unfold MAX_PARMS. lia. }
  destruct (_ && _).
  { unfold store_device_attributes_c.
    destruct (Nat.leb_spec (parm_count (params i))
                (length (parms (params i)))); [reflexivity | lia]. }
  destruct (ch =? chr "t").
  { destruct (3 <=? _)%nat; [|reflexivity]. cbn [andb].
    rewrite !G by lia.
    destruct (_ =? 4); reflexivity. }
  destruct (ch =? chr "R").
  { destruct (2 <=? _)%nat; [|reflexivity]. rewrite !G by lia.
    reflexivity. }
  destruct (_ || _).
  { destruct (_ =? chr "<"); [apply parse_mouse_sgr_ok, Hi | reflexivity]. }
  rewrite !G by lia.
  destruct (0 <? _)%nat, (1 <? _)%nat; apply csi_key_ok, Hh.
Qed.

(** With every array at its declared size and every count within it,
    no access of [parse_char] or of a function it calls leaves its
    array: the checked parser never fails and computes what the
    unchecked one computes. *)
Lemma parse_char_ok ch i :
  in_bounds i -> parse_char_c ch i = Some (parse_char ch i).
Proof.
  intros Hi. pose proof Hi as (Hh & Hl & Hc & Hb).
  unfold parse_char_c, parse_char.
  destruct (ch =? 3); [reflexivity|].
  destruct (ch =? 27).
  { destruct (state i); try reflexivity.
    rewrite ascii_key_ok by exact Hh. reflexivity. }
  destruct (state i).
  - apply ascii_key_ok, Hh.
  - destruct (ch =? chr "O"); [reflexivity|].
    destruct (ch =? chr "["); [reflexivity|].
    rewrite ascii_key_ok by exact Hh. cbv zeta.
    destruct (_ && _); [|reflexivity].
    apply ascii_key_ok. apply (ascii_key_bounds 27 i Hh).
  - rewrite ss3_key_ok by exact Hh. reflexivity.
  - destruct (_ || _); [reflexivity|].
    destruct (_ && _); [reflexivity|].
    rewrite push_parm_ok by exact Hl.
    destruct (ch =? chr ";"); [reflexivity|]. cbv zeta.
    destruct (push_parm_bounds (params i) Hl Hc) as [A' B'].
    rewrite csi_dispatch_ok; [reflexivity|].
    repeat split; try apply Hh; auto.
Qed.

Lemma parse_chars_ok chs : forall i,
  in_bounds i ->
  parse_chars_c chs i = Some (parse_chars chs i) /\
  in_bounds (parse_chars chs i).
Proof.
  intros i Hi. unfold parse_chars_c, parse_chars.
  apply (fold_checked in_bounds parse_char parse_char_c); [|exact Hi].
  intros ch j Hj. split;
    [apply parse_char_ok | apply parse_char_in_bounds]; exact Hj.
Qed.

(** The bytes that continue a CSI sequence: prefix, digit, separator. *)
Definition param_byte (ch : Z) : bool :=
  (ch =? chr "?") || (ch =? chr ">") || (ch =? chr "<") ||
  ((chr "0" <=? ch) && (ch <=? chr "9")) || (ch =? chr ";").

Lemma parse_char_csi_final ch i :
  state i = STATE_CSI -> ch <> 3 -> ch <> 27 -> param_byte ch = false ->
  state (parse_char ch i) = STATE_GROUND.
Proof.
  intros Hs H3 H27 Hp. unfold parse_char. rewrite Hs.
  destruct (Z.eqb_spec ch 3); [contradiction|].
  destruct (Z.eqb_spec ch 27); [contradiction|].
  unfold param_byte in Hp.
  apply orb_false_iff in Hp as [Hp Hsemi].
  apply orb_false_iff in Hp as [Hpre Hdig].
  rewrite Hpre, Hdig, Hsemi. reflexivity.
Qed.

Lemma parse_char_csi_param ch i :
  state i = STATE_CSI -> ch <> 3 -> ch <> 27 -> param_byte ch = true ->
  state (parse_char ch i) = STATE_CSI.
Proof.
  intros Hs H3 H27 Hp. unfold parse_char. rewrite Hs.
  destruct (Z.eqb_spec ch 3); [contradiction|].
  destruct (Z.eqb_spec ch 27); [contradiction|].
  unfold param_byte in Hp.
  destruct (_ || _) eqn:Hpre in |- *; [exact Hs|].
  destruct (_ && _) eqn:Hdig in |- *; [exact Hs|].
  rewrite Hpre, Hdig in Hp. cbn in Hp. rewrite Hp. exact Hs.
Qed.

Lemma parse_char_esc_state i : state (parse_char 27 i) = STATE_ESC.
Proof. reflexivity. Qed.

Lemma parse_char_bracket i :
  state i = STATE_ESC -> state (parse_char (chr "[") i) = STATE_CSI.
Proof. intros Hs. unfold parse_char. rewrite Hs. reflexivity. Qed.

(** C9, as the code has it. [parse_char] keeps every array access
    inside its array, whatever the byte: with each access of [parse_char]
    and of the functions it calls checked against its array
    ([parse_char_c]), the check never fails, for one byte and for any
    sequence of bytes, from any state in which the arrays have their
    declared sizes and the counts are within them; the checked parser
    computes what [parse_char] computes, and leaves such a state again.
    The [int] arithmetic of the parameter accumulator is taken to wrap
    around, as the compiled code has it; the states the statement is
    made for put no condition on the accumulator's value. In the CSI
    state, a byte that is no parameter byte (no digit, [;], [?], [>] or
    [<]) ends the sequence, and the parser is in GROUND after it, with two
    exceptions: Ctrl-C (0x03) requests the exit and leaves the parser in
    CSI, and ESC (0x1B) moves it to the ESC state, where the next sequence
    starts. So ESC [ followed by any other byte, a control byte included,
    leaves the parser in GROUND, from whatever state the ESC was read. *)
Theorem csi_interrupt_returns_to_ground :
  forall (i : input) (ch : Z),
    in_bounds i ->
    state i = STATE_CSI ->
    in_bounds (parse_char ch i) /\
    parse_char_c ch i = Some (parse_char ch i) /\
    (forall (j : input) (chs : list Z),
       in_bounds j ->
       parse_chars_c chs j = Some (parse_chars chs j) /\
       in_bounds (parse_chars chs j)) /\
    (ch = 3 ->
       state (parse_char ch i) = STATE_CSI /\
       exit_requested (parse_char ch i) = true) /\
    (ch = 27 -> state (parse_char ch i) = STATE_ESC) /\
    (ch <> 3 -> ch <> 27 -> param_byte ch = true ->
       state (parse_char ch i) = STATE_CSI) /\
    (ch <> 3 -> ch <> 27 -> param_byte ch = false ->
       state (parse_char ch i) = STATE_GROUND) /\
    (forall j : input,
       ch <> 3 -> ch <> 27 -> param_byte ch = false ->
       state (parse_chars [27; chr "["; ch] j) = STATE_GROUND).
Proof.
  intros i ch Hb Hs.
  split; [apply parse_char_in_bounds, Hb|].
  split; [apply parse_char_ok, Hb|].
  split; [intros j chs Hj; apply parse_chars_ok, Hj|].
  split; [intros ->; unfold parse_char; cbn; auto|].
  split; [intros ->; reflexivity|].
  split; [intros; apply parse_char_csi_param; assumption|].
  split; [intros; apply parse_char_csi_final; assumption|].
  intros j H3 H27 Hp. unfold parse_chars. cbn [fold_left].
  apply parse_char_csi_final; try assumption.
  apply parse_char_bracket, parse_char_esc_state.
Qed.

End Parser.

(** A clock that stands at zero. *)
Definition clock_zero : nat -> timespec :=
  fun _ => {| tv_sec := 0; tv_nsec := 0 |}.

(** The claim C9 fails for Ctrl-C: after ESC [ 0x03 the parser is still
    in the CSI state. It fails for ESC as well, which leaves the parser in
    the ESC state. *)
Lemma csi_ctrl_c_stays_in_csi :
  state (parse_chars [27; chr "["; 3] (input_create clock_zero))
    = STATE_CSI /\
  state (parse_chars [27; chr "["; 3] (input_create clock_zero))
    <> STATE_GROUND /\
  state (parse_chars [27; chr "["; 27] (input_create clock_zero))
    = STATE_ESC.
Proof. vm_compute. repeat split; discriminate. Qed.

(** The [char] values of a string of ASCII characters. *)
Definition chars (s : string) : list Z :=
  map (fun b => Z.of_N (Byte.to_N b)) (list_byte_of_string s).

(** The claim C8 fails for a wheel report: after ESC [ < 0 ; 10 ; 10 M has
    set the reference position, the report ESC [ < 64 ; 20 ; 10 M is ten
    cells to the right of it, and no [doom_mouse_move] is made: the trace
    is empty and the reference position has not moved. *)
Lemma wheel_report_is_ignored :
  let i := parse_chars (27 :: chars "[<0;10;10M" ++ 27 :: chars "[<64;20;10M")
             (input_create clock_zero) in
  tracking (mouse i) = true /\
  last_x (mouse i) = 10 /\
  clamp_delta (20 - 10) * MOUSE_SENSITIVITY = 100 /\
  trace i = [] /\
  ~ In (doom_mouse_move 100 0) (trace i).
Proof. vm_compute. repeat split; auto. Qed.

(** The parser after ESC [ < 0 ; 10 ; 10 M and then ESC [ < 35 ; 25 ; 7,
    at the point where the final byte has closed the last parameter. *)
Definition mouse_example : input :=
  let i := parse_chars (27 :: chars "[<0;10;10M" ++ 27 :: chars "[<35;25;7")
             (input_create clock_zero) in
  set_params (push_parm (params i)) i.

Lemma mouse_report_motion_witness :
  exists keys,
    trace (parse_mouse_sgr (chr "M") mouse_example) =
      trace mouse_example ++ [doom_mouse_move 150 (-30)] ++
      map doom_key_down keys /\
    last_x (mouse (parse_mouse_sgr (chr "M") mouse_example)) = 25 /\
    last_y (mouse (parse_mouse_sgr (chr "M") mouse_example)) = 7.
Proof.
  pose proof (mouse_report_motion mouse_example (chr "M")
                ltac:(vm_compute; split; discriminate)
                ltac:(vm_compute; split; discriminate))
    as (_ & Hrep & _).
  destruct (Hrep ltac:(vm_compute; lia) eq_refl) as [_ Htrack].
  destruct (Htrack eq_refl) as (keys & T & X & Y & _).
  exists keys. split; [exact T|]. split; [exact X | exact Y].
Defined.

(** A clock that reads 0 first and 54.5 ms at every later reading. *)
Definition clock_tap : nat -> timespec :=
  fun n => match n with
           | O => {| tv_sec := 0; tv_nsec := 0 |}
           | S _ => {| tv_sec := 0; tv_nsec := 54500000 |}
           end.

(** The parser after the up-arrow sequence ESC [ A, read at time 0. *)
Definition arrow_held : input :=
  parse_chars [27; chr "["; chr "A"] (input_create clock_tap).

(** The claim C3 fails between 25 and 26 ms. The up arrow is held with its
    release 80 ms after time 0; the same key arrives at 54.5 ms, when the
    release is 25.5 ms away, more than 25 ms. The code counts 25 whole
    milliseconds and treats the event as a repeat: no call is made. *)
Lemma arrow_repeat_at_25_5_ms :
  pending_releases arrow_held =
    [{| key := 173;
        release_time := {| tv_sec := 0; tv_nsec := 80000000 |} |}] /\
  is_key_held arrow_held 173 = true /\
  clock arrow_held (clock_reads arrow_held) =
    {| tv_sec := 0; tv_nsec := 54500000 |} /\
  nanos {| tv_sec := 0; tv_nsec := 80000000 |} -
    nanos {| tv_sec := 0; tv_nsec := 54500000 |} = 25500000 /\
  25000000 < 25500000 /\
  trace arrow_held = [doom_key_down 173] /\
  trace (parse_chars [27; chr "["; chr "A"] arrow_held) =
    [doom_key_down 173].
Proof. vm_compute. repeat split. Qed.

Lemma csi_key_repeat_or_new_press_witness :
  trace (csi_key (chr "A") 0 0 arrow_held) = trace arrow_held /\
  held_keys_bitmap (csi_key (chr "A") 0 0 arrow_held) =
    held_keys_bitmap arrow_held.
Proof.
  pose proof (@csi_key_repeat_or_new_press puredoom_x86_64
                arrow_held (chr "A") 0 0 0%nat
                {| key := 173;
                   release_time := {| tv_sec := 0; tv_nsec := 80000000 |} |}
                ltac:(vm_compute; intros E; discriminate E)
                ltac:(vm_compute; reflexivity)
                ltac:(split; [reflexivity | vm_compute; lia])
                ltac:(vm_compute; auto)
                ltac:(vm_compute; reflexivity)
                ltac:(vm_compute; reflexivity))
    as (_ & Hnear & _).
  destruct (Hnear ltac:(vm_compute; intros E; discriminate E))
    as (_ & T & B).
  split; [exact T | exact B].
Defined.

(** ** A full pending list *)

(** Turns of the loop of [input_thread_func], one for each result of
    [os_getch_timeout]. *)
Definition input_thread_run `{Target} (reads : list (option Z)) (i : input)
  : input :=
  fold_left (fun i rd => input_thread_step rd i) reads i.

(** A clock that reads 0 for the first thirty-six readings and one second
    from then on: eighteen bytes arrive in one burst (each turn of the loop
    reads the clock twice, for the poll of the pending releases and for the
    new deadline), and the next poll comes a second later. *)
Definition clock_burst : nat -> timespec :=
  fun n => if (n <? 36)%nat then {| tv_sec := 0; tv_nsec := 0 |}
           else {| tv_sec := 1; tv_nsec := 0 |}.

(** Sixteen distinct literal keys, none of them a fire key, and then the
    key [s] twice. *)
Definition burst : list (option Z) := map Some (chars "abcdeghjklmnopqrss").

(** C4 at the failing input. After the sixteen keys of the burst the
    pending list is full. The first [s] (code 115) finds its bit clear, so
    [doom_key_down (115)] is called; [sched_key_release] finds no entry and
    no free slot, and neither schedules the release nor sets the bit. The
    engine has the key down, and the bitmap says it is not held. *)
Lemma full_list_key_down_without_bit :
  let i := input_thread_run (take 17 burst) (input_create clock_burst) in
  pending_count i = 16%nat /\
  engine_down (trace i) 115 = true /\
  is_key_held i 115 = false /\
  scheduled_in 115 (pending_releases i) = false.
Proof. vm_compute. repeat split. Qed.

(** C2 at the failing input. With the pending list full, the key [s]
    arrives twice at the same instant: [doom_key_down (115)] is called
    twice, and after a turn of the loop a second later, when all deadlines
    have passed and the pending list has been emptied, [doom_key_up (115)]
    has not been called at all, while each of the sixteen scheduled keys
    got its one call of either kind. *)
Lemma full_list_key_twice :
  let i := input_thread_run burst (input_create clock_burst) in
  let j := input_thread_step None i in
  key_downs 115 (trace i) = 2%nat /\
  key_ups 115 (trace j) = 0%nat /\
  pending_releases j = [] /\
  engine_down (trace j) 115 = true /\
  key_downs 97 (trace j) = 1%nat /\
  key_ups 97 (trace j) = 1%nat.
Proof. vm_compute. repeat split. Qed.

(** With room in the list the same two events give one call of either
    kind: on a fresh input state the key [s] arrives at 0 ms and at 10 ms,
    and the poll at 70 ms, past the re-armed deadline of 60 ms, releases
    it. *)
Definition clock_hold : nat -> timespec :=
  fun n => match n with
           | 0%nat => {| tv_sec := 0; tv_nsec := 0 |}
           | 1%nat => {| tv_sec := 0; tv_nsec := 10000000 |}
           | _ => {| tv_sec := 0; tv_nsec := 70000000 |}
           end.


(** The byte 233 (the second byte of a UTF-8 encoded letter, say) is the
    [char] -23 where [char] is signed: twice in a row it is sent down
    twice. *)
Lemma literal_key_outside_bitmap_twice_witness :
  let i2 := ascii_key (-23) (ascii_key (-23) (input_create clock_hold)) in
  to_char 233 = -23 /\
  trace i2 = [doom_key_down (-23); doom_key_down (-23)] /\
  is_key_held i2 (-23) = false /\
  pending_releases i2 =
    [{| key := -23;
        release_time := release_after (clock_hold 1) 50 |}].
Proof.
  destruct (@literal_key_outside_bitmap_twice puredoom_x86_64 (-23)
              (input_create clock_hold))
    as (Ht & _ & Hh & Hp & _).
  - unfold room, MAX_PENDING_RELEASES. cbn. lia.
  - reflexivity.
  - reflexivity.
  - split; [reflexivity|]. split; [exact Ht|]. split; [exact Hh | exact Hp].
Defined.

Lemma input_create_in_bounds clk : in_bounds (input_create clk).
Proof. repeat split; cbn; unfold MAX_PENDING_RELEASES; lia. Qed.

Lemma csi_interrupt_returns_to_ground_witness :
  state (parse_char 7 (parse_chars [27; chr "["] (input_create clock_zero)))
    = STATE_GROUND /\
  parse_chars_c [27; chr "["; chr "1"; chr ";"; chr "5"; chr "A"; 7]
    (input_create clock_zero) =
  Some (parse_chars [27; chr "["; chr "1"; chr ";"; chr "5"; chr "A"; 7]
          (input_create clock_zero)).
Proof.
  pose proof (csi_interrupt_returns_to_ground
                (parse_chars [27; chr "["] (input_create clock_zero)) 7
                (parse_char_in_bounds _ _
                   (parse_char_in_bounds _ _
                      (input_create_in_bounds clock_zero)))
                eq_refl) as (_ & _ & Hseq & _ & _ & _ & Hfinal & _).
  split.
  - apply Hfinal; [discriminate | discriminate | reflexivity].
  - apply Hseq, input_create_in_bounds.
Defined.

(** ** Runs of the input thread *)

Section Runs.

Context `{Target}.

Lemma input_thread_run_snoc reads rd i :
  input_thread_run (reads ++ [rd]) i =
  input_thread_step rd (input_thread_run reads i).
Proof. unfold input_thread_run. rewrite fold_left_app. reflexivity. Qed.

Lemma input_thread_run_invariant (P : input -> Prop) reads i :
  (forall rd j, P j -> P (input_thread_step rd j)) ->
  P i -> P (input_thread_run reads i).
Proof.
  intros Hs. unfold input_thread_run. revert i.
  induction reads as [|rd reads IH]; intros i Hi; cbn [fold_left]; auto.
Qed.

Lemma coherent_run clk reads :
  coherent (input_thread_run reads (input_create clk)).
Proof.
  apply input_thread_run_invariant;
    [intros; apply coherent_input_thread_step; assumption|].
  apply coherent_input_create.
Qed.

End Runs.

Lemma unique_keys_NoDup l : unique_keys l -> NoDup (map key l).
Proof.
  induction l as [|pr l IH]; cbn [unique_keys map]; [constructor|].
  intros [Hn Hu]. constructor; [|apply IH, Hu].
  intros Hin. apply list_elem_of_fmap in Hin as (pr' & Hk & Hin).
  apply list_elem_of_In in Hin.
  pose proof (not_scheduled_in (key pr) l pr' Hn Hin) as Hne.
  rewrite Hk, Z.eqb_refl in Hne. discriminate.
Qed.

Lemma scheduled_in_In k l :
  scheduled_in k l = true <-> exists pr, In pr l /\ key pr = k.
Proof.
  induction l as [|x l IH]; cbn [scheduled_in In].
  - split; [discriminate | intros (pr & [] & _)].
  - rewrite orb_true_iff, IH, Z.eqb_eq. split.
    + intros [Hx | (pr & Hin & Hk)]; [exists x; auto | exists pr; auto].
    + intros (pr & [-> | Hin] & Hk); [left; exact Hk | right; eauto].
Qed.

Section RunInvariants.

Context `{Target}.

(** X5. In every state the input thread reaches, the pending-release list
    holds at most sixteen entries and no key twice, whatever bytes arrive
    and whatever the clock reads. *)
Theorem pending_list_bounded_no_duplicates (clk : nat -> timespec)
    (reads : list (option Z)) :
  let i := input_thread_run reads (input_create clk) in
  (pending_count i <= MAX_PENDING_RELEASES)%nat /\
  NoDup (map key (pending_releases i)).
Proof.
  cbv zeta. destruct (coherent_run clk reads) as ([_ Hn] & Hu & _).
  split; [exact Hn|]. apply unique_keys_NoDup, Hu.
Qed.

(** X6. In every state the input thread reaches, the bit of a key is set
    in the held-keys bitmap exactly when the key code is one of the 256
    the bitmap covers and a release of the key is pending. *)
Theorem held_bit_iff_release_pending (clk : nat -> timespec)
    (reads : list (option Z)) (k : Z) :
  let i := input_thread_run reads (input_create clk) in
  is_key_held i k = true <->
  (0 <= k < MAX_KEY_CODE /\
   exists pr, In pr (pending_releases i) /\ key pr = k).
Proof.
  cbv zeta. destruct (coherent_run clk reads) as (_ & _ & Hk).
  rewrite Hk, andb_true_iff, scheduled_in_In, negb_true_iff.
  unfold out_of_range, MAX_KEY_CODE. rewrite orb_false_iff.
  rewrite Z.ltb_ge, Z.leb_gt. tauto.
Qed.

(** X7. A poll of the pending releases reads the clock once and releases
    exactly the entries whose deadline has passed at that reading: each of
    them gets one [doom_key_up], the last entry of the list first, and
    has its bit cleared; the other entries stay, in their order, and no
    other bit changes. *)
Theorem poll_releases_what_is_due (clk : nat -> timespec)
    (reads : list (option Z)) :
  let i := input_thread_run reads (input_create clk) in
  let now := clock i (clock_reads i) in
  let j := process_pending_releases i in
  pending_releases j =
    List.filter (fun pr => negb (expired now (release_time pr)))
      (pending_releases i) /\
  trace j =
    trace i ++
    map (fun pr => doom_key_up (key pr))
      (rev (List.filter (fun pr => expired now (release_time pr))
              (pending_releases i))) /\
  forall k, is_key_held j k =
            is_key_held i k &&
            negb (existsb (fun pr => expired now (release_time pr) &&
                                     (key pr =? k))
                    (pending_releases i)).
Proof.
  cbv zeta. destruct (coherent_run clk reads) as (Hb & _ & _).
  exact (process_pending_releases_spec _ Hb).
Qed.

End RunInvariants.

(** ** No key-up for a key that is not down *)

(** Every [doom_key_up] of the trace comes when the engine has the key
    down. *)
Definition ups_follow_downs (tr : list event) : Prop :=
  forall tr1 tr2 k,
    tr = tr1 ++ doom_key_up k :: tr2 -> engine_down tr1 k = true.

(** The engine has every key down whose release is pending. *)
Definition backed (i : input) : Prop :=
  forall k, scheduled_in k (pending_releases i) = true ->
            engine_down (trace i) k = true.

Definition good (i : input) : Prop :=
  coherent i /\ backed i /\ ups_follow_downs (trace i).

Lemma ups_follow_downs_snoc tr e :
  ups_follow_downs tr ->
  (forall k, e = doom_key_up k -> engine_down tr k = true) ->
  ups_follow_downs (tr ++ [e]).
Proof.
  intros Hu He tr1 tr2 k E.
  destruct tr2 as [|x tr2 _] using rev_ind.
  - apply (app_inj_tail tr tr1) in E as [-> ->]. apply He. reflexivity.
  - change (tr1 ++ doom_key_up k :: tr2 ++ [x])
      with (tr1 ++ (doom_key_up k :: tr2) ++ [x]) in E.
    rewrite app_assoc in E. apply app_inj_tail in E as [-> _].
    apply (Hu tr1 tr2 k). reflexivity.
Qed.

Lemma good_same i j :
  pending_releases j = pending_releases i ->
  held_keys_bitmap j = held_keys_bitmap i -> trace j = trace i ->
  good i -> good j.
Proof.
  intros HP HB HT (Hc & Hb & Hu). split; [|split].
  - eapply coherent_same; eassumption.
  - intros k. rewrite HP, HT. apply Hb.
  - rewrite HT. exact Hu.
Qed.

Lemma good_emit_down k i :
  good i -> good (emit (doom_key_down k) i).
Proof.
  intros (Hc & Hb & Hu). split; [exact Hc|]. split.
  - intros k0 Hs. cbn [trace emit]. rewrite engine_down_snoc.
    destruct (k =? k0); [reflexivity|]. apply Hb, Hs.
  - cbn [trace emit]. apply ups_follow_downs_snoc; [exact Hu|].
    intros k0 E. discriminate E.
Qed.

Lemma scheduled_after_sched k d i k0 :
  scheduled_in k0 (pending_releases (sched_key_release k d i)) = true ->
  scheduled_in k0 (pending_releases i) = true \/ k0 = k.
Proof.
  destruct (find_pending k (pending_releases i)) as [n|] eqn:E.
  - rewrite (sched_key_release_found k d i n E).
    cbn [pending_releases set_pending_releases].
    rewrite scheduled_in_alter. auto.
  - destruct (Nat.lt_ge_cases (pending_count i) MAX_PENDING_RELEASES)
      as [Hroom|Hfull].
    + rewrite (sched_key_release_new k d i E Hroom).
      match goal with
      | |- context [mark_key_held k ?j] =>
          destruct (mark_key_held_same k j) as (-> & _)
      end.
      cbn [pending_releases set_pending_releases].
      rewrite scheduled_in_app. cbn [key]. rewrite orb_true_iff, Z.eqb_eq.
      intros [?|?]; auto.
    + rewrite (sched_key_release_full k d i E Hfull). auto.
Qed.

Lemma good_sched k d i :
  good i -> engine_down (trace i) k = true -> good (sched_key_release k d i).
Proof.
  intros (Hc & Hb & Hu) Hk. split; [|split].
  - apply coherent_sched_key_release, Hc.
  - intros k0 Hs. rewrite sched_key_release_trace.
    apply scheduled_after_sched in Hs as [Hs | ->]; auto.
  - rewrite sched_key_release_trace. exact Hu.
Qed.

Lemma good_release k n pr i :
  good i -> pending_releases i !! n = Some pr -> key pr = k ->
  good (set_pending_releases
          (delete n (pending_releases i))
          (mark_key_released k (emit (doom_key_up k) i))).
Proof.
  intros (Hc & Hb & Hu) Hpr Hkey.
  pose proof (scheduled_in_lookup k _ n pr Hpr Hkey) as Hsk.
  split; [|split].
  - pose proof (coherent_release k n pr (emit (doom_key_up k) i)) as HR.
    cbn [pending_releases emit] in HR.
    apply HR; [exact Hc | exact Hpr | exact Hkey].
  - intros k0. cbn [pending_releases trace set_pending_releases].
    rewrite mark_key_released_trace. cbn [trace emit].
    destruct Hc as (_ & Hun & _).
    rewrite (scheduled_in_delete k0 _ n pr Hun Hpr), Hkey.
    rewrite engine_down_snoc. intros Hs.
    apply andb_true_iff in Hs as [Hs Hne].
    destruct (k =? k0); [discriminate Hne|]. apply Hb, Hs.
  - cbn [trace set_pending_releases]. rewrite mark_key_released_trace.
    cbn [trace emit]. apply ups_follow_downs_snoc; [exact Hu|].
    intros k0 [= <-]. apply Hb, Hsk.
Qed.

Lemma good_release_at now i n : good i -> good (release_at now i n).
Proof.
  intros Hi. unfold release_at.
  destruct (pending_releases i !! n) as [pr|] eqn:E; [|exact Hi].
  destruct (expired now (release_time pr)); [|exact Hi].
  destruct (mark_key_released_same (key pr) (emit (doom_key_up (key pr)) i))
    as (MP & _ & _).
  rewrite MP. cbn [pending_releases emit].
  apply (good_release (key pr) n pr i Hi E eq_refl).
Qed.

Lemma good_process_pending_releases i :
  good i -> good (process_pending_releases i).
Proof.
  intros Hi. unfold process_pending_releases, clock_gettime.
  apply fold_left_preserves;
    [intros; apply good_release_at; assumption|].
  eapply good_same; [| | |exact Hi]; reflexivity.
Qed.

(** A key press as the handlers make it: [doom_key_down] unless the key
    is held, then [sched_key_release]. *)
Lemma good_press k d i :
  good i ->
  good (sched_key_release k d
          (if is_key_held i k then i else emit (doom_key_down k) i)).
Proof.
  intros Hi. destruct (is_key_held i k) eqn:Hheld.
  - apply good_sched; [exact Hi|]. destruct Hi as (Hc & Hb & _).
    apply Hb. destruct Hc as (_ & _ & Hk). rewrite Hk in Hheld.
    apply andb_true_iff in Hheld as [_ Hs]. exact Hs.
  - apply good_sched; [apply good_emit_down, Hi|].
    cbn [trace emit]. rewrite engine_down_snoc, Z.eqb_refl. reflexivity.
Qed.

Lemma good_sched_all ks d i :
  good i -> (forall k, In k ks -> engine_down (trace i) k = true) ->
  good (fold_left (fun i k => sched_key_release k d i) ks i).
Proof.
  revert i. induction ks as [|k ks IH]; intros i Hi Hks; cbn [fold_left];
    [exact Hi|].
  apply IH; [apply good_sched; [exact Hi | apply Hks; left; reflexivity]|].
  intros k0 Hin. rewrite sched_key_release_trace. apply Hks. right. exact Hin.
Qed.

Section Good.

Context `{Target}.

Lemma good_ascii_key ch i : good i -> good (ascii_key ch i).
Proof. intros Hi. rewrite ascii_key_unfold. apply good_press, Hi. Qed.

Lemma good_ss3_key ch i : good i -> good (ss3_key ch i).
Proof.
  intros Hi. unfold ss3_key. cbv zeta. destruct (_ =? 0); [exact Hi|].
  apply good_press, Hi.
Qed.

Lemma good_csi_key ch p1 p2 i : good i -> good (csi_key ch p1 p2 i).
Proof.
  intros Hi. unfold csi_key. cbv zeta. destruct (_ =? 0); [exact Hi|].
  set (k := csi_doom_key ch p1). set (d := csi_delay_ms k).
  assert (H1 : let r := if is_key_held i k then csi_held_check k i
                        else (false, i) in
               good r.2 /\
               (negb (is_key_held i k) || r.1 = false ->
                scheduled_in k (pending_releases r.2) = true)).
  { destruct (is_key_held i k) eqn:Hheld; cbv zeta; cbn [negb orb fst snd];
      [|split; [exact Hi | discriminate]].
    destruct (csi_held_check_cases k i)
      as [[E1 E2]|(E1 & n & pr & Hpr & Hk & E2)]; rewrite E1, E2.
    - split; [eapply good_same; [| | |exact Hi]; reflexivity|].
      intros _. destruct Hi as ((_ & _ & Hh) & _). rewrite Hh in Hheld.
      apply andb_true_iff in Hheld as [_ Hs]. exact Hs.
    - split; [|discriminate].
      apply (good_release k n pr (tick i)); [|exact Hpr | exact Hk].
      eapply good_same; [| | |exact Hi]; reflexivity. }
  destruct (if is_key_held i k then csi_held_check k i else (false, i))
    as [is_new i1]. cbv zeta in H1. cbn [fst snd] in H1.
  destruct H1 as (Hg1 & Hs1).
  destruct (negb (is_key_held i k) || is_new) eqn:Hcond.
  - unfold sched_modifier_releases.
    set (i2 := emit (doom_key_down k) (for_each_modifier_key_down p2 i1)).
    destruct (for_each_modifier_key_down_same p2 i1) as (SP & SB & _).
    assert (Ht2 : trace i2 =
                  trace i1 ++ map doom_key_down (modifier_keys p2 ++ [k])).
    { subst i2. cbn [trace emit].
      rewrite for_each_modifier_key_down_trace, map_app, app_assoc.
      reflexivity. }
    assert (Hd2 : forall k0, In k0 (k :: modifier_keys p2) ->
                             engine_down (trace i2) k0 = true).
    { intros k0 Hin. rewrite Ht2, engine_down_downs.
      apply orb_true_iff. left. unfold pressed.
      apply existsb_exists. exists k0. split; [|apply Z.eqb_refl].
      apply in_app_iff. destruct Hin as [<-|Hin]; [right; left|left]; auto. }
    assert (Hg2 : good i2).
    { destruct Hg1 as (Hc & Hb & Hu). split; [|split].
      - eapply coherent_same; [exact SP | exact SB | exact Hc].
      - intros k0.
        change (pending_releases i2)
          with (pending_releases (for_each_modifier_key_down p2 i1)).
        rewrite SP, Ht2, engine_down_downs. intros Hs.
        rewrite (Hb k0 Hs). apply orb_true_r.
      - rewrite Ht2. clear Hd2 Ht2.
        generalize (modifier_keys p2 ++ [k]). intros l.
        induction l as [|x l IH] using rev_ind.
        + cbn [map]. rewrite app_nil_r. exact Hu.
        + rewrite map_app, app_assoc. cbn [map].
          apply ups_follow_downs_snoc; [exact IH|]. intros k0 E.
          discriminate E. }
    apply (good_sched_all (k :: modifier_keys p2) d i2 Hg2 Hd2).
  - apply good_sched; [exact Hg1|]. destruct Hg1 as (_ & Hb & _).
    apply Hb, Hs1. reflexivity.
Qed.

Lemma good_parse_mouse_sgr fc i : good i -> good (parse_mouse_sgr fc i).
Proof.
  intros Hi. unfold parse_mouse_sgr. cbv zeta.
  destruct (_ <? 3)%nat; [exact Hi|].
  destruct (negb (Z.land _ 64 =? 0)); [exact Hi|].
  destruct (negb (tracking (mouse i)));
    [eapply good_same; [| | |exact Hi]; reflexivity|].
  set (i1 := mouse_motion _ _ i).
  assert (H1 : good i1).
  { subst i1. unfold mouse_motion. cbv zeta.
    destruct (_ || _); [|exact Hi].
    destruct Hi as (Hc & Hb & Hu). split; [exact Hc|]. split.
    - intros k. cbn [pending_releases trace set_mouse emit].
      rewrite engine_down_snoc. apply Hb.
    - cbn [trace set_mouse emit]. apply ups_follow_downs_snoc; [exact Hu|].
      intros k E. discriminate E. }
  clearbody i1. unfold mouse_button. cbv zeta.
  destruct (negb _ && _); [|exact H1].
  destruct (_ && negb _).
  - destruct (_ =? 0);
      [eapply good_same; [| | |exact H1]; reflexivity|].
    apply good_sched.
    + apply good_emit_down. eapply good_same; [| | |exact H1]; reflexivity.
    + cbn [trace emit]. rewrite engine_down_snoc, Z.eqb_refl. reflexivity.
  - destruct (negb _ && _); [|exact H1].
    eapply good_same; [| | |exact H1]; reflexivity.
Qed.

Lemma good_csi_dispatch ch i : good i -> good (csi_dispatch ch i).
Proof.
  intros Hi. unfold csi_dispatch. cbv zeta.
  destruct (_ && _);
    [eapply good_same; [| | |exact Hi]; reflexivity|].
  destruct (ch =? chr "t").
  { destruct (_ && _); [|exact Hi].
    eapply good_same; [| | |exact Hi]; reflexivity. }
  destruct (ch =? chr "R").
  { destruct (_ <=? _)%nat; [|exact Hi].
    eapply good_same; [| | |exact Hi]; reflexivity. }
  destruct (_ || _).
  - destruct (_ =? chr "<"); [apply good_parse_mouse_sgr|]; exact Hi.
  - apply good_csi_key, Hi.
Qed.

Lemma good_set_state st i : good i -> good (set_state st i).
Proof. intros Hi. eapply good_same; [| | |exact Hi]; reflexivity. Qed.

Lemma good_parse_char ch i : good i -> good (parse_char ch i).
Proof.
  intros Hi. unfold parse_char.
  destruct (ch =? 3);
    [eapply good_same; [| | |exact Hi]; reflexivity|].
  destruct (ch =? 27).
  { apply good_set_state.
    destruct (state i); try exact Hi. apply good_ascii_key, Hi. }
  destruct (state i).
  - apply good_ascii_key, Hi.
  - destruct (ch =? chr "O"); [apply good_set_state, Hi|].
    destruct (ch =? chr "[");
      [eapply good_same; [| | |exact Hi]; reflexivity|].
    cbv zeta. destruct (_ && _).
    + apply good_ascii_key, good_set_state, good_ascii_key, Hi.
    + apply good_set_state, good_ascii_key, Hi.
  - apply good_set_state, good_ss3_key, Hi.
  - destruct (_ || _);
      [eapply good_same; [| | |exact Hi]; reflexivity|].
    destruct (_ && _);
      [eapply good_same; [| | |exact Hi]; reflexivity|].
    destruct (ch =? chr ";");
      [eapply good_same; [| | |exact Hi]; reflexivity|].
    cbv zeta. apply good_set_state, good_csi_dispatch.
    eapply good_same; [| | |exact Hi]; reflexivity.
Qed.

Lemma good_input_thread_step rd i :
  good i -> good (input_thread_step rd i).
Proof.
  intros Hi. unfold input_thread_step. cbv zeta.
  pose proof (good_process_pending_releases i Hi) as H1.
  set (i1 := process_pending_releases i) in *. clearbody i1.
  destruct (state i1), rd as [b|]; try exact H1;
    try (apply good_parse_char; exact H1).
  destruct (negb (esc_waiting i1)); [exact H1|].
  unfold clock_gettime. cbv zeta.
  destruct (100 <=? _); [|exact H1].
  apply good_set_state with (i := ascii_key 27 _).
  apply good_ascii_key. exact H1.
Qed.

(** X8. The input thread never calls [doom_key_up] for a key the engine
    does not have down: in every run, each [doom_key_up (k)] comes after a
    [doom_key_down (k)] with no [doom_key_up (k)] in between; and the
    engine has every key down whose release is pending. This holds with
    the pending list full as well. *)
Theorem key_up_only_for_a_key_that_is_down (clk : nat -> timespec)
    (reads : list (option Z)) :
  let i := input_thread_run reads (input_create clk) in
  (forall before after k,
     trace i = before ++ doom_key_up k :: after ->
     engine_down before k = true) /\
  (forall pr, In pr (pending_releases i) ->
              engine_down (trace i) (key pr) = true).
Proof.
  cbv zeta.
  assert (Hg : good (input_thread_run reads (input_create clk))).
  { apply input_thread_run_invariant;
      [intros; apply good_input_thread_step; assumption|].
    split; [apply coherent_input_create|]. split.
    - intros k Hs. discriminate Hs.
    - intros [|e tr1] tr2 k E; discriminate E. }
  destruct Hg as (_ & Hb & Hu). split; [exact Hu|].
  intros pr Hin. apply Hb, scheduled_in_In. exists pr. auto.
Qed.

End Good.

(** ** What is forwarded as mouse motion *)

(** A [doom_mouse_move] call with both arguments multiples of the
    sensitivity, at most 100 cells' worth, and not both zero. *)
Definition mouse_move_ok (e : event) : Prop :=
  match e with
  | doom_mouse_move dx dy =>
      (exists a b, dx = a * MOUSE_SENSITIVITY /\ dy = b * MOUSE_SENSITIVITY /\
                   - MAX_DELTA_CLAMP <= a <= MAX_DELTA_CLAMP /\
                   - MAX_DELTA_CLAMP <= b <= MAX_DELTA_CLAMP) /\
      (dx <> 0 \/ dy <> 0)
  | _ => True
  end.

Definition moves_ok (i : input) : Prop := Forall mouse_move_ok (trace i).

Lemma moves_ok_same i j : trace j = trace i -> moves_ok i -> moves_ok j.
Proof. unfold moves_ok. intros ->. auto. Qed.

Lemma moves_ok_emit e i :
  mouse_move_ok e -> moves_ok i -> moves_ok (emit e i).
Proof.
  unfold moves_ok. cbn [trace emit]. intros He Hi.
  apply Forall_app. split; [exact Hi|]. constructor; [exact He|constructor].
Qed.

Lemma moves_ok_sched k d i : moves_ok i -> moves_ok (sched_key_release k d i).
Proof. apply moves_ok_same, sched_key_release_trace. Qed.

Lemma moves_ok_release_at now i n : moves_ok i -> moves_ok (release_at now i n).
Proof.
  intros Hi. unfold release_at.
  destruct (pending_releases i !! n) as [pr|]; [|exact Hi].
  destruct (expired now (release_time pr)); [|exact Hi].
  unfold moves_ok. cbn [trace set_pending_releases].
  rewrite mark_key_released_trace. apply (moves_ok_emit _ i); [exact I|exact Hi].
Qed.

Lemma moves_ok_process_pending_releases i :
  moves_ok i -> moves_ok (process_pending_releases i).
Proof.
  intros Hi. unfold process_pending_releases, clock_gettime.
  apply fold_left_preserves;
    [intros; apply moves_ok_release_at; assumption | exact Hi].
Qed.

Section Moves.

Context `{Target}.

Lemma moves_ok_ascii_key ch i : moves_ok i -> moves_ok (ascii_key ch i).
Proof.
  intros Hi. rewrite ascii_key_unfold. apply moves_ok_sched.
  destruct (is_key_held i _); [exact Hi|]. apply moves_ok_emit; [exact I|exact Hi].
Qed.

Lemma moves_ok_ss3_key ch i : moves_ok i -> moves_ok (ss3_key ch i).
Proof.
  intros Hi. unfold ss3_key. cbv zeta. destruct (_ =? 0); [exact Hi|].
  apply moves_ok_sched.
  destruct (is_key_held i _); [exact Hi|]. apply moves_ok_emit; [exact I|exact Hi].
Qed.

Lemma moves_ok_csi_key ch p1 p2 i : moves_ok i -> moves_ok (csi_key ch p1 p2 i).
Proof.
  intros Hi. unfold csi_key. cbv zeta. destruct (_ =? 0); [exact Hi|].
  set (k := csi_doom_key ch p1).
  assert (H1 : moves_ok
            (if is_key_held i k then csi_held_check k i else (false, i)).2).
  { destruct (is_key_held i k); [|exact Hi].
    destruct (csi_held_check_cases k i)
      as [[_ E2]|(_ & n & pr & _ & _ & E2)]; rewrite E2; [exact Hi|].
    unfold moves_ok. cbn [trace set_pending_releases].
    rewrite mark_key_released_trace.
    apply (moves_ok_emit _ (tick i)); [exact I | exact Hi]. }
  destruct (if is_key_held i k then csi_held_check k i else (false, i))
    as [is_new i1]. cbn [snd] in H1.
  assert (H2 : moves_ok
            (if negb (is_key_held i k) || is_new
             then emit (doom_key_down k) (for_each_modifier_key_down p2 i1)
             else i1)).
  { destruct (negb _ || _); [|exact H1].
    apply moves_ok_emit; [exact I|]. unfold for_each_modifier_key_down.
    apply fold_left_preserves; [|exact H1].
    intros j m Hj. apply moves_ok_emit; [exact I | exact Hj]. }
  apply (moves_ok_sched k (csi_delay_ms k)) in H2.
  destruct (negb _ || _); [|exact H2].
  unfold sched_modifier_releases. apply fold_left_preserves; [|exact H2].
  intros j m Hj. apply moves_ok_sched, Hj.
Qed.

Lemma moves_ok_mouse_motion cx cy i :
  moves_ok i -> moves_ok (mouse_motion cx cy i).
Proof.
  intros Hi. unfold mouse_motion. cbv zeta.
  destruct (negb _ || negb _) eqn:E; [|exact Hi].
  apply (moves_ok_emit _ i); [|exact Hi]. cbn [mouse_move_ok]. split.
  - eexists _, _. split; [reflexivity|]. split; [reflexivity|].
    split; apply clamp_delta_range.
  - apply orb_true_iff in E as [E|E]; apply negb_true_iff, Z.eqb_neq in E;
      [left | right]; exact E.
Qed.

Lemma moves_ok_parse_mouse_sgr fc i :
  moves_ok i -> moves_ok (parse_mouse_sgr fc i).
Proof.
  intros Hi. unfold parse_mouse_sgr. cbv zeta.
  destruct (_ <? 3)%nat; [exact Hi|].
  destruct (negb (Z.land _ 64 =? 0)); [exact Hi|].
  destruct (negb (tracking (mouse i))); [exact Hi|].
  match goal with
  | |- moves_ok (mouse_button ?fc ?cb (mouse_motion ?cx ?cy i)) =>
      destruct (mouse_button_trace fc cb (mouse_motion cx cy i))
        as (keys & E & _);
      pose proof (moves_ok_mouse_motion cx cy i Hi) as H1
  end.
  unfold moves_ok in *. rewrite E. apply Forall_app. split; [exact H1|].
  apply Forall_forall. intros e He.
  apply list_elem_of_fmap in He as (k & -> & _).
  exact I.
Qed.

Lemma moves_ok_csi_dispatch ch i : moves_ok i -> moves_ok (csi_dispatch ch i).
Proof.
  intros Hi. unfold csi_dispatch. cbv zeta.
  destruct (_ && _); [exact Hi|].
  destruct (ch =? chr "t"); [destruct (_ && _); exact Hi|].
  destruct (ch =? chr "R"); [destruct (_ <=? _)%nat; exact Hi|].
  destruct (_ || _).
  - destruct (_ =? chr "<"); [apply moves_ok_parse_mouse_sgr|]; exact Hi.
  - apply moves_ok_csi_key, Hi.
Qed.

Lemma moves_ok_parse_char ch i : moves_ok i -> moves_ok (parse_char ch i).
Proof.
  intros Hi. unfold parse_char.
  destruct (ch =? 3); [exact Hi|].
  destruct (ch =? 27).
  { destruct (state i); try exact Hi.
    apply (moves_ok_ascii_key 27 i Hi). }
  destruct (state i).
  - apply moves_ok_ascii_key, Hi.
  - destruct (ch =? chr "O"); [exact Hi|].
    destruct (ch =? chr "["); [exact Hi|].
    cbv zeta. pose proof (moves_ok_ascii_key 27 i Hi) as H1.
    destruct (_ && _); [|exact H1].
    apply moves_ok_ascii_key. exact H1.
  - apply (moves_ok_ss3_key ch i Hi).
  - destruct (_ || _); [exact Hi|].
    destruct (_ && _); [exact Hi|].
    destruct (ch =? chr ";"); [exact Hi|].
    cbv zeta.
    match goal with
    | |- moves_ok (set_state _ (csi_dispatch ch ?j)) =>
        apply (moves_ok_csi_dispatch ch j); exact Hi
    end.
Qed.

Lemma moves_ok_input_thread_step rd i :
  moves_ok i -> moves_ok (input_thread_step rd i).
Proof.
  intros Hi. unfold input_thread_step. cbv zeta.
  pose proof (moves_ok_process_pending_releases i Hi) as H1.
  set (i1 := process_pending_releases i) in *. clearbody i1.
  destruct (state i1), rd as [b|]; try exact H1;
    try (apply moves_ok_parse_char; exact H1).
  destruct (negb (esc_waiting i1)); [exact H1|].
  unfold clock_gettime. cbv zeta.
  destruct (100 <=? _); [|exact H1].
  apply (moves_ok_ascii_key 27). exact H1.
Qed.

(** X9. Whatever the terminal reports, every [doom_mouse_move] the input
    thread makes has both arguments multiples of 10 between -1000 and
    1000, and never both zero. *)
Theorem mouse_moves_bounded (clk : nat -> timespec)
    (reads : list (option Z)) (dx dy : Z) :
  In (doom_mouse_move dx dy)
     (trace (input_thread_run reads (input_create clk))) ->
  -1000 <= dx <= 1000 /\ -1000 <= dy <= 1000 /\
  Z.rem dx 10 = 0 /\ Z.rem dy 10 = 0 /\ (dx <> 0 \/ dy <> 0).
Proof.
  intros Hin.
  assert (Hm : moves_ok (input_thread_run reads (input_create clk))).
  { apply input_thread_run_invariant;
      [intros; apply moves_ok_input_thread_step; assumption|].
    constructor. }
  unfold moves_ok in Hm. rewrite Forall_forall in Hm.
  apply list_elem_of_In in Hin.
  destruct (Hm _ Hin) as ((a & b & -> & -> & Ha & Hb) & Hnz).
  unfold MOUSE_SENSITIVITY, MAX_DELTA_CLAMP in *.
  rewrite !Z.rem_mul by lia. repeat split; lia.
Qed.

End Moves.

(** ** The exit request *)

(** [input_is_running]; [None] is the null pointer. *)
Definition input_is_running (inp : option input) : bool :=
  match inp with
  | Some i => negb (exit_requested i)
  | None => false
  end.

Section Exit.

Context `{Target}.

Lemma csi_dispatch_exit_requested ch i :
  exit_requested (csi_dispatch ch i) = exit_requested i.
Proof.
  unfold csi_dispatch. cbv zeta.
  destruct (_ && _); [reflexivity|].
  destruct (ch =? chr "t"); [destruct (_ && _); reflexivity|].
  destruct (ch =? chr "R"); [destruct (_ <=? _)%nat; reflexivity|].
  destruct (_ || _).
  - destruct (_ =? chr "<"); [apply parse_mouse_sgr_state | reflexivity].
  - apply csi_key_hold_only.
Qed.

Lemma parse_char_exit_requested ch i :
  exit_requested (parse_char ch i) = (ch =? 3) || exit_requested i.
Proof.
  unfold parse_char. destruct (ch =? 3); [reflexivity|]. cbn [orb].
  destruct (ch =? 27).
  { destruct (state i); try reflexivity. apply (ascii_key_hold_only 27 i). }
  destruct (state i).
  - apply ascii_key_hold_only.
  - destruct (ch =? chr "O"); [reflexivity|].
    destruct (ch =? chr "["); [reflexivity|].
    cbv zeta. destruct (_ && _).
    + match goal with
      | |- exit_requested (ascii_key ch ?j) = _ =>
          destruct (ascii_key_hold_only ch j) as (-> & _)
      end.
      apply (ascii_key_hold_only 27 i).
    + apply (ascii_key_hold_only 27 i).
  - apply (ss3_key_hold_only ch i).
  - destruct (_ || _); [reflexivity|].
    destruct (_ && _); [reflexivity|].
    destruct (ch =? chr ";"); [reflexivity|].
    cbv zeta. cbn [exit_requested set_state].
    rewrite csi_dispatch_exit_requested. reflexivity.
Qed.

Lemma input_thread_step_exit_requested rd i :
  exit_requested (input_thread_step rd i) =
  exit_requested i ||
  match rd with Some b => to_char b =? 3 | None => false end.
Proof.
  unfold input_thread_step. cbv zeta.
  destruct (process_pending_releases_hold_only i) as (E & _).
  set (i1 := process_pending_releases i) in *. clearbody i1. rewrite <- E.
  destruct (state i1), rd as [b|];
    rewrite ?parse_char_exit_requested, ?orb_false_r;
    try reflexivity; try apply orb_comm.
  destruct (negb (esc_waiting i1)); [reflexivity|].
  unfold clock_gettime. cbv zeta.
  destruct (100 <=? _); [|reflexivity].
  cbn [exit_requested set_esc set_state].
  match goal with
  | |- exit_requested (ascii_key 27 ?j) = _ =>
      destruct (ascii_key_hold_only 27 j) as (-> & _)
  end.
  reflexivity.
Qed.

(** X10. Ctrl-C (byte 3) read in any parser state requests the exit, is not
    forwarded as a key, and leaves the parser state as it is; and nothing
    the input thread reads afterwards withdraws the request:
    [input_is_running] is false from then on. *)
Theorem ctrl_c_requests_exit_for_good (clk : nat -> timespec)
    (before after : list (option Z)) :
  let i := input_thread_run before (input_create clk) in
  let j := input_thread_step (Some 3) i in
  state j = state i /\
  trace j = trace (process_pending_releases i) /\
  input_is_running (Some j) = false /\
  input_is_running (Some (input_thread_run after j)) = false.
Proof.
  cbv zeta. set (i := input_thread_run before (input_create clk)).
  assert (E3 : to_char 3 = 3).
  { unfold to_char. destruct char_signed; reflexivity. }
  assert (Hj : exit_requested (input_thread_step (Some 3) i) = true).
  { rewrite input_thread_step_exit_requested, E3. apply orb_true_r. }
  split; [|split; [|split]].
  - unfold input_thread_step. cbv zeta. rewrite E3.
    destruct (process_pending_releases_hold_only i) as (_ & ES & _).
    rewrite <- ES.
    destruct (state (process_pending_releases i)) eqn:Es; cbn; exact Es.
  - unfold input_thread_step. cbv zeta. rewrite E3.
    destruct (state (process_pending_releases i)); reflexivity.
  - cbn [input_is_running]. rewrite Hj. reflexivity.
  - cbn [input_is_running]. apply negb_false_iff.
    apply (input_thread_run_invariant (fun j => exit_requested j = true));
      [|exact Hj].
    intros rd j E. rewrite input_thread_step_exit_requested, E. reflexivity.
Qed.

End Exit.

(** ** The engine and the bitmap while the list has room *)

Section RoomRuns.

Context `{Target}.

(** The loop keeps bitmap, list and engine in agreement as long as every
    turn starts with four free entries. *)
Lemma sound_run (clk : nat -> timespec) (reads : list (option Z)) :
  (forall n, (n < length reads)%nat ->
     (pending_count (input_thread_run (take n reads) (input_create clk)) + 4
      <= MAX_PENDING_RELEASES)%nat) ->
  sound (input_thread_run reads (input_create clk)).
Proof.
  induction reads as [|rd reads IH] using rev_ind; intros Hroom;
    [apply sound_input_create|].
  rewrite input_thread_run_snoc. apply sound_input_thread_step.
  - apply IH. intros n Hn.
    specialize (Hroom n). rewrite length_app in Hroom. cbn in Hroom.
    rewrite take_app_le in Hroom by lia. apply Hroom. lia.
  - specialize (Hroom (length reads)). rewrite length_app in Hroom.
    cbn in Hroom. rewrite take_app_length in Hroom.
    apply Hroom. lia.
Qed.

Lemma in_range_key k :
  0 <= k < MAX_KEY_CODE -> out_of_range k = false.
Proof.
  intros Hk. unfold out_of_range, MAX_KEY_CODE in *.
  apply orb_false_iff. rewrite Z.ltb_ge, Z.leb_gt. lia.
Qed.

(** X11. As long as every turn of the input thread starts with at least
    four free entries in the pending list, the bitmap says of every key
    code from 0 to 255 what the engine was last told: the bit is set
    exactly when the last call for the key was [doom_key_down]. *)
Theorem bitmap_matches_engine_while_room (clk : nat -> timespec)
    (reads : list (option Z)) :
  (forall n, (n < length reads)%nat ->
     (pending_count (input_thread_run (take n reads) (input_create clk)) + 4
      <= MAX_PENDING_RELEASES)%nat) ->
  forall k, 0 <= k < MAX_KEY_CODE ->
    is_key_held (input_thread_run reads (input_create clk)) k =
    engine_down (trace (input_thread_run reads (input_create clk))) k.
Proof.
  intros Hroom k Hk.
  destruct (sound_run clk reads Hroom) as [_ Ha].
  apply Ha, in_range_key, Hk.
Qed.

(** X21. No key stays down once its time is up. After a run in which every
    turn started with four free entries, a poll whose clock reading is at
    or past every pending deadline empties the pending list and leaves no
    key code from 0 to 255 down in the engine, and no bit set. *)
Theorem no_key_left_down_after_deadlines (clk : nat -> timespec)
    (reads : list (option Z)) :
  (forall n, (n < length reads)%nat ->
     (pending_count (input_thread_run (take n reads) (input_create clk)) + 4
      <= MAX_PENDING_RELEASES)%nat) ->
  let i := input_thread_run reads (input_create clk) in
  let now := clock i (clock_reads i) in
  (forall pr, In pr (pending_releases i) ->
              expired now (release_time pr) = true) ->
  let j := process_pending_releases i in
  pending_releases j = [] /\
  forall k, 0 <= k < MAX_KEY_CODE ->
            engine_down (trace j) k = false /\ is_key_held j k = false.
Proof.
  intros Hroom i now Hdue j.
  pose proof (sound_run clk reads Hroom) as Hs. fold i in Hs.
  pose proof Hs as [(Hb & _ & _) _].
  destruct (process_pending_releases_spec i Hb) as (Hp & _ & _).
  fold j in Hp.
  assert (He : pending_releases j = []).
  { rewrite Hp. apply filter_none. intros pr Hin.
    unfold due. fold now. rewrite (Hdue pr Hin). reflexivity. }
  split; [exact He|]. intros k Hk.
  destruct (sound_process_pending_releases i Hs) as [(_ & _ & Hc) Ha].
  fold j in Hc, Ha.
  assert (Hh : is_key_held j k = false).
  { rewrite Hc, He. cbn. apply andb_false_r. }
  split; [|exact Hh]. rewrite <- Ha by (apply in_range_key, Hk). exact Hh.
Qed.

End RoomRuns.

(** ** Deadlines *)

(** A [timespec] with its nanoseconds below one second. *)
Definition normalized (t : timespec) : Prop :=
  0 <= tv_nsec t < 1000000000.

(** X12. For normalised clock readings, a release scheduled at [now] with a
    delay of [d] milliseconds has a normalised deadline [d] milliseconds
    after [now] (the carry into the seconds included), and a poll at [t]
    finds it due exactly when [t] is at or after that deadline. *)
Theorem release_due_when_delay_has_passed (now t : timespec) (d : Z) :
  normalized now -> normalized t -> 0 <= d ->
  normalized (release_after now d) /\
  nanos (release_after now d) = nanos now + d * 1000000 /\
  expired t (release_after now d) = (nanos now + d * 1000000 <=? nanos t).
Proof.
  unfold normalized. intros Hn Ht Hd.
  assert (Hr : normalized (release_after now d) /\
               nanos (release_after now d) = nanos now + d * 1000000).
  { unfold normalized, release_after, nanos. cbv zeta.
    destruct (Z.leb_spec 1000000000 (tv_nsec now + d * 1000000)) as [Hc|Hc];
      cbn [tv_sec tv_nsec].
    - rewrite Z.quot_div_nonneg, Z.rem_mod_nonneg by lia.
      pose proof (Z.div_mod (tv_nsec now + d * 1000000) 1000000000
                    ltac:(lia)).
      pose proof (Z.mod_pos_bound (tv_nsec now + d * 1000000) 1000000000
                    ltac:(lia)).
      lia.
    - lia. }
  destruct Hr as [Hrn Hre]. split; [exact Hrn|]. split; [exact Hre|].
  rewrite <- Hre. unfold normalized in Hrn.
  generalize dependent (release_after now d). intros rt Hrn _.
  unfold expired, nanos.
  destruct (Z.ltb_spec (tv_sec rt) (tv_sec t)) as [H1|H1]; cbn [orb].
  - symmetry. apply Z.leb_le. nia.
  - destruct (Z.eqb_spec (tv_sec t) (tv_sec rt)) as [H2|H2]; cbn [andb].
    + rewrite H2. destruct (Z.leb_spec (tv_nsec rt) (tv_nsec t));
        symmetry; [apply Z.leb_le | apply Z.leb_gt]; lia.
    + symmetry. apply Z.leb_gt. nia.
Qed.

Lemma release_due_when_delay_has_passed_witness :
  let now := {| tv_sec := 7; tv_nsec := 980000000 |} in
  let t := {| tv_sec := 8; tv_nsec := 30000000 |} in
  normalized (release_after now 50) /\
  nanos (release_after now 50) = nanos now + 50 * 1000000 /\
  expired t (release_after now 50) = (nanos now + 50 * 1000000 <=? nanos t).
Proof.
  apply (release_due_when_delay_has_passed
           {| tv_sec := 7; tv_nsec := 980000000 |}
           {| tv_sec := 8; tv_nsec := 30000000 |} 50).
  - unfold normalized. cbn. lia.
  - unfold normalized. cbn. lia.
  - lia.
Defined.

(** ** Decoding a CSI sequence *)

(** The decimal digits of a number, as [printf ("%d")] and a terminal
    write them. *)
Definition decimal (n : Z) : list Z :=
  chars (NilZero.string_of_int (Z.to_int n)).

(** The parameters of a CSI sequence: decimal numbers with semicolons
    between them. *)
Fixpoint csi_parameters (ps : list Z) : list Z :=
  match ps with
  | [] => []
  | p :: ps' =>
      match ps' with
      | [] => decimal p
      | _ :: _ => decimal p ++ chr ";" :: csi_parameters ps'
      end
  end.

(** The number a digit string denotes after the digits [acc] read so
    far. *)
Fixpoint digits_value (d : uint) (acc : Z) : Z :=
  match d with
  | Nil => acc
  | D0 d => digits_value d (acc * 10 + 0)
  | D1 d => digits_value d (acc * 10 + 1)
  | D2 d => digits_value d (acc * 10 + 2)
  | D3 d => digits_value d (acc * 10 + 3)
  | D4 d => digits_value d (acc * 10 + 4)
  | D5 d => digits_value d (acc * 10 + 5)
  | D6 d => digits_value d (acc * 10 + 6)
  | D7 d => digits_value d (acc * 10 + 7)
  | D8 d => digits_value d (acc * 10 + 8)
  | D9 d => digits_value d (acc * 10 + 9)
  end.

Lemma digits_value_acc d acc :
  Z.pos (Pos.of_uint_acc d acc) = digits_value d (Z.pos acc).
Proof.
  revert acc. induction d; intros acc; cbn [Pos.of_uint_acc digits_value];
    [reflexivity|..]; rewrite IHd; f_equal; lia.
Qed.

Lemma digits_value_of_uint d : Z.of_uint d = digits_value d 0.
Proof.
  unfold Z.of_uint.
  induction d; cbn [Pos.of_uint digits_value]; try reflexivity;
    try (rewrite N2Z.inj_pos, digits_value_acc; reflexivity).
  exact IHd.
Qed.

Lemma digits_value_ge d acc : 0 <= acc -> acc <= digits_value d acc.
Proof.
  revert acc. induction d; intros acc Ha; cbn [digits_value]; [lia|..];
    (etransitivity; [|apply IHd]; lia).
Qed.

Lemma decimal_digits n :
  0 <= n ->
  exists d, decimal n = chars (NilEmpty.string_of_uint d) /\
            digits_value d 0 = n.
Proof.
  intros Hn. unfold decimal. destruct n as [|p|p]; [| |lia].
  - exists (D0 Nil). split; reflexivity.
  - exists (Pos.to_uint p). cbn [Z.to_int NilZero.string_of_int]. split.
    + pose proof (Unsigned.of_to p) as E.
      destruct (Pos.to_uint p); try reflexivity. discriminate E.
    + rewrite <- digits_value_of_uint. unfold Z.of_uint.
      rewrite Unsigned.of_to. reflexivity.
Qed.

Lemma parse_chars_app `{Target} l1 l2 i :
  parse_chars (l1 ++ l2) i = parse_chars l2 (parse_chars l1 i).
Proof. unfold parse_chars. apply fold_left_app. Qed.

Lemma parse_chars_cons `{Target} ch l i :
  parse_chars (ch :: l) i = parse_chars l (parse_char ch i).
Proof. reflexivity. Qed.

Section Csi.

Context `{Target}.

Lemma set_params_id i : set_params (params i) i = i.
Proof. destruct i. reflexivity. Qed.

Lemma set_parm_id p : set_parm (parm p) p = p.
Proof. destruct p. reflexivity. Qed.

Lemma parse_digit k i :
  state i = STATE_CSI -> 0 <= k <= 9 ->
  0 <= parm (params i) -> parm (params i) * 10 + k <= INT_MAX ->
  parse_char (chr "0" + k) i =
  set_params (set_parm (parm (params i) * 10 + k) (params i)) i.
Proof.
  intros Hs Hk Hp Hmax. unfold parse_char. rewrite Hs.
  change (chr "0") with 48 in *. change (chr "9") with 57.
  change (chr "?") with 63. change (chr ">") with 62.
  change (chr "<") with 60.
  unfold INT_MAX in Hmax.
  destruct (Z.eqb_spec (48 + k) 3); [lia|].
  destruct (Z.eqb_spec (48 + k) 27); [lia|].
  destruct (Z.eqb_spec (48 + k) 63); [lia|].
  destruct (Z.eqb_spec (48 + k) 62); [lia|].
  destruct (Z.eqb_spec (48 + k) 60); [lia|].
  cbn [orb].
  destruct (Z.leb_spec 48 (48 + k)); [|lia].
  destruct (Z.leb_spec (48 + k) 57); [|lia].
  cbn [andb].
  rewrite (wrap_int_id (parm (params i) * 10))
    by (unfold INT_MIN, INT_MAX; lia).
  rewrite wrap_int_id by (unfold INT_MIN, INT_MAX; lia).
  repeat f_equal. lia.
Qed.

Lemma parse_digits d i :
  state i = STATE_CSI -> 0 <= parm (params i) ->
  digits_value d (parm (params i)) <= INT_MAX ->
  parse_chars (chars (NilEmpty.string_of_uint d)) i =
  set_params (set_parm (digits_value d (parm (params i))) (params i)) i.
Proof.
  revert i.
  assert (Hstep : forall k d',
    0 <= k <= 9 ->
    (forall i, state i = STATE_CSI -> 0 <= parm (params i) ->
       digits_value d' (parm (params i)) <= INT_MAX ->
       parse_chars (chars (NilEmpty.string_of_uint d')) i =
       set_params (set_parm (digits_value d' (parm (params i))) (params i))
         i) ->
    forall i, state i = STATE_CSI -> 0 <= parm (params i) ->
      digits_value d' (parm (params i) * 10 + k) <= INT_MAX ->
      parse_chars (chr "0" + k :: chars (NilEmpty.string_of_uint d')) i =
      set_params
        (set_parm (digits_value d' (parm (params i) * 10 + k)) (params i))
        i).
  { intros k d' Hk IH i Hs Hp Hmax.
    pose proof (digits_value_ge d' (parm (params i) * 10 + k) ltac:(lia)).
    rewrite parse_chars_cons, parse_digit by (assumption || lia).
    rewrite IH; cbn [state params parm set_params set_parm];
      [reflexivity | exact Hs | lia | exact Hmax]. }
  induction d; intros i Hs Hp Hmax; cbn [digits_value] in *;
    [rewrite set_parm_id, set_params_id; reflexivity|..].
  - apply (Hstep 0 d ltac:(lia) IHd i Hs Hp Hmax).
  - apply (Hstep 1 d ltac:(lia) IHd i Hs Hp Hmax).
  - apply (Hstep 2 d ltac:(lia) IHd i Hs Hp Hmax).
  - apply (Hstep 3 d ltac:(lia) IHd i Hs Hp Hmax).
  - apply (Hstep 4 d ltac:(lia) IHd i Hs Hp Hmax).
  - apply (Hstep 5 d ltac:(lia) IHd i Hs Hp Hmax).
  - apply (Hstep 6 d ltac:(lia) IHd i Hs Hp Hmax).
  - apply (Hstep 7 d ltac:(lia) IHd i Hs Hp Hmax).
  - apply (Hstep 8 d ltac:(lia) IHd i Hs Hp Hmax).
  - apply (Hstep 9 d ltac:(lia) IHd i Hs Hp Hmax).
Qed.

(** A decimal number read in the CSI state with no digit read before it
    leaves its value in [parm]. *)
Lemma parse_decimal n i :
  state i = STATE_CSI -> parm (params i) = 0 -> 0 <= n <= INT_MAX ->
  parse_chars (decimal n) i = set_params (set_parm n (params i)) i.
Proof.
  intros Hs Hp Hn. destruct (decimal_digits n ltac:(lia)) as (d & -> & Hd).
  rewrite parse_digits by (rewrite ?Hp, ?Hd; assumption || lia).
  rewrite Hp, Hd. reflexivity.
Qed.

End Csi.

(** The parameter record after the parameters [ps] have been stored over
    the old contents [old] of the array: the first [MAX_PARMS] of them are
    kept, the rest is dropped. *)
Definition decoded (prefix : Z) (ps : list Z) (last_parm : Z)
    (old : list Z) : params_t :=
  {| parms := take MAX_PARMS ps ++ drop (length ps) old;
     parm := last_parm;
     parm_count := Nat.min (length ps) MAX_PARMS;
     parm_prefix := prefix |}.

Lemma push_parm_decoded prefix ps v old :
  length old = MAX_PARMS ->
  push_parm (decoded prefix ps v old) = decoded prefix (ps ++ [v]) v old.
Proof.
  intros Hold. unfold push_parm, decoded, MAX_PARMS in *.
  cbn [parm_count parms parm parm_prefix].
  destruct (Nat.ltb_spec (Nat.min (length ps) 32) 32) as [Hlt|Hge].
  - assert (Hps : (length ps < 32)%nat) by lia.
    rewrite Nat.min_l by lia. f_equal.
    + rewrite (take_ge ps) by lia.
      rewrite take_ge by (rewrite length_app; cbn; lia).
      rewrite insert_app_r_alt by lia. rewrite Nat.sub_diag.
      rewrite <- app_assoc. f_equal.
      rewrite length_app. cbn [length].
      pose proof (drop_drop old 1 (length ps)) as E1.
      destruct (drop (length ps) old) as [|x l] eqn:E.
      { apply (f_equal length) in E. rewrite length_drop in E.
        cbn in E. lia. }
      cbn. f_equal. cbn in E1. exact E1.
    + rewrite length_app. cbn [length]. lia.
  - assert (Hps : (32 <= length ps)%nat) by lia. f_equal.
    + rewrite take_app_le by lia. f_equal.
      rewrite !drop_ge by (rewrite ?length_app; cbn; lia). reflexivity.
    + rewrite length_app. cbn [length]. lia.
Qed.

Lemma csi_parameters_cons p ps :
  ps <> [] ->
  csi_parameters (p :: ps) = decimal p ++ chr ";" :: csi_parameters ps.
Proof. destruct ps; [contradiction | reflexivity]. Qed.

Section CsiSequence.

Context `{Target}.

Lemma parse_semicolon i :
  state i = STATE_CSI ->
  parse_char (chr ";") i = set_params (set_parm 0 (push_parm (params i))) i.
Proof. intros Hs. unfold parse_char. rewrite Hs. reflexivity. Qed.

Lemma parse_parameters prefix old init l :
  length old = MAX_PARMS ->
  Forall (fun p => 0 <= p <= INT_MAX) (init ++ [l]) ->
  forall done i,
    state i = STATE_CSI -> params i = decoded prefix done 0 old ->
    parse_chars (csi_parameters (init ++ [l])) i =
    set_params (decoded prefix (done ++ init) l old) i.
Proof.
  intros Hold. induction init as [|p init IH]; intros Hr done i Hs Hp.
  - cbn [app csi_parameters]. apply Forall_inv in Hr.
    rewrite parse_decimal by (rewrite ?Hp; assumption || reflexivity).
    rewrite Hp, app_nil_r. reflexivity.
  - cbn [app]. rewrite csi_parameters_cons by (destruct init; discriminate).
    pose proof (Forall_inv Hr) as Hp0. apply Forall_inv_tail in Hr.
    rewrite parse_chars_app, parse_chars_cons.
    rewrite parse_decimal by (rewrite ?Hp; assumption || reflexivity).
    rewrite parse_semicolon by exact Hs.
    rewrite (IH Hr (done ++ [p])).
    + cbn [set_params]. rewrite <- app_assoc. reflexivity.
    + exact Hs.
    + cbn [params set_params]. rewrite Hp.
      change (set_parm p (decoded prefix done 0 old))
        with (decoded prefix done p old).
      rewrite push_parm_decoded by exact Hold. reflexivity.
Qed.

(** The whole sequence, as an equation between parser states. *)
Lemma csi_sequence_parsed (i : input) (prefix final : Z) (ps : list Z) :
  state i <> STATE_ESC ->
  length (parms (params i)) = MAX_PARMS ->
  prefix = 0 \/ prefix = chr "?" \/ prefix = chr ">" \/ prefix = chr "<" ->
  ps <> [] ->
  Forall (fun p => 0 <= p <= INT_MAX) ps ->
  final <> 3 -> final <> 27 -> param_byte final = false ->
  parse_chars
    ([27; chr "["] ++ (if prefix =? 0 then [] else [prefix]) ++
     csi_parameters ps ++ [final]) i =
  set_state STATE_GROUND
    (csi_dispatch final
       (set_params
          (decoded prefix ps (List.last ps 0) (parms (params i)))
          (set_state STATE_CSI i))).
Proof.
  intros Hs Hold Hpre Hne Hr H3 H27 Hfin.
  destruct (exists_last Hne) as (init & l & ->).
  rewrite last_last.
  set (i1 := set_params (decoded 0 [] 0 (parms (params i)))
               (set_state STATE_CSI i)).
  assert (E1 : parse_chars [27; chr "["] i = i1).
  { cbn [parse_chars fold_left]. unfold parse_char at 2.
    change (27 =? 3) with false. change (27 =? 27) with true. cbv iota.
    assert (E : match state i with
                | STATE_ESC => ascii_key 27 i
                | _ => i
                end = i) by (destruct (state i); congruence).
    rewrite E. unfold parse_char. reflexivity. }
  set (i2 := set_params (decoded prefix [] 0 (parms (params i)))
               (set_state STATE_CSI i)).
  assert (E2 : parse_chars (if prefix =? 0 then [] else [prefix]) i1 = i2).
  { destruct Hpre as [->|[->|[->| ->]]]; reflexivity. }
  rewrite !parse_chars_app, E1, E2.
  rewrite (parse_parameters prefix (parms (params i)) init l Hold Hr [] i2)
    by reflexivity.
  cbn [app parse_chars fold_left]. unfold parse_char.
  cbn [state set_params set_state].
  destruct (Z.eqb_spec final 3); [contradiction|].
  destruct (Z.eqb_spec final 27); [contradiction|].
  unfold param_byte in Hfin.
  apply orb_false_iff in Hfin as [Hfin Hsemi].
  apply orb_false_iff in Hfin as [Hp Hdig].
  rewrite Hp, Hdig, Hsemi. cbv zeta. cbn [params set_params].
  change (decoded prefix init l (parms (params i)))
    with (decoded prefix init l (parms (params i))).
  rewrite push_parm_decoded by exact Hold. reflexivity.
Qed.

(** X13. The bytes ESC [, an optional prefix character [?], [>] or [<],
    one or more decimal parameters between 0 and [INT_MAX] separated by
    semicolons, and a final byte, read from any state but ESC, are decoded
    as one sequence: the final byte is dispatched with the parameters in
    the array in their order, the first 32 of them when there are more,
    the count at the number stored, and the prefix recorded; the parser
    is in GROUND afterwards. *)
Theorem csi_sequence_decoded (i : input) (prefix final : Z) (ps : list Z) :
  state i <> STATE_ESC ->
  length (parms (params i)) = MAX_PARMS ->
  prefix = 0 \/ prefix = chr "?" \/ prefix = chr ">" \/ prefix = chr "<" ->
  ps <> [] ->
  Forall (fun p => 0 <= p <= INT_MAX) ps ->
  final <> 3 -> final <> 27 -> param_byte final = false ->
  exists i',
    parse_chars
      ([27; chr "["] ++ (if prefix =? 0 then [] else [prefix]) ++
       csi_parameters ps ++ [final]) i =
    set_state STATE_GROUND (csi_dispatch final i') /\
    parm_count (params i') = Nat.min (length ps) MAX_PARMS /\
    (forall k, (k < Nat.min (length ps) MAX_PARMS)%nat ->
               parms (params i') !! k = ps !! k) /\
    length (parms (params i')) = MAX_PARMS /\
    parm_prefix (params i') = prefix /\
    trace i' = trace i /\ query i' = query i /\ mouse i' = mouse i /\
    pending_releases i' = pending_releases i /\
    held_keys_bitmap i' = held_keys_bitmap i /\
    exit_requested i' = exit_requested i.
Proof.
  intros Hs Hold Hpre Hne Hr H3 H27 Hfin.
  eexists. split; [apply csi_sequence_parsed; assumption|].
  cbn [params set_params set_state decoded parm_count parms parm_prefix
       trace query mouse pending_releases held_keys_bitmap exit_requested].
  split; [reflexivity|]. split.
  { intros k Hk. unfold MAX_PARMS in *.
    rewrite lookup_app_l by (rewrite length_take; lia).
    apply lookup_take_lt. lia. }
  split.
  { unfold MAX_PARMS in *. rewrite length_app, length_take, length_drop. lia. }
  repeat split.
Qed.

End CsiSequence.

(** ** Replies of the terminal *)

Definition in_int (z : Z) : Prop := 0 <= z <= INT_MAX.

Lemma decoded_length prefix ps l old :
  length old = MAX_PARMS -> length (parms (decoded prefix ps l old)) = MAX_PARMS.
Proof.
  unfold decoded, MAX_PARMS. cbn [parms]. intros Hold.
  rewrite length_app, length_take, length_drop. lia.
Qed.

Section Replies.

Context `{Target}.

(** The cursor position report ESC [ row ; col R. *)
Definition cursor_position_reply (row col : Z) : list Z :=
  [27; chr "["] ++ decimal row ++ [chr ";"] ++ decimal col ++ [chr "R"].

(** The report ESC [ kind ; height ; width t. *)
Definition size_reply (kind height width : Z) : list Z :=
  [27; chr "["] ++ decimal kind ++ [chr ";"] ++ decimal height ++
  [chr ";"] ++ decimal width ++ [chr "t"].

(** The device attributes reply ESC [ ? a ; b ; ... c. *)
Definition device_attributes_reply (attrs : list Z) : list Z :=
  [27; chr "["; chr "?"] ++ csi_parameters attrs ++ [chr "c"].

Lemma cursor_position_reply_parsed i row col :
  state i <> STATE_ESC -> length (parms (params i)) = MAX_PARMS ->
  in_int row -> in_int col ->
  parse_chars (cursor_position_reply row col) i =
  set_state STATE_GROUND
    (position_report row col
       (set_params (decoded 0 [row; col] col (parms (params i)))
          (set_state STATE_CSI i))).
Proof.
  intros Hs Hl Hr Hc.
  pose proof (csi_sequence_parsed i 0 (chr "R") [row; col] Hs Hl
                ltac:(left; reflexivity) ltac:(discriminate)
                (Forall_cons_2 _ _ _ Hr
                   (Forall_cons_2 _ _ _ Hc (Forall_nil_2 _)))
                ltac:(discriminate) ltac:(discriminate) eq_refl) as E.
  cbn [csi_parameters app Z.eqb] in E.
  unfold cursor_position_reply. cbn [app].
  cbn [app]. repeat (rewrite <- app_assoc in E; cbn [app] in E).
  rewrite E. reflexivity.
Qed.

Lemma size_reply_parsed i kind h w :
  state i <> STATE_ESC -> length (parms (params i)) = MAX_PARMS ->
  in_int kind -> in_int h -> in_int w ->
  parse_chars (size_reply kind h w) i =
  set_state STATE_GROUND
    ((if kind =? 4 then cell_size_report h w else fun i => i)
       (set_params (decoded 0 [kind; h; w] w (parms (params i)))
          (set_state STATE_CSI i))).
Proof.
  intros Hs Hl Hk Hh Hw.
  pose proof (csi_sequence_parsed i 0 (chr "t") [kind; h; w] Hs Hl
                ltac:(left; reflexivity) ltac:(discriminate)
                (Forall_cons_2 _ _ _ Hk
                   (Forall_cons_2 _ _ _ Hh
                      (Forall_cons_2 _ _ _ Hw (Forall_nil_2 _))))
                ltac:(discriminate) ltac:(discriminate) eq_refl) as E.
  cbn [csi_parameters app Z.eqb] in E.
  unfold size_reply. cbn [app].
  cbn [app]. repeat (rewrite <- app_assoc in E; cbn [app] in E).
  rewrite E. unfold csi_dispatch, decoded. cbn.
  destruct (kind =? 4); reflexivity.
Qed.



End Replies.

(** ** The queries of the main thread *)

(** The three query functions write a request to stdout and wait on the
    condition variable for the input thread to record the reply. What the
    input thread does to the struct while the caller waits is the
    parameter [during]; the null pointer is [None]; a result of [None]
    means that the caller is still waiting. *)

Definition lower_flags (cell cursor : bool) (i : input) : input :=
  set_query
    {| device_attributes := device_attributes (query i);
       da_count := da_count (query i);
       has_cell_size := if cell then false else has_cell_size (query i);
       cell_size := cell_size (query i);
       has_cursor_pos := if cursor then false else has_cursor_pos (query i);
       cursor_pos := cursor_pos (query i) |} i.

Definition set_cell_size (v : Z * Z) (i : input) : input :=
  set_query
    {| device_attributes := device_attributes (query i);
       da_count := da_count (query i);
       has_cell_size := has_cell_size (query i);
       cell_size := v;
       has_cursor_pos := has_cursor_pos (query i);
       cursor_pos := cursor_pos (query i) |} i.

(** [input_get_screen_size]: the result, the struct, and the bytes
    written. The two products are taken in [int]. *)
Definition input_get_screen_size (during : input -> input)
    (inp : option input)
  : option (Z * Z) * option input * list Z :=
  match inp with
  | None => (Some (0, 0), None, [])
  | Some i =>
      let out := [27] ++ chars "[9999;9999H" ++ [27] ++ chars "[16t" ++
                 [27] ++ chars "[6n" in
      let i := lower_flags true true i in
      let i := during i in
      if has_cursor_pos (query i) then
        let i := if has_cell_size (query i) then i
                 else set_cell_size (20, 10) i in
        let cell_height := (cell_size (query i)).1 in
        let cell_width := (cell_size (query i)).2 in
        let rows := (cursor_pos (query i)).1 in
        let columns := (cursor_pos (query i)).2 in
        (Some (wrap_int (rows * cell_height),
               wrap_int (columns * cell_width)), Some i, out)
      else (None, Some i, out)
  end.

(** [input_get_screen_cells]: one timed wait; [wait_result] is what
    [pthread_cond_timedwait] returned, 0 when the condition was
    signalled. *)
Definition input_get_screen_cells (during : input -> input)
    (wait_result : Z) (inp : option input)
  : (Z * Z) * option input * list Z :=
  match inp with
  | None => ((0, 0), None, [])
  | Some i =>
      let out := [27] ++ chars "[9999;9999H" ++ [27] ++ chars "[6n" in
      let i := lower_flags false true i in
      let i := during i in
      if (wait_result =? 0) && has_cursor_pos (query i)
      then (cursor_pos (query i), Some i, out)
      else ((24, 80), Some i, out)
  end.

Section Queries.

Context `{Target}.

(** X16. [input_get_screen_size] answers once a cursor position report has
    been recorded after its request: the screen size is the reported rows
    and columns times the cell height and width of an ESC [ 4 ; h ; w t
    report parsed before it, and times 20 and 10 when no such report has
    arrived, a size report with first parameter 6 being none; the
    products are those of [int]. Without a cursor position report the
    caller keeps waiting; a null pointer gives (0, 0) at once. *)
Theorem screen_size_from_reports (i : input) (kind h w rows cols : Z) :
  state i <> STATE_ESC -> length (parms (params i)) = MAX_PARMS ->
  0 <= kind <= INT_MAX -> 0 <= h <= INT_MAX -> 0 <= w <= INT_MAX ->
  0 <= rows <= INT_MAX -> 0 <= cols <= INT_MAX ->
  let result during := (input_get_screen_size during (Some i)).1.1 in
  result (parse_chars (size_reply kind h w ++
                       cursor_position_reply rows cols)) =
    (if kind =? 4
     then Some (wrap_int (rows * h), wrap_int (cols * w))
     else Some (wrap_int (rows * 20), wrap_int (cols * 10))) /\
  result (parse_chars (cursor_position_reply rows cols)) =
    Some (wrap_int (rows * 20), wrap_int (cols * 10)) /\
  result (parse_chars (size_reply kind h w)) = None /\
  result (fun i => i) = None /\
  (input_get_screen_size (fun i => i) None).1.1 = Some (0, 0).
Proof.
  intros Hs Hl Hk Hh Hw Hr Hc. cbv zeta.
  unfold input_get_screen_size. cbv zeta.
  set (i0 := lower_flags true true i).
  assert (Hs0 : state i0 <> STATE_ESC) by exact Hs.
  assert (Hl0 : length (parms (params i0)) = MAX_PARMS) by exact Hl.
  split; [|split; [|split; [|split]]].
  - rewrite parse_chars_app, size_reply_parsed by assumption.
    rewrite cursor_position_reply_parsed;
      [| cbn [state set_state]; discriminate
       | destruct (kind =? 4); cbn [params set_state cell_size_report
           set_query set_params];
         apply decoded_length; exact Hl
       | assumption | assumption].
    destruct (kind =? 4); reflexivity.
  - rewrite cursor_position_reply_parsed by assumption. reflexivity.
  - rewrite size_reply_parsed by assumption.
    destruct (kind =? 4); reflexivity.
  - reflexivity.
  - reflexivity.
Qed.

(** X17. [input_get_screen_cells] waits once, for two seconds at most. When
    the wait ends by a signal and a cursor position report ESC [ r ; c R
    has been recorded, the answer is [(r, c)]; when it ends by the
    timeout, whatever has arrived, or by a signal with no position
    recorded, the answer is 24 rows of 80 columns. *)
Theorem screen_cells_or_default (i : input) (rows cols wait_result : Z)
    (during : input -> input) :
  state i <> STATE_ESC -> length (parms (params i)) = MAX_PARMS ->
  0 <= rows <= INT_MAX -> 0 <= cols <= INT_MAX ->
  let result during wait_result :=
    (input_get_screen_cells during wait_result (Some i)).1.1 in
  result (parse_chars (cursor_position_reply rows cols)) 0 = (rows, cols) /\
  (wait_result <> 0 -> result during wait_result = (24, 80)) /\
  (has_cursor_pos (query (during (lower_flags false true i))) = false ->
   result during wait_result = (24, 80)).
Proof.
  intros Hs Hl Hr Hc. cbv zeta. unfold input_get_screen_cells. cbv zeta.
  split; [|split].
  - rewrite cursor_position_reply_parsed by assumption. reflexivity.
  - intros Hw. apply Z.eqb_neq in Hw. rewrite Hw. reflexivity.
  - intros Hn. rewrite Hn, andb_false_r. reflexivity.
Qed.

End Queries.

(** [input_get_device_attributes]: the array and its count once a reply
    is stored, the struct, and the bytes written. *)
Definition input_get_device_attributes (during : input -> input)
    (inp : option input)
  : option (option (list Z) * nat) * option input * list Z :=
  match inp with
  | None => (Some (None, 0%nat), None, [])
  | Some i =>
      let out := [27] ++ chars "[c" in
      let i := during i in
      if (da_count (query i) =? 0)%nat then (None, Some i, out)
      else (Some (device_attributes (query i), da_count (query i)),
            Some i, out)
  end.

Section DeviceAttributes.

Context `{Target}.

Lemma device_attributes_reply_parsed i attrs :
  state i <> STATE_ESC -> length (parms (params i)) = MAX_PARMS ->
  attrs <> [] -> Forall (fun p => 0 <= p <= INT_MAX) attrs ->
  parse_chars (device_attributes_reply attrs) i =
  set_state STATE_GROUND
    (store_device_attributes
       (set_params
          (decoded (chr "?") attrs (List.last attrs 0) (parms (params i)))
          (set_state STATE_CSI i))).
Proof.
  intros Hs Hl Hne Hr.
  pose proof (csi_sequence_parsed i (chr "?") (chr "c") attrs Hs Hl
                ltac:(right; left; reflexivity) Hne Hr
                ltac:(discriminate) ltac:(discriminate) eq_refl) as E.
  unfold device_attributes_reply. cbn [app Z.eqb] in E |- *.
  change (chr "?" =? 0) with false in E. cbv iota in E. cbn [app] in E.
  rewrite E. reflexivity.
Qed.

(** X18. A device attributes reply ESC [ ? a ; b ; ... c stores the
    attributes in their order, the first 32 when there are more, with
    their count; [input_get_device_attributes] then returns them. A
    caller on a fresh struct waits until such a reply arrives; once one
    is stored, every later call answers at once with the stored
    attributes, whether or not the terminal replies again. *)
Theorem device_attributes_from_reply (i : input) (attrs : list Z) :
  state i <> STATE_ESC -> length (parms (params i)) = MAX_PARMS ->
  attrs <> [] -> Forall (fun p => 0 <= p <= INT_MAX) attrs ->
  let reply := parse_chars (device_attributes_reply attrs) in
  let first := input_get_device_attributes reply (Some i) in
  first.1.1 =
    Some (Some (take MAX_PARMS attrs), Nat.min (length attrs) MAX_PARMS) /\
  (da_count (query i) = 0%nat ->
   (input_get_device_attributes (fun i => i) (Some i)).1.1 = None) /\
  (input_get_device_attributes (fun i => i) first.1.2).1.1 = first.1.1 /\
  trace (reply i) = trace i /\ state (reply i) = STATE_GROUND.
Proof.
  intros Hs Hl Hne Hr. cbv zeta. unfold input_get_device_attributes.
  rewrite device_attributes_reply_parsed by assumption.
  set (j := set_state STATE_GROUND (store_device_attributes _)).
  assert (Hc : (Nat.min (length attrs) MAX_PARMS =? 0)%nat = false).
  { apply Nat.eqb_neq. unfold MAX_PARMS. destruct attrs; [contradiction|].
    cbn [length]. lia. }
  assert (Ht : take (Nat.min (length attrs) MAX_PARMS)
                 (take MAX_PARMS attrs ++
                  drop (length attrs) (parms (params i))) =
               take MAX_PARMS attrs).
  { unfold MAX_PARMS in *.
    destruct (Nat.le_gt_cases (length attrs) 32) as [Hle|Hgt].
    - rewrite Nat.min_l by lia. rewrite (take_ge attrs) by lia.
      rewrite take_app_length. reflexivity.
    - rewrite Nat.min_r by lia. rewrite take_app_le
        by (rewrite length_take; lia).
      rewrite take_take. f_equal; lia. }
  assert (Hd : da_count (query j) = Nat.min (length attrs) MAX_PARMS)
    by reflexivity.
  assert (Ha : device_attributes (query j) = Some (take MAX_PARMS attrs))
    by (rewrite <- Ht; reflexivity).
  assert (Htr : trace j = trace i) by reflexivity.
  assert (Hst : state j = STATE_GROUND) by reflexivity.
  clearbody j. rewrite Hd, Hc, Ha. cbn [fst snd]. rewrite Hd, Hc, Ha.
  split; [reflexivity|]. split.
  { intros E. rewrite E. reflexivity. }
  split; [reflexivity|]. split; assumption.
Qed.

End DeviceAttributes.

(** ** A lone ESC *)

Section LoneEsc.

Context `{Target}.







End LoneEsc.

(** ** The theorems at concrete inputs *)

(** A clock that advances by 50 ms at every reading. *)
Definition clock_every_50_ms : nat -> timespec :=
  fun n => {| tv_sec := 0; tv_nsec := Z.of_nat n * 50000000 |}.

(** The keys [w] and [s] in a row leave fourteen entries free. *)
Lemma bitmap_matches_engine_while_room_witness :
  let i := input_thread_run (map Some (chars "ws")) (input_create clock_zero)
  in is_key_held i 119 = engine_down (trace i) 119.
Proof.
  apply (@bitmap_matches_engine_while_room puredoom_x86_64 clock_zero
           (map Some (chars "ws"))).
  - intros n Hn. destruct n as [|[|n]].
    + vm_compute. lia.
    + vm_compute. lia.
    + cbn in Hn. lia.
  - unfold MAX_KEY_CODE. lia.
Defined.

(** The keys [w] and [s] with 50 ms between any two readings of the
    clock: [w] is released during the run, [s] by the poll after it. *)
Lemma no_key_left_down_after_deadlines_witness :
  let i := input_thread_run (map Some (chars "ws"))
             (input_create clock_every_50_ms) in
  let j := process_pending_releases i in
  pending_releases j = [] /\
  forall k, 0 <= k < MAX_KEY_CODE ->
            engine_down (trace j) k = false /\ is_key_held j k = false.
Proof.
  cbv zeta.
  refine (@no_key_left_down_after_deadlines puredoom_x86_64
            clock_every_50_ms (map Some (chars "ws")) _ _).
  - intros n Hn. destruct n as [|[|n]].
    + vm_compute. lia.
    + vm_compute. lia.
    + cbn in Hn. lia.
  - assert (E : pending_releases
                  (input_thread_run (map Some (chars "ws"))
                     (input_create clock_every_50_ms)) =
                [{| key := 115;
                    release_time :=
                      {| tv_sec := 0; tv_nsec := 200000000 |} |}])
      by (vm_compute; reflexivity).
    intros pr Hin. rewrite E in Hin.
    destruct Hin as [<- | []]. vm_compute. reflexivity.
Defined.

(** A press at cell (10, 10) and a motion report at cell (20, 10): one
    move of 100 to the right. *)
Lemma mouse_moves_bounded_witness :
  -1000 <= 100 <= 1000 /\ -1000 <= 0 <= 1000 /\
  Z.rem 100 10 = 0 /\ Z.rem 0 10 = 0 /\ (100 <> 0 \/ 0 <> 0).
Proof.
  apply (@mouse_moves_bounded puredoom_x86_64 clock_zero
           (map Some ((27 :: chars "[<0;10;10M") ++
                      (27 :: chars "[<32;20;10M"))) 100 0).
  vm_compute. left. reflexivity.
Defined.

(** ESC [ 1 ; 5 A on a fresh state. *)
Lemma csi_sequence_decoded_witness :
  exists i',
    parse_chars ([27; chr "["] ++ csi_parameters [1; 5] ++ [chr "A"])
      (input_create clock_zero) =
    set_state STATE_GROUND (csi_dispatch (chr "A") i') /\
    parm_count (params i') = 2%nat /\
    parms (params i') !! 0%nat = Some 1 /\
    parms (params i') !! 1%nat = Some 5.
Proof.
  destruct (@csi_sequence_decoded puredoom_x86_64 (input_create clock_zero)
              0 (chr "A") [1; 5])
    as (i' & E & Hc & Hl & _).
  - discriminate.
  - reflexivity.
  - left. reflexivity.
  - discriminate.
  - repeat constructor; unfold INT_MAX; lia.
  - discriminate.
  - discriminate.
  - reflexivity.
  - exists i'. split; [exact E|]. split; [exact Hc|].
    split; [apply (Hl 0%nat) | apply (Hl 1%nat)]; cbn; lia.
Defined.



(** A terminal of 24 rows and 80 columns with cells of 18 by 9 pixels,
    and the same terminal answering the size request with first
    parameter 6. *)
Lemma screen_size_from_reports_witness :
  (input_get_screen_size
     (parse_chars (size_reply 4 18 9 ++ cursor_position_reply 24 80))
     (Some (input_create clock_zero))).1.1 = Some (432, 720) /\
  (input_get_screen_size
     (parse_chars (size_reply 6 18 9 ++ cursor_position_reply 24 80))
     (Some (input_create clock_zero))).1.1 = Some (480, 800).
Proof.
  split.
  - destruct (@screen_size_from_reports puredoom_x86_64
                (input_create clock_zero) 4 18 9 24 80) as (H1 & _);
      [discriminate | reflexivity | unfold INT_MAX; lia ..|].
    exact H1.
  - destruct (@screen_size_from_reports puredoom_x86_64
                (input_create clock_zero) 6 18 9 24 80) as (H1 & _);
      [discriminate | reflexivity | unfold INT_MAX; lia ..|].
    exact H1.
Defined.

(** The same terminal asked for its size in cells: signalled with the
    report, and timed out (110 is ETIMEDOUT on Linux) with it. *)
Lemma screen_cells_or_default_witness :
  (input_get_screen_cells (parse_chars (cursor_position_reply 24 80)) 0
     (Some (input_create clock_zero))).1.1 = (24, 80) /\
  (input_get_screen_cells (parse_chars (cursor_position_reply 50 132)) 110
     (Some (input_create clock_zero))).1.1 = (24, 80).
Proof.
  destruct (@screen_cells_or_default puredoom_x86_64
              (input_create clock_zero) 24 80 110
              (parse_chars (cursor_position_reply 50 132)))
    as (H1 & H2 & _).
  - discriminate.
  - reflexivity.
  - unfold INT_MAX. lia.
  - unfold INT_MAX. lia.
  - split; [exact H1|]. apply H2. discriminate.
Defined.

(** The reply ESC [ ? 62 ; 4 c. *)
Lemma device_attributes_from_reply_witness :
  (input_get_device_attributes
     (parse_chars (device_attributes_reply [62; 4]))
     (Some (input_create clock_zero))).1.1 = Some (Some [62; 4], 2%nat) /\
  (input_get_device_attributes (fun i => i)
     (Some (input_create clock_zero))).1.1 = None.
Proof.
  destruct (@device_attributes_from_reply puredoom_x86_64
              (input_create clock_zero) [62; 4])
    as (H1 & H2 & _).
  - discriminate.
  - reflexivity.
  - discriminate.
  - repeat constructor; unfold INT_MAX; lia.
  - split; [exact H1|]. apply H2. reflexivity.
Defined.


End Input.

(* ================================================================== *)
(** * The audio callback (src/sound.c)                                 *)
(* ================================================================== *)

Module Sound.

Local Open Scope Z_scope.

(** Arithmetic in [ma_uint32] and in [size_t]. *)
Definition wrap_u32 (z : Z) : Z := z mod 2 ^ 32.
Definition wrap_size (z : Z) : Z := z mod 2 ^ 64.

(** [sizeof (short)]. *)
Definition sizeof_short : Z := 2.

(** [memcpy (dest, src, n)] and [memset (dest + off, c, n)] on blocks of
    bytes; [None] when the call would leave a block. *)
Definition memcpy (dest src : list byte) (n : nat) : option (list byte) :=
  if decide (n <= length dest /\ n <= length src)%nat
  then Some (take n src ++ drop n dest) else None.

Definition memset (dest : list byte) (off : nat) (c : byte) (n : nat)
  : option (list byte) :=
  if decide (off + n <= length dest)%nat
  then Some (take off dest ++ replicate n c ++ drop (off + n) dest)
  else None.

(** [audio_callback], between the lock and the unlock of the mutex:
    [output] is the block miniaudio hands over, [doom_buffer] the block
    [doom_get_sound_buffer] returns. The result is the output block, or
    [None] when an access leaves a block. *)
Definition audio_callback (output doom_buffer : list byte)
    (frame_count : Z) : option (list byte) :=
  let frames_to_copy := if frame_count <? 512 then frame_count else 512 in
  let bytes_to_copy :=
    wrap_size (wrap_u32 (frames_to_copy * 2) * sizeof_short) in
  match memcpy output doom_buffer (Z.to_nat bytes_to_copy) with
  | None => None
  | Some output =>
      if 512 <? frame_count then
        let silence_samples := wrap_u32 (wrap_u32 (frame_count - 512) * 2) in
        memset output (Z.to_nat (512 * 2 * sizeof_short)) x00
          (Z.to_nat (wrap_size (silence_samples * sizeof_short)))
      else Some output
  end.

(** X20. Given the 2048 bytes of the DOOM buffer and an output block with
    room for [frame_count] frames of four bytes, the callback stays
    inside both blocks and fills the whole request: the first
    [min (frame_count, 512)] frames are those of the DOOM buffer, every
    frame after the 512th is silence, and nothing beyond the request is
    written. This holds for every frame count below 2^31 + 512, where the
    32-bit count of silence samples does not wrap. *)
Theorem audio_callback_fills_request (output doom_buffer : list byte)
    (frame_count : Z) :
  0 <= frame_count < 2 ^ 31 + 512 ->
  frame_count * 4 <= Z.of_nat (length output) ->
  length doom_buffer = 2048%nat ->
  audio_callback output doom_buffer frame_count =
  Some (take (Z.to_nat (4 * Z.min frame_count 512)) doom_buffer ++
        replicate (Z.to_nat (4 * (frame_count - 512))) x00 ++
        drop (Z.to_nat (4 * frame_count)) output).
Proof.
  intros Hf Hout Hdoom. unfold audio_callback, sizeof_short. cbv zeta.
  assert (E1 : wrap_size
                 (wrap_u32 ((if frame_count <? 512 then frame_count else 512)
                            * 2) * 2) = 4 * Z.min frame_count 512).
  { unfold wrap_size, wrap_u32.
    destruct (Z.ltb_spec frame_count 512).
    - rewrite (Z.mod_small (frame_count * 2)) by lia.
      rewrite Z.mod_small by lia. lia.
    - rewrite (Z.mod_small (512 * 2)) by lia.
      rewrite Z.mod_small by lia. lia. }
  rewrite E1. unfold memcpy.
  destruct (decide _) as [_|Hn]; [|exfalso; apply Hn; lia].
  destruct (Z.ltb_spec 512 frame_count) as [Hgt|Hle].
  - assert (E2 : wrap_size
                   (wrap_u32 (wrap_u32 (frame_count - 512) * 2) * 2) =
                 4 * (frame_count - 512)).
    { unfold wrap_size, wrap_u32.
      rewrite (Z.mod_small (frame_count - 512)) by lia.
      rewrite (Z.mod_small ((frame_count - 512) * 2)) by lia.
      rewrite Z.mod_small by lia. lia. }
    rewrite E2. unfold memset.
    rewrite Z.min_r by lia.
    assert (Ht : length (take (Z.to_nat (4 * 512)) doom_buffer) =
                 Z.to_nat (512 * 2 * 2)).
    { rewrite length_take. lia. }
    destruct (decide _) as [_|Hn].
    + f_equal. rewrite take_app_length' by (symmetry; exact Ht).
      rewrite drop_app_ge by lia. rewrite Ht, drop_drop.
      do 3 f_equal. lia.
    + exfalso. apply Hn. rewrite length_app, length_drop, length_take. lia.
  - rewrite Z.min_l by lia.
    replace (Z.to_nat (4 * (frame_count - 512))) with 0%nat by lia.
    reflexivity.
Qed.

(** A request of 600 frames: 512 frames of sound and 88 of silence. *)
Lemma audio_callback_fills_request_witness :
  audio_callback (replicate 2400 xff) (replicate 2048 x01) 600 =
  Some (take (Z.to_nat (4 * Z.min 600 512)) (replicate 2048 x01) ++
        replicate (Z.to_nat (4 * (600 - 512))) x00 ++
        drop (Z.to_nat (4 * 600)) (replicate 2400 xff)).
Proof.
  apply (audio_callback_fills_request (replicate 2400 xff)
           (replicate 2048 x01) 600).
  - lia.
  - rewrite length_replicate. lia.
  - apply length_replicate.
Defined.

End Sound.
